(** * HandTracking2: the zone-interaction engine, embedded and verified

    Shallow embedding of the Python sources under
    [hand_tracked_musical_interface/src]:

    - [expression_control/pitch_bend_processor.py]
    - [expression_control/velocity_intensity_processor.py]
    - [note_mapping/zone.py], [note_mapping/layout_generator.py]
    - [note_mapping/interaction_logic.py]
    - [audio_output/midi_handler.py], [audio_output/audio_engine.py]
    - [utils/math_utils.py]

    Conventions.  Python [int] is [Z].  Python [float] is idealised as an
    exact rational ([Q]): no rounding error, no NaN, no infinities.  The
    code rounds every quotient and product to binary64 before [round] or
    [int] is applied, so a value taken exactly at a tie or at an integer can
    be off by one from the one computed here; statements known to depend on
    it (the bend of two mirrored positions, the x coordinate of a zone, the
    image of the upper end of a range) are not made.  [mido.Message] raises
    [ValueError] on data outside its ranges; the handler is embedded for the
    messages [mido] accepts ([Mido.valid]), and a statement that needs a
    message to reach the port assumes such data.  Python [dict] used as a
    table is a [gmap] when only membership matters and an association list
    when the iteration order is observable.  Objects that are shared by
    reference (the [NoteZone] instances) live in an explicit store and are
    named by their index. *)

From Stdlib Require Import ZArith QArith Qround Lia Lqa.
From stdpp Require Import gmap strings list pretty functions.

Local Open Scope Z_scope.

(** ** Python numeric built-ins on floats *)

Module Py.

(** [round(x)]: the nearest integer, a tie going to the even neighbour. *)
Definition round (x : Q) : Z :=
  let f := Qfloor x in
  match (x - inject_Z f ?= 1 # 2)%Q with
  | Lt => f
  | Gt => f + 1
  | Eq => if Z.even f then f else f + 1
  end.

(** [int(x)]: truncation toward zero. *)
Definition int (x : Q) : Z := Z.quot (Qnum x) (Z.pos (Qden x)).

(** [min(a, b)] keeps [a] unless [b] is strictly smaller. *)
Definition min (a b : Q) : Q :=
  match (b ?= a)%Q with Lt => b | _ => a end.

(** [max(a, b)] keeps [a] unless [b] is strictly larger. *)
Definition max (a b : Q) : Q :=
  match (b ?= a)%Q with Gt => b | _ => a end.

(** [math.ceil(a / b)] for two ints with [b > 0]. *)
Definition ceil_div (a b : Z) : Z := Qceiling (inject_Z a / inject_Z b).

(** [a < b] *)
Definition lt (a b : Q) : bool :=
  match (a ?= b)%Q with Lt => true | _ => false end.

End Py.

(** ** Python string built-ins, on ASCII text

    A [str] is a [string] of ASCII characters; [upper()] and [int()] are
    embedded for such text only (Python also maps letters and digits outside
    ASCII). *)

Module PyStr.

(** One character of [s.upper()]. *)
Definition upper_char (c : Ascii.ascii) : Ascii.ascii :=
  let n := Ascii.nat_of_ascii c in
  if (97 <=? n)%nat && (n <=? 122)%nat then Ascii.ascii_of_nat (n - 32) else c.

(** [s.upper()] *)
Fixpoint upper (s : string) : string :=
  match s with
  | EmptyString => EmptyString
  | String c rest => String (upper_char c) (upper rest)
  end.

(** [int(c)] for a string of one character; [None] is the [ValueError]. *)
Definition int_char (c : Ascii.ascii) : option Z :=
  let n := Ascii.nat_of_ascii c in
  if (48 <=? n)%nat && (n <=? 57)%nat then Some (Z.of_nat (n - 48)) else None.

(** [s[:-1]] *)
Definition but_last (s : string) : string := String.substring 0 (String.length s - 1) s.

(** [s[-1]]; [None] is the [IndexError] on the empty string. *)
Definition last (s : string) : option Ascii.ascii :=
  match String.length s with
  | O => None
  | Datatypes.S n => String.get n s
  end.

(** [l.index(x)]; [None] is the [ValueError]. *)
Definition index (l : list string) (x : string) : option nat :=
  fst <$> list_find (fun y => y = x) l.

End PyStr.

(** The clamp both processors apply to a relative position,
    [max(0.0, min(1.0, r))]. *)
Definition unit_clamp (r : Q) : Q := Py.max 0 (Py.min 1 r).

(** A zone rectangle [(x, y, width, height)]. *)
Definition Rect : Type := Z * Z * Z * Z.

(** ** utils/math_utils.py

    [distance] takes a square root and is not embedded. *)

Module MathUtils.

Definition map_value (value from_low from_high to_low to_high : Q)
    (clamp_output : bool) : Q :=
  let mapped_value :=
    if Qeq_bool from_low from_high then to_low
    else
      let percentage := ((value - from_low) / (from_high - from_low))%Q in
      (to_low + percentage * (to_high - to_low))%Q in
  if clamp_output then
    let min_target := Py.min to_low to_high in
    let max_target := Py.max to_low to_high in
    if Py.lt mapped_value min_target then min_target
    else if Py.lt max_target mapped_value then max_target
    else mapped_value
  else mapped_value.

Definition lerp (a b t : Q) : Q := (a + t * (b - a))%Q.

(** [clamp]; [None] is the [ValueError]. *)
Definition clamp (value min_val max_val : Q) : option Q :=
  if Py.lt max_val min_val then None
  else Some (Py.max min_val (Py.min value max_val)).

End MathUtils.

(** ** expression_control/pitch_bend_processor.py *)

Module PitchBendProcessor.

Definition midi_bend_max_abs_value : Z := 8191.

Definition _map_value (value from_low from_high to_low to_high : Q) : Q :=
  if Qeq_bool from_low from_high then to_low
  else
    let percentage := ((value - from_low) / (from_high - from_low))%Q in
    (to_low + percentage * (to_high - to_low))%Q.

Definition calculate_pitch_bend (finger_x_position : Q) (zone_rect : Rect) : Z :=
  let '(zone_x, _zone_y, zone_width, _zone_height) := zone_rect in
  if zone_width =? 0 then 0
  else
    let relative_pos_x :=
      ((finger_x_position - inject_Z zone_x) / inject_Z zone_width)%Q in
    let relative_pos_x := Py.max 0 (Py.min 1 relative_pos_x) in
    let bend_value :=
      _map_value relative_pos_x 0 1
        (inject_Z (- midi_bend_max_abs_value))
        (inject_Z midi_bend_max_abs_value) in
    let clamped_bend_value := Py.round bend_value in
    Z.max (- midi_bend_max_abs_value)
          (Z.min midi_bend_max_abs_value clamped_bend_value).

End PitchBendProcessor.

(** ** expression_control/velocity_intensity_processor.py *)

Module VelocityIntensityProcessor.

Definition midi_min_value : Z := 0.
Definition midi_max_value : Z := 127.

Definition _map_value (value from_low from_high to_low to_high : Q) : Q :=
  if Qeq_bool from_low from_high then
    (if Qle_bool to_low to_high then to_low else to_high)
  else
    let percentage := ((value - from_low) / (from_high - from_low))%Q in
    let mapped_value := (to_low + percentage * (to_high - to_low))%Q in
    match (to_low ?= to_high)%Q with
    | Lt => Py.max to_low (Py.min mapped_value to_high)
    | _ => Py.max to_high (Py.min mapped_value to_low)
    end.

Definition calculate_initial_velocity (finger_y_position : Q) (zone_rect : Rect) : Z :=
  let '(_zone_x, zone_y, _zone_width, zone_height) := zone_rect in
  if zone_height =? 0 then midi_min_value
  else
    let relative_y :=
      ((finger_y_position - inject_Z zone_y) / inject_Z zone_height)%Q in
    let relative_y := Py.max 0 (Py.min 1 relative_y) in
    let velocity :=
      _map_value relative_y 0 1 (inject_Z midi_min_value) (inject_Z midi_max_value) in
    Py.round velocity.

Definition calculate_continuous_intensity (finger_y_position : Q) (zone_rect : Rect) : Z :=
  let '(_zone_x, zone_y, _zone_width, zone_height) := zone_rect in
  if zone_height =? 0 then midi_min_value
  else
    let relative_y :=
      ((finger_y_position - inject_Z zone_y) / inject_Z zone_height)%Q in
    let relative_y := Py.max 0 (Py.min 1 relative_y) in
    let intensity :=
      _map_value relative_y 0 1 (inject_Z midi_min_value) (inject_Z midi_max_value) in
    Py.round intensity.

End VelocityIntensityProcessor.

(** ** note_mapping/zone.py *)

(** A finger identifier [(hand_id, finger_tip_landmark_id)]. *)
Definition FingerId : Type := string * Z.

Definition Color : Type := Z * Z * Z.

Record NoteZone := mkNoteZone {
  rect : Rect;
  note_name : string;
  note_midi_value : Z;
  label : string;
  is_active : bool;
  active_finger_id : option FingerId;
  base_color : Color;
  highlight_color : Color;
  current_color : Color
}.

Module Zone.

(** [NoteZone.__init__] *)
Definition init (x y width height : Z) (note_name : string)
    (note_midi_value : Z) (label : option string) : NoteZone :=
  {| rect := (x, y, width, height);
     note_name := note_name;
     note_midi_value := note_midi_value;
     label := match label with Some l => l | None => note_name end;
     is_active := false;
     active_finger_id := None;
     base_color := (50, 50, 50);
     highlight_color := (0, 255, 0);
     current_color := (50, 50, 50) |}.

Definition is_point_inside (self : NoteZone) (point_x point_y : Z) : bool :=
  let '(zone_x, zone_y, zone_width, zone_height) := rect self in
  if ((zone_x <=? point_x) && (point_x <? zone_x + zone_width))
     && ((zone_y <=? point_y) && (point_y <? zone_y + zone_height))
  then true
  else false.

Definition activate (self : NoteZone) (finger_id : FingerId) : NoteZone :=
  {| rect := rect self;
     note_name := note_name self;
     note_midi_value := note_midi_value self;
     label := label self;
     is_active := true;
     active_finger_id := Some finger_id;
     base_color := base_color self;
     highlight_color := highlight_color self;
     current_color := highlight_color self |}.

Definition deactivate (self : NoteZone) : NoteZone :=
  {| rect := rect self;
     note_name := note_name self;
     note_midi_value := note_midi_value self;
     label := label self;
     is_active := false;
     active_finger_id := None;
     base_color := base_color self;
     highlight_color := highlight_color self;
     current_color := base_color self |}.

(** [update_highlight]; [min] is on two ints here.  The product is the
    exact one (the code truncates the binary64 product). *)
Definition update_highlight (self : NoteZone) (intensity : Q) : NoteZone :=
  {| rect := rect self;
     note_name := note_name self;
     note_midi_value := note_midi_value self;
     label := label self;
     is_active := is_active self;
     active_finger_id := active_finger_id self;
     base_color := base_color self;
     highlight_color := highlight_color self;
     current_color :=
       if is_active self then
         let '(r, g, b) := highlight_color self in
         let scaled_r := Z.min 255 (Py.int (inject_Z r * intensity)) in
         let scaled_g := Z.min 255 (Py.int (inject_Z g * intensity)) in
         let scaled_b := Z.min 255 (Py.int (inject_Z b * intensity)) in
         (scaled_r, scaled_g, scaled_b)
       else base_color self |}.

(** The calls a zone object can receive after [__init__]. *)
Inductive Call : Type :=
| Activate (finger_id : FingerId)
| Deactivate
| UpdateHighlight (intensity : Q).

Definition call (self : NoteZone) (c : Call) : NoteZone :=
  match c with
  | Activate finger_id => activate self finger_id
  | Deactivate => deactivate self
  | UpdateHighlight intensity => update_highlight self intensity
  end.

(** What a zone keeps of the state [z0] that [__init__] made, whatever it
    is called with. *)
Definition kept (z0 z : NoteZone) : Prop :=
  rect z = rect z0
  /\ note_name z = note_name z0
  /\ note_midi_value z = note_midi_value z0
  /\ label z = label z0
  /\ base_color z = base_color z0
  /\ highlight_color z = highlight_color z0
  /\ (is_active z = true <-> exists f, active_finger_id z = Some f)
  /\ (is_active z = false -> current_color z = base_color z0).

Definition zone_y (self : NoteZone) : Z := let '(_, y, _, _) := rect self in y.

(** "Claiming a claimed zone is a no-op", for a zone owned by [f1] and
    another finger [f2]. *)
Definition claim_is_noop (self : NoteZone) (f1 f2 : FingerId) : Prop :=
  is_active self = true -> active_finger_id self = Some f1 -> f2 <> f1 ->
  activate self f2 = self.

End Zone.

(** ** note_mapping/layout_generator.py

    [generate_layout] has two halves.  The first one picks the notes to show
    ([notes_to_display], from the chromatic run or a preset scale); the
    second one arranges that list in zones.  They are embedded one by one
    ([choose_notes], [generate_layout]) and together
    ([generate_layout_from_settings]).  The settings read from the
    configuration are arguments. *)

Module LayoutGenerator.

Definition NOTE_NAMES : list string :=
  ["C"; "C#"; "D"; "D#"; "E"; "F"; "F#"; "G"; "G#"; "A"; "A#"; "B"]%string.

(** [_get_midi_value]; [None] is the [ValueError].  A name outside
    [NOTE_NAMES] whose second character is [B] is read as a flat: the note
    before the one its first character names. *)
Definition _get_midi_value (note_name : string) : option Z :=
  if (String.length note_name <? 2)%nat then None
  else
    let name_part := PyStr.upper (PyStr.but_last note_name) in
    match PyStr.last note_name ≫= PyStr.int_char with
    | None => None
    | Some octave_part =>
        let name_part :=
          if bool_decide (name_part ∈ NOTE_NAMES) then Some name_part
          else if (1 <? String.length name_part)%nat
                  && bool_decide (String.substring 1 1 name_part = "B"%string)
          then
            original_note_index ← PyStr.index NOTE_NAMES (String.substring 0 1 name_part);
            NOTE_NAMES !! Z.to_nat ((Z.of_nat original_note_index - 1 + 12) mod 12)
          else None in
        name_part ← name_part;
        semitone_offset ← PyStr.index NOTE_NAMES name_part;
        Some ((octave_part + 1) * 12 + Z.of_nat semitone_offset)
    end.

(** [_get_note_name]; [None] is the [ValueError]. *)
Definition _get_note_name (midi_value : Z) : option string :=
  if (0 <=? midi_value) && (midi_value <=? 127) then
    let octave := midi_value / 12 - 1 in
    let note_index := midi_value mod 12 in
    (fun note_name => (note_name +:+ pretty octave)%string)
      <$> NOTE_NAMES !! Z.to_nat note_index
  else None.

Definition _generate_chromatic_notes (start_midi : Z) (num_notes : nat)
    : list (string * Z) :=
  flat_map
    (fun i =>
       let current_midi := start_midi + Z.of_nat i in
       if (0 <=? current_midi) && (current_midi <=? 127) then
         match _get_note_name current_midi with
         | Some note_name => [(note_name, current_midi)]
         | None => []
         end
       else [])
    (seq 0 num_notes).

(** One entry of [preset_scales]: [scale.get('name')] and
    [scale.get('notes', [])]. *)
Record Scale := mkScale {
  scale_name : option string;
  scale_notes : list string
}.

(** The loop over [scale_notes_raw]: a note whose name is not understood
    is skipped with a warning. *)
Definition scale_notes_to_display (scale_notes_raw : list string) : list (string * Z) :=
  flat_map
    (fun note_str =>
       match _get_midi_value note_str with
       | Some midi_value => [(note_str, midi_value)]
       | None => []
       end)
    scale_notes_raw.

(** [if active_scale_name:] *)
Definition scale_requested (active_scale_name : option string) : bool :=
  match active_scale_name with
  | None | Some EmptyString => false
  | Some _ => true
  end.

(** The first half of [generate_layout]: [notes_to_display], from the
    settings [starting_note], [num_octaves], [active_scale] and
    [preset_scales].  [None] is the [ValueError] for a starting note that is
    not understood. *)
Definition choose_notes (starting_note_name : string) (num_octaves : Z)
    (active_scale_name : option string) (preset_scales : list Scale)
    : option (list (string * Z)) :=
  start_midi ← _get_midi_value starting_note_name;
  let chromatic := _generate_chromatic_notes start_midi (Z.to_nat (num_octaves * 12)) in
  Some
    (if scale_requested active_scale_name then
       match List.find (fun scale => bool_decide (scale_name scale = active_scale_name))
                       preset_scales with
       | Some scale =>
           match scale_notes_to_display (scale_notes scale) with
           | [] => chromatic
           | notes_to_display => notes_to_display
           end
       | None => chromatic
       end
     else chromatic).

Definition num_rows : nat := 2.

(** [row_counts = [0] * num_rows], then one increment per note at slot
    [i % num_rows]. *)
Definition row_counts (num_notes_total : nat) : list nat :=
  foldl (fun counts i => alter S (i mod num_rows)%nat counts)
        (replicate num_rows 0%nat)
        (seq 0 num_notes_total).

Section Arrange.
Variable notes_to_display : list (string * Z).
Variables screen_width screen_height padding : Z.
Variable zone_labels : bool.

Definition num_notes_total : nat := length notes_to_display.
Definition zone_area_width : Z := screen_width - 2 * padding.
Definition zone_area_height : Z := screen_height - 2 * padding.
Definition row_height : Q :=
  (inject_Z zone_area_height / inject_Z (Z.of_nat num_rows))%Q.

(** The body of [for i_col in range(notes_in_current_row)], threading
    [self.zones] and [current_note_index]; [break] ends the loop.  [x]
    and [y] are the exact sums (the code truncates the binary64 ones,
    which for [x] can be one less where the exact value is an
    integer). *)
Fixpoint fill_row (i_row : nat) (zone_width : Q) (cols : list nat)
    (st : list NoteZone * nat) : list NoteZone * nat :=
  match cols with
  | [] => st
  | i_col :: rest =>
      let '(zones, current_note_index) := st in
      if (num_notes_total <=? current_note_index)%nat then st
      else
        match notes_to_display !! current_note_index with
        | None => st
        | Some (note_name, note_midi) =>
            let x := (inject_Z padding + inject_Z (Z.of_nat i_col) * zone_width)%Q in
            let y := (inject_Z padding + inject_Z (Z.of_nat i_row) * row_height)%Q in
            let zone_label := if zone_labels then Some note_name else None in
            let zone :=
              Zone.init (Py.int x) (Py.int y) (Py.int zone_width) (Py.int row_height)
                        note_name note_midi zone_label in
            fill_row i_row zone_width rest (zones ++ [zone], S current_note_index)
        end
  end.

(** The body of [for i_row in range(num_rows)]. *)
Definition fill_rows (counts : list nat) (st : list NoteZone * nat) (i_row : nat)
    : list NoteZone * nat :=
  match counts !! i_row with
  | None => st
  | Some notes_in_current_row =>
      if (notes_in_current_row =? 0)%nat then st
      else
        let zone_width :=
          (inject_Z zone_area_width / inject_Z (Z.of_nat notes_in_current_row))%Q in
        fill_row i_row zone_width (seq 0 notes_in_current_row) st
  end.

Definition generate_layout : list NoteZone :=
  if (num_notes_total =? 0)%nat then []
  else
    let notes_per_row_ideal := Py.ceil_div (Z.of_nat num_notes_total) (Z.of_nat num_rows) in
    let counts := row_counts num_notes_total in
    fst (foldl (fill_rows counts) ([], 0%nat) (seq 0 num_rows)).

End Arrange.

(** The two halves of [generate_layout] together: [self.zones] after the
    call, or [None] when it raises. *)
Definition generate_layout_from_settings (starting_note_name : string) (num_octaves : Z)
    (active_scale_name : option string) (preset_scales : list Scale)
    (screen_width screen_height padding : Z) (zone_labels : bool)
    : option (list NoteZone) :=
  notes_to_display ←
    choose_notes starting_note_name num_octaves active_scale_name preset_scales;
  Some (generate_layout notes_to_display screen_width screen_height padding zone_labels).

Definition zone_x (self : NoteZone) : Z := let '(x, _, _, _) := rect self in x.
Definition zone_width (self : NoteZone) : Z := let '(_, _, w, _) := rect self in w.
Definition zone_height (self : NoteZone) : Z := let '(_, _, _, h) := rect self in h.

(** The row the arrangement puts note [i] of [n] in: the first
    [ceil(n / 2)] notes fill row 0, the others row 1. *)
Definition row_of (n i : nat) : nat :=
  if (i <? (n + 1) / 2)%nat then 0%nat else 1%nat.

(** The first note of a row, and the number of notes in it. *)
Definition row_start (n i_row : nat) : nat :=
  if (i_row =? 0)%nat then 0%nat else ((n + 1) / 2)%nat.

Definition row_count (n i_row : nat) : nat :=
  if (i_row =? 0)%nat then ((n + 1) / 2)%nat else (n / 2)%nat.

(** The zone of note [i] in closed form: its row, its column in the row,
    and the rectangle the two loops compute for that place. *)
Definition zone_of_note (notes_to_display : list (string * Z))
    (screen_width screen_height padding : Z) (zone_labels : bool) (i : nat)
    : option NoteZone :=
  match notes_to_display !! i with
  | None => None
  | Some (note_name, note_midi) =>
      let n := length notes_to_display in
      let i_row := row_of n i in
      let i_col := (i - row_start n i_row)%nat in
      let zone_width :=
        (inject_Z (zone_area_width screen_width padding)
         / inject_Z (Z.of_nat (row_count n i_row)))%Q in
      let x := (inject_Z padding + inject_Z (Z.of_nat i_col) * zone_width)%Q in
      let y :=
        (inject_Z padding
         + inject_Z (Z.of_nat i_row) * row_height screen_height padding)%Q in
      Some (Zone.init (Py.int x) (Py.int y) (Py.int zone_width)
                      (Py.int (row_height screen_height padding))
                      note_name note_midi
                      (if zone_labels then Some note_name else None))
  end.

(** What the arrangement makes of note [i]: a zone of that note, in the
    row [row_of] says. *)
Definition placed (notes_to_display : list (string * Z)) (screen_height padding : Z)
    (i : nat) (z : NoteZone) : Prop :=
  Zone.zone_y z
    = Py.int (inject_Z padding
              + inject_Z (Z.of_nat (row_of (length notes_to_display) i))
                * row_height screen_height padding)%Q
  /\ notes_to_display !! i = Some (note_name z, note_midi_value z).

(** The loop invariant of the arrangement: [current_note_index] zones so
    far, each in its place. *)
Definition all_placed (notes_to_display : list (string * Z)) (screen_height padding : Z)
    (st : list NoteZone * nat) : Prop :=
  length (fst st) = snd st
  /\ forall i z, fst st !! i = Some z -> placed notes_to_display screen_height padding i z.

(** The rule "note [i] goes to row [i mod num_rows]", read on the zones. *)
Definition round_robin_rows (notes_to_display : list (string * Z))
    (screen_width screen_height padding : Z) (zone_labels : bool) : Prop :=
  forall i z,
    generate_layout notes_to_display screen_width screen_height padding zone_labels !! i
      = Some z ->
    (inject_Z (Zone.zone_y z)
     == inject_Z padding
        + inject_Z (Z.of_nat (i mod num_rows)) * row_height screen_height padding)%Q.

End LayoutGenerator.

(** ** The [mido] library, as far as the handler uses it

    A message is a record of its fields; [port.send] appends to what the
    port has been given so far.  [mido.Message(...)] checks its data and
    raises [ValueError] when a value is out of range: [valid] is that check.
    The handler below builds a message and sends it in one step; for a
    message that is not [valid] the code raises at that point, after it has
    changed its channel pool, and sends nothing.  That exit is not part of
    the embedding: where a statement depends on a message reaching the
    port, it assumes data for which every message is [valid]. *)

Module Mido.

Inductive Message : Type :=
| note_on (note velocity channel : Z)
| note_off (note velocity channel : Z)
| pitchwheel (pitch channel : Z)
| aftertouch (value channel : Z)
| control_change (control value channel : Z).

Record OutputPort := mkPort {
  name : string;
  closed : bool;
  sent : list Message
}.

Definition send (p : OutputPort) (msg : Message) : OutputPort :=
  {| name := name p; closed := closed p; sent := sent p ++ [msg] |}.

Definition close (p : OutputPort) : OutputPort :=
  {| name := name p; closed := true; sent := sent p |}.

(** The ranges [mido] checks: a note, velocity, control or value is a data
    byte, a pitch is in [-8192, 8191], a channel in [0, 15]. *)
Definition data_byte (v : Z) : bool := (0 <=? v) && (v <=? 127).

Definition valid (msg : Message) : bool :=
  match msg with
  | note_on note velocity channel | note_off note velocity channel =>
      data_byte note && data_byte velocity && (0 <=? channel) && (channel <=? 15)
  | pitchwheel pitch channel =>
      (-8192 <=? pitch) && (pitch <=? 8191) && (0 <=? channel) && (channel <=? 15)
  | aftertouch value channel =>
      data_byte value && (0 <=? channel) && (channel <=? 15)
  | control_change control value channel =>
      data_byte control && data_byte value && (0 <=? channel) && (channel <=? 15)
  end.

(** [msg.channel] *)
Definition channel (msg : Message) : Z :=
  match msg with
  | note_on _ _ channel | note_off _ _ channel | pitchwheel _ channel
  | aftertouch _ channel | control_change _ _ channel => channel
  end.

End Mido.

(** ** audio_output/midi_handler.py *)

(** Lines the handler prints while sending. *)
Inductive Printed : Type :=
| WarnInvalidChannelRange
| WarnRanOutOfChannels
| WarnFingerNotFound (finger_id : FingerId).

Record MidiHandler := mkMidiHandler {
  available_channels : gset Z;
  master_channel : Z;
  active_note_channels : gmap FingerId Z;
  port : option Mido.OutputPort;
  console : list Printed
}.

Module Midi.

(** [set(range(lo, hi + 1))] *)
Definition channel_set (lo hi : Z) : gset Z :=
  list_to_set (map (fun i => lo + Z.of_nat i) (seq 0 (Z.to_nat (hi + 1 - lo)))).

(** The test on [midi_channel_range] in [__init__]: [Some l] is a list of
    ints, [None] any other value. *)
Definition valid_range (mpe_ch_range : option (list Z)) : option (Z * Z) :=
  match mpe_ch_range with
  | Some [lo; hi] =>
      if (1 <=? lo) && (lo <=? 16) && (1 <=? hi) && (hi <=? 16) && (lo <=? hi)
      then Some (lo, hi) else None
  | _ => None
  end.

(** The range the pool is built from: the configured one, or [2, 16]. *)
Definition effective_range (mpe_ch_range : option (list Z)) : Z * Z :=
  match valid_range mpe_ch_range with
  | Some r => r
  | None => (2, 16)
  end.

(** [MidiHandler.__init__]; [opened] is what [open_port] leaves in
    [self.port]. *)
Definition init (mpe_ch_range : option (list Z)) (opened : option Mido.OutputPort)
    : MidiHandler :=
  let '(lo, hi) := effective_range mpe_ch_range in
  {| available_channels := channel_set lo hi;
     master_channel := 1;
     active_note_channels := ∅;
     port := opened;
     console := match valid_range mpe_ch_range with
                | Some _ => []
                | None => [WarnInvalidChannelRange]
                end |}.

(** [not self.port or self.port.closed] *)
Definition port_not_open (self : MidiHandler) : bool :=
  match port self with
  | None => true
  | Some p => Mido.closed p
  end.

(** [self.port.send(msg)] *)
Definition port_send (self : MidiHandler) (msg : Mido.Message) : MidiHandler :=
  {| available_channels := available_channels self;
     master_channel := master_channel self;
     active_note_channels := active_note_channels self;
     port := (fun p => Mido.send p msg) <$> port self;
     console := console self |}.

Definition print (self : MidiHandler) (line : Printed) : MidiHandler :=
  {| available_channels := available_channels self;
     master_channel := master_channel self;
     active_note_channels := active_note_channels self;
     port := port self;
     console := console self ++ [line] |}.

Definition set_channels (self : MidiHandler) (avail : gset Z)
    (active : gmap FingerId Z) : MidiHandler :=
  {| available_channels := avail;
     master_channel := master_channel self;
     active_note_channels := active;
     port := port self;
     console := console self |}.

(** [set.pop()] removes and returns some element of a non-empty set; which
    one is up to the interpreter.  [choice] is the element it would take;
    should that not be in the set, the first element stands in.  On the
    empty set [pop()] raises [KeyError] ([None]). *)
Definition set_pop (choice : Z) (s : gset Z) : option (Z * gset Z) :=
  match elements s with
  | [] => None
  | d :: _ =>
      let c := if decide (choice ∈ s) then choice else d in
      Some (c, s ∖ {[c]})
  end.

Section Sending.
(** The interpreter's choice in [pop()].  It may depend on all that
    happened to the handler: the state keeps every message sent. *)
Variable pick : MidiHandler -> Z.

(** [elif self.available_channels:] holds exactly when [pop()]
    succeeds, so the two are one match.  The message is built after the
    pool has changed; it is taken to be one [mido] accepts (see
    [Mido]). *)
Definition send_note_on (note_midi_value velocity : Z) (finger_id : FingerId)
    (self : MidiHandler) : MidiHandler :=
  if port_not_open self then self
  else
    match active_note_channels self !! finger_id with
    | Some assigned_channel =>
        port_send self (Mido.note_on note_midi_value velocity (assigned_channel - 1))
    | None =>
        match set_pop (pick self) (available_channels self) with
        | Some (assigned_channel, rest) =>
            let self :=
              set_channels self rest
                (<[finger_id := assigned_channel]> (active_note_channels self)) in
            port_send self (Mido.note_on note_midi_value velocity (assigned_channel - 1))
        | None => print self WarnRanOutOfChannels
        end
    end.

Definition send_note_off (note_midi_value : Z) (finger_id : FingerId)
    (self : MidiHandler) : MidiHandler :=
  if port_not_open self then self
  else
    match active_note_channels self !! finger_id with
    | Some assigned_channel =>
        let self :=
          set_channels self ({[assigned_channel]} ∪ available_channels self)
            (delete finger_id (active_note_channels self)) in
        port_send self (Mido.note_off note_midi_value 0 (assigned_channel - 1))
    | None => print self (WarnFingerNotFound finger_id)
    end.

Definition send_pitch_bend (bend_value : Z) (finger_id : FingerId)
    (self : MidiHandler) : MidiHandler :=
  if port_not_open self then self
  else
    match active_note_channels self !! finger_id with
    | Some assigned_channel =>
        port_send self (Mido.pitchwheel bend_value (assigned_channel - 1))
    | None => self
    end.

Definition send_channel_pressure (pressure_value : Z) (finger_id : FingerId)
    (self : MidiHandler) : MidiHandler :=
  if port_not_open self then self
  else
    match active_note_channels self !! finger_id with
    | Some assigned_channel =>
        port_send self (Mido.aftertouch pressure_value (assigned_channel - 1))
    | None => self
    end.

Definition send_control_change (cc_number cc_value : Z) (finger_id : FingerId)
    (self : MidiHandler) : MidiHandler :=
  if port_not_open self then self
  else
    match active_note_channels self !! finger_id with
    | Some assigned_channel =>
        port_send self (Mido.control_change cc_number cc_value (assigned_channel - 1))
    | None => self
    end.

(** A call of one of the two note methods, and a run of such calls. *)
Inductive NoteCall : Type :=
| CallNoteOn (note_midi_value velocity : Z) (finger_id : FingerId)
| CallNoteOff (note_midi_value : Z) (finger_id : FingerId).

Definition call (self : MidiHandler) (c : NoteCall) : MidiHandler :=
  match c with
  | CallNoteOn n v f => send_note_on n v f self
  | CallNoteOff n f => send_note_off n f self
  end.

Definition run (calls : list NoteCall) (self : MidiHandler) : MidiHandler :=
  foldl call self calls.

(** A call of any of the five send methods. *)
Inductive Send : Type :=
| SendNoteOn (note_midi_value velocity : Z) (finger_id : FingerId)
| SendNoteOff (note_midi_value : Z) (finger_id : FingerId)
| SendPitchBend (bend_value : Z) (finger_id : FingerId)
| SendChannelPressure (pressure_value : Z) (finger_id : FingerId)
| SendControlChange (cc_number cc_value : Z) (finger_id : FingerId).

Definition send (self : MidiHandler) (s : Send) : MidiHandler :=
  match s with
  | SendNoteOn n v f => send_note_on n v f self
  | SendNoteOff n f => send_note_off n f self
  | SendPitchBend b f => send_pitch_bend b f self
  | SendChannelPressure p f => send_channel_pressure p f self
  | SendControlChange c v f => send_control_change c v f self
  end.

End Sending.

(** What the port has been given: nothing when there is no port. *)
Definition sent_messages (self : MidiHandler) : list Mido.Message :=
  match port self with
  | Some p => Mido.sent p
  | None => []
  end.

(** A message on one of the member channels [lo .. hi]; on the wire the
    channels count from 0. *)
Definition on_member_channel (lo hi : Z) (msg : Mido.Message) : Prop :=
  lo - 1 <= Mido.channel msg <= hi - 1.

(** [open_port].  [midi_output_port_name] is the setting
    [midi_output_port], [available_ports] is [mido.get_output_names()],
    and [open_output name] is what [mido.open_output(name)] returns, [None]
    when it returns no port; [open_output None] is the call without a
    name.  A call of [mido.open_output] that raises is not embedded (the
    [except] clause meant for it names [mido.MidiIOError]). *)
Definition open_port (midi_output_port_name : option string)
    (available_ports : list string)
    (open_output : option string -> option Mido.OutputPort)
    (self : MidiHandler) : MidiHandler :=
  if negb (port_not_open self) then self
  else
    {| available_channels := available_channels self;
       master_channel := master_channel self;
       active_note_channels := active_note_channels self;
       port :=
         match midi_output_port_name with
         | None | Some EmptyString => open_output None
         | Some midi_output_port_name =>
             if bool_decide (midi_output_port_name ∈ available_ports)
             then open_output (Some midi_output_port_name)
             else None
         end;
       console := console self |}.

(** [close_port] *)
Definition close_port (self : MidiHandler) : MidiHandler :=
  {| available_channels :=
       available_channels self ∪ map_img (active_note_channels self);
     master_channel := master_channel self;
     active_note_channels := ∅;
     port := match port self with
             | Some p => if Mido.closed p then Some p else None
             | None => None
             end;
     console := console self |}.

(** The pool invariant: a channel is free or held, never both; nothing is
    lost; no channel is held twice. *)
Definition held (self : MidiHandler) : gset Z := map_img (active_note_channels self).

Definition one_finger_per_channel (self : MidiHandler) : Prop :=
  forall f1 f2 c,
    active_note_channels self !! f1 = Some c ->
    active_note_channels self !! f2 = Some c -> f1 = f2.

Definition pool_invariant (lo hi : Z) (self : MidiHandler) : Prop :=
  available_channels self ## held self
  /\ (forall c, c ∈ available_channels self ∪ held self <-> lo <= c <= hi)
  /\ one_finger_per_channel self.

(** Every channel of the handler, free or held, is one of the 16 MIDI
    channels: the messages it builds carry a channel [mido] accepts. *)
Definition channels_on_wire (self : MidiHandler) : Prop :=
  forall c, c ∈ available_channels self ∪ held self -> 1 <= c <= 16.

End Midi.

(** ** audio_output/audio_engine.py

    The engine forwards each command to the MIDI handler and to the
    synthesiser, when it has them.  The synthesiser (pygame) is a black box:
    a state and the three methods the engine calls on it. *)

(** The commands of the engine, as the interaction manager issues them. *)
Inductive AudioCall : Type :=
| NoteOn (note_midi_value velocity : Z) (finger_id : FingerId)
| NoteOff (note_midi_value : Z) (finger_id : FingerId)
| PitchBend (bend_value : Z) (finger_id : FingerId)
| IntensityUpdate (pressure_value : Z) (finger_id : FingerId) (note_midi_value : Z).

Module Audio.

Record SynthOps (S : Type) := mkSynthOps {
  play_note : Z -> Z -> FingerId -> S -> S;
  stop_note : Z -> FingerId -> S -> S;
  update_note_intensity : Z -> Z -> FingerId -> S -> S
}.
Arguments play_note {S}.
Arguments stop_note {S}.
Arguments update_note_intensity {S}.

Record AudioEngine (S : Type) := mkAudioEngine {
  midi_handler : option MidiHandler;
  synth_handler : option S
}.
Arguments mkAudioEngine {S}.
Arguments midi_handler {S}.
Arguments synth_handler {S}.

Section Engine.
Context {S : Type}.
Variable synth : SynthOps S.
Variable pick : MidiHandler -> Z.

Definition note_on (note_midi_value velocity : Z) (finger_id : FingerId)
    (self : AudioEngine S) : AudioEngine S :=
  {| midi_handler :=
       Midi.send_note_on pick note_midi_value velocity finger_id <$> midi_handler self;
     synth_handler :=
       play_note synth note_midi_value velocity finger_id <$> synth_handler self |}.

Definition note_off (note_midi_value : Z) (finger_id : FingerId)
    (self : AudioEngine S) : AudioEngine S :=
  {| midi_handler :=
       Midi.send_note_off note_midi_value finger_id <$> midi_handler self;
     synth_handler :=
       stop_note synth note_midi_value finger_id <$> synth_handler self |}.

Definition pitch_bend (bend_value : Z) (finger_id : FingerId)
    (self : AudioEngine S) : AudioEngine S :=
  {| midi_handler :=
       Midi.send_pitch_bend bend_value finger_id <$> midi_handler self;
     synth_handler := synth_handler self |}.

(** [note_midi_value] is always given by the interaction manager, so the
    branch for [None] is not part of this embedding. *)
Definition intensity_update (pressure_value : Z) (finger_id : FingerId)
    (note_midi_value : Z) (self : AudioEngine S) : AudioEngine S :=
  {| midi_handler :=
       Midi.send_channel_pressure pressure_value finger_id <$> midi_handler self;
     synth_handler :=
       update_note_intensity synth note_midi_value pressure_value finger_id
         <$> synth_handler self |}.

(** The part of a command that reaches the MIDI handler. *)
Definition midi_dispatch (mh : MidiHandler) (c : AudioCall) : MidiHandler :=
  match c with
  | NoteOn n v f => Midi.send_note_on pick n v f mh
  | NoteOff n f => Midi.send_note_off n f mh
  | PitchBend b f => Midi.send_pitch_bend b f mh
  | IntensityUpdate p f _ => Midi.send_channel_pressure p f mh
  end.

Definition dispatch (self : AudioEngine S) (c : AudioCall) : AudioEngine S :=
  match c with
  | NoteOn n v f => note_on n v f self
  | NoteOff n f => note_off n f self
  | PitchBend b f => pitch_bend b f self
  | IntensityUpdate p f n => intensity_update p f n self
  end.

(** [shutdown]; [close] is the synthesiser's own [close]. *)
Definition shutdown (close : S -> S) (self : AudioEngine S) : AudioEngine S :=
  {| midi_handler := Midi.close_port <$> midi_handler self;
     synth_handler := close <$> synth_handler self |}.

End Engine.

End Audio.

(** ** note_mapping/interaction_logic.py *)

(** One entry of [hands_data]. *)
Record Hand := mkHand {
  handedness : string;
  finger_states : gmap string string;
  landmarks : list (Z * Z * Z * Q)
}.

(** A [NoteZone] object is named by its place in the store. *)
Definition ZoneRef : Type := nat.

(** One value of [active_notes]. *)
Record NoteData := mkNoteData {
  zone : ZoneRef;
  initial_y : Z;
  midi_note : Z
}.

(** What [process_hands_data] reads and writes: the manager's table, the
    zone objects, the audio engine, and the commands issued so far. *)
Record World (S : Type) := mkWorld {
  active_notes : list (FingerId * NoteData);
  zone_store : ZoneRef -> NoteZone;
  audio_engine : Audio.AudioEngine S;
  issued : list AudioCall
}.
Arguments mkWorld {S}.
Arguments active_notes {S}.
Arguments zone_store {S}.
Arguments audio_engine {S}.
Arguments issued {S}.

Module Interaction.

Definition FINGER_TIP_LANDMARKS : list (string * Z) :=
  [("THUMB", 4); ("INDEX", 8); ("MIDDLE", 12); ("RING", 16); ("PINKY", 20)]%string.

(** [LANDMARK_ID_TO_FINGER_NAME.get(id)] *)
Definition LANDMARK_ID_TO_FINGER_NAME (id : Z) : option string :=
  fst <$> List.find (fun kv => snd kv =? id) FINGER_TIP_LANDMARKS.

(** [target_fingers] when [use_all_fingers] is set. *)
Definition all_finger_tips : gset Z := list_to_set (map snd FINGER_TIP_LANDMARKS).

(** [FINGER_TIP_LANDMARKS.get(name)] *)
Definition finger_tip_landmark (finger_name : string) : option Z :=
  snd <$> List.find (fun kv => bool_decide (fst kv = finger_name)) FINGER_TIP_LANDMARKS.

(** [self.target_fingers] as [__init__] leaves it, from the settings
    [use_all_fingers] and [allowed_fingers]. *)
Definition init_target_fingers (use_all_fingers : bool)
    (allowed_finger_names : list string) : gset Z :=
  if negb use_all_fingers then
    let target_fingers :=
      foldl (fun target_fingers name =>
               match finger_tip_landmark (PyStr.upper name) with
               | Some id => {[id]} ∪ target_fingers
               | None => target_fingers
               end)
            (∅ : gset Z) allowed_finger_names in
    if bool_decide (target_fingers = ∅) then {[8]} ∪ target_fingers
    else target_fingers
  else all_finger_tips.

Definition _get_finger_tip_coordinate (hand_landmarks : list (Z * Z * Z * Q))
    (finger_tip_id : Z) : option (Z * Z * Q) :=
  if finger_tip_id <? Z.of_nat (length hand_landmarks) then
    match List.find (fun lm => let '(lm_id, _, _, _) := lm in lm_id =? finger_tip_id)
                    hand_landmarks with
    | Some (_, x, y, z) => Some (x, y, z)
    | None => None
    end
  else None.

Definition extended (hand : Hand) (finger_name : string) : bool :=
  bool_decide (finger_states hand !! finger_name = Some "extended"%string).

(** Python dict operations on the association list. *)
Definition dict_get {V} (d : list (FingerId * V)) (k : FingerId) : option V :=
  snd <$> List.find (fun kv => bool_decide (fst kv = k)) d.

Definition dict_in {V} (d : list (FingerId * V)) (k : FingerId) : bool :=
  bool_decide (is_Some (dict_get d k)).

Fixpoint dict_set {V} (d : list (FingerId * V)) (k : FingerId) (v : V)
    : list (FingerId * V) :=
  match d with
  | [] => [(k, v)]
  | (k', v') :: rest =>
      if bool_decide (k' = k) then (k, v) :: rest else (k', v') :: dict_set rest k v
  end.

(** *** Reading a frame

    The hand pass 1 looks at for a finger identifier: the first one whose
    handedness is the identifier's hand id. *)
Definition matching_hand (finger_identifier : FingerId) (hands_data : list Hand)
    : option Hand :=
  List.find (fun hand => bool_decide (handedness hand = fst finger_identifier)) hands_data.

(** Where the fingertip of a sounding note is, when the note goes on
    sounding: its hand is there, the finger is extended, the landmark is
    there, and the point is inside the zone of the note. *)
Definition sustained (store : ZoneRef -> NoteZone) (hands_data : list Hand)
    (finger_identifier : FingerId) (note_data : NoteData) : option (Z * Z) :=
  match matching_hand finger_identifier hands_data with
  | None => None
  | Some hand =>
      match LANDMARK_ID_TO_FINGER_NAME (snd finger_identifier) with
      | None => None
      | Some finger_name =>
          if extended hand finger_name then
            match _get_finger_tip_coordinate (landmarks hand) (snd finger_identifier) with
            | None => None
            | Some (x, y, _) =>
                if Zone.is_point_inside (store (zone note_data)) x y
                then Some (x, y) else None
            end
          else None
      end
  end.

(** The four ways a sounding note ends. *)
Definition release_condition (store : ZoneRef -> NoteZone) (hands_data : list Hand)
    (finger_identifier : FingerId) (note_data : NoteData) : Prop :=
  matching_hand finger_identifier hands_data = None
  \/ exists hand,
       matching_hand finger_identifier hands_data = Some hand
       /\ ((forall finger_name,
              LANDMARK_ID_TO_FINGER_NAME (snd finger_identifier) = Some finger_name ->
              extended hand finger_name = false)
           \/ _get_finger_tip_coordinate (landmarks hand) (snd finger_identifier) = None
           \/ exists x y d,
                _get_finger_tip_coordinate (landmarks hand) (snd finger_identifier)
                  = Some (x, y, d)
                /\ Zone.is_point_inside (store (zone note_data)) x y = false).

(** The commands pass 1 issues for one entry of [active_notes]. *)
Definition calls_of (store : ZoneRef -> NoteZone) (hands_data : list Hand)
    (item : FingerId * NoteData) : list AudioCall :=
  match sustained store hands_data (fst item) (snd item) with
  | Some (x, y) =>
      [PitchBend
         (PitchBendProcessor.calculate_pitch_bend (inject_Z x)
            (rect (store (zone (snd item))))) (fst item);
       IntensityUpdate
         (VelocityIntensityProcessor.calculate_continuous_intensity (inject_Z y)
            (rect (store (zone (snd item))))) (fst item) (midi_note (snd item))]
  | None => [NoteOff (midi_note (snd item)) (fst item)]
  end.

Definition is_sustained (store : ZoneRef -> NoteZone) (hands_data : list Hand)
    (item : FingerId * NoteData) : bool :=
  match sustained store hands_data (fst item) (snd item) with
  | Some _ => true
  | None => false
  end.

(** The zone pass 2 considers for a fingertip: the first one, in the order
    of [zones], that contains it. *)
Definition candidate_zone (store : ZoneRef -> NoteZone) (zones : list ZoneRef)
    (x y : Z) : option ZoneRef :=
  List.find (fun r => Zone.is_point_inside (store r) x y) zones.

Definition enumerate {A} (l : list A) : list (nat * A) := imap (fun i x => (i, x)) l.

(** [hand_id], with the fallback for a hand of unknown handedness. *)
Definition hand_id_of (hand_idx : nat) (hand : Hand) : string :=
  if bool_decide (handedness hand = "Unknown"%string)
  then ("hand_" +:+ pretty hand_idx)%string
  else handedness hand.

(** The points at which a frame shows the fingertip [finger_identifier] to
    pass 2: one for every hand that yields this identifier with the finger
    among the target fingers, extended, and its landmark present. *)
Definition shown_at (target_fingers : gset Z) (hands_data : list Hand)
    (finger_identifier : FingerId) : list (Z * Z) :=
  flat_map
    (fun ih : nat * Hand =>
       flat_map
         (fun entry : string * Z =>
            if bool_decide ((hand_id_of (fst ih) (snd ih), snd entry) = finger_identifier)
               && bool_decide (snd entry ∈ target_fingers)
               && extended (snd ih) (fst entry)
            then
              match _get_finger_tip_coordinate (landmarks (snd ih)) (snd entry) with
              | Some (x, y, _) => [(x, y)]
              | None => []
              end
            else [])
         FINGER_TIP_LANDMARKS)
    (enumerate hands_data).

(** The finger a command is about. *)
Definition finger_of (c : AudioCall) : FingerId :=
  match c with
  | NoteOn _ _ f | NoteOff _ f | PitchBend _ f | IntensityUpdate _ f _ => f
  end.

Definition about (f : FingerId) (c : AudioCall) : bool := bool_decide (finger_of c = f).

Definition is_note_on (c : AudioCall) : bool :=
  match c with NoteOn _ _ _ => true | _ => false end.

Definition is_note_off (c : AudioCall) : bool :=
  match c with NoteOff _ _ => true | _ => false end.

Definition only_modulates (c : AudioCall) : bool :=
  match c with
  | PitchBend _ _ | IntensityUpdate _ _ _ => true
  | _ => false
  end.

(** The values of a command are MIDI values: a velocity or a pressure in
    [0, 127], a bend in [-8191, 8191]. *)
Definition in_midi_range (c : AudioCall) : bool :=
  match c with
  | NoteOn _ velocity _ => (0 <=? velocity) && (velocity <=? 127)
  | NoteOff _ _ => true
  | PitchBend bend_value _ => (-8191 <=? bend_value) && (bend_value <=? 8191)
  | IntensityUpdate pressure_value _ _ => (0 <=? pressure_value) && (pressure_value <=? 127)
  end.

(** The note of a command is a MIDI note.  With [in_midi_range] this is
    all the data of the messages the handler builds for a command. *)
Definition note_in_range (c : AudioCall) : bool :=
  match c with
  | NoteOn note_midi_value _ _ | NoteOff note_midi_value _ =>
      Mido.data_byte note_midi_value
  | _ => true
  end.

(** Two stores with the same geometry. *)
Definition same_rects (s1 s2 : ZoneRef -> NoteZone) : Prop :=
  forall r, rect (s1 r) = rect (s2 r).

(** Some entry of [items] whose note ends holds zone [r]. *)
Definition releases_zone (store : ZoneRef -> NoteZone) (hands : list Hand)
    (items : list (FingerId * NoteData)) (r : ZoneRef) : bool :=
  existsb (fun item => negb (is_sustained store hands item)
                       && bool_decide (zone (snd item) = r)) items.

Section Frame.
Context {S : Type}.
Variable synth : Audio.SynthOps S.
Variable pick : MidiHandler -> Z.
Variable target_fingers : gset Z.

(** A call [self.audio_engine.m(...)]. *)
Definition emit (c : AudioCall) (w : World S) : World S :=
  {| active_notes := active_notes w;
     zone_store := zone_store w;
     audio_engine := Audio.dispatch synth pick (audio_engine w) c;
     issued := issued w ++ [c] |}.

Definition set_zone (r : ZoneRef) (z : NoteZone) (w : World S) : World S :=
  {| active_notes := active_notes w;
     zone_store := <[r := z]> (zone_store w);
     audio_engine := audio_engine w;
     issued := issued w |}.

Definition set_active_notes (d : list (FingerId * NoteData)) (w : World S) : World S :=
  {| active_notes := d;
     zone_store := zone_store w;
     audio_engine := audio_engine w;
     issued := issued w |}.

Definition emits (cs : list AudioCall) (w : World S) : World S :=
  foldl (fun w c => emit c w) w cs.

(** *** Pass 1: the notes that are sounding *)

(** The loop [for hand in hands_data] of pass 1, for one entry of
    [active_notes].  The result is [found_finger_in_current_frame],
    [finger_still_valid_for_note], and the world and
    [processed_finger_identifiers] as the loop leaves them. *)
Fixpoint scan_hands (finger_identifier : FingerId) (note_data : NoteData)
    (hands_data : list Hand) (w : World S) (processed : gset FingerId)
    : bool * bool * World S * gset FingerId :=
  match hands_data with
  | [] => (false, false, w, processed)
  | hand :: rest =>
      let '(hand_id_of_active_note, finger_tip_id_of_active_note) := finger_identifier in
      let note_zone := zone_store w (zone note_data) in
      if bool_decide (handedness hand = hand_id_of_active_note) then
        match LANDMARK_ID_TO_FINGER_NAME finger_tip_id_of_active_note with
        | None => (true, false, w, processed)
        | Some finger_name =>
            if negb (extended hand finger_name) then (true, false, w, processed)
            else
              match _get_finger_tip_coordinate (landmarks hand)
                      finger_tip_id_of_active_note with
              | None => (true, false, w, processed)
              | Some (finger_x, finger_y, _) =>
                  if negb (Zone.is_point_inside note_zone finger_x finger_y)
                  then (true, false, w, processed)
                  else
                    let bend_value :=
                      PitchBendProcessor.calculate_pitch_bend
                        (inject_Z finger_x) (rect note_zone) in
                    let w := emit (PitchBend bend_value finger_identifier) w in
                    let intensity_value :=
                      VelocityIntensityProcessor.calculate_continuous_intensity
                        (inject_Z finger_y) (rect note_zone) in
                    let w :=
                      emit (IntensityUpdate intensity_value finger_identifier
                              (midi_note note_data)) w in
                    (true, true, w, {[finger_identifier]} ∪ processed)
              end
        end
      else scan_hands finger_identifier note_data rest w processed
  end.

(** The body of [for finger_identifier, note_data in
    list(self.active_notes.items())]. *)
Definition sustain_or_release (hands_data : list Hand)
    (acc : World S * gset FingerId * gset FingerId)
    (item : FingerId * NoteData) : World S * gset FingerId * gset FingerId :=
  let '(w, processed, notes_to_remove) := acc in
  let '(finger_identifier, note_data) := item in
  let '(found_finger_in_current_frame, finger_still_valid_for_note, w, processed) :=
    scan_hands finger_identifier note_data hands_data w processed in
  if negb found_finger_in_current_frame || negb finger_still_valid_for_note then
    let w := emit (NoteOff (midi_note note_data) finger_identifier) w in
    let w :=
      set_zone (zone note_data)
               (Zone.deactivate (zone_store w (zone note_data))) w in
    (w, processed, {[finger_identifier]} ∪ notes_to_remove)
  else (w, processed, notes_to_remove).

(** [for fid in notes_to_remove: if fid in self.active_notes: del ...] *)
Definition remove_notes (notes_to_remove : gset FingerId) (w : World S) : World S :=
  set_active_notes
    (List.filter (fun kv => negb (bool_decide (fst kv ∈ notes_to_remove)))
                 (active_notes w)) w.

(** Pass 1 and the clean-up after it: the world, and
    [processed_finger_identifiers], where pass 2 starts. *)
Definition release_pass (hands_data : list Hand) (w : World S)
    : World S * gset FingerId :=
  let '(w, processed, notes_to_remove) :=
    foldl (sustain_or_release hands_data) (w, ∅, ∅) (active_notes w) in
  (remove_notes notes_to_remove w, processed).

(** *** Pass 2: new notes *)

(** The loop [for zone in zones]. *)
Fixpoint try_zones (finger_identifier : FingerId) (finger_tip_x finger_tip_y : Z)
    (zones : list ZoneRef) (acc : World S * gset FingerId)
    : World S * gset FingerId :=
  match zones with
  | [] => acc
  | r :: rest =>
      let '(w, processed) := acc in
      let zone := zone_store w r in
      if Zone.is_point_inside zone finger_tip_x finger_tip_y then
        if negb (is_active zone) then
          let velocity :=
            VelocityIntensityProcessor.calculate_initial_velocity
              (inject_Z finger_tip_y) (rect zone) in
          let w := emit (NoteOn (note_midi_value zone) velocity finger_identifier) w in
          let w := set_zone r (Zone.activate zone finger_identifier) w in
          let w :=
            set_active_notes
              (dict_set (active_notes w) finger_identifier
                 {| zone := r; initial_y := finger_tip_y;
                    midi_note := note_midi_value zone |}) w in
          (w, {[finger_identifier]} ∪ processed)
        else acc
      else try_zones finger_identifier finger_tip_x finger_tip_y rest acc
  end.

(** What the [New Note On] branch does with zone [r]. *)
Definition claim_step (finger_identifier : FingerId) (finger_tip_y : Z) (r : ZoneRef)
    (acc : World S * gset FingerId) : World S * gset FingerId :=
  let '(w, processed) := acc in
  let zone := zone_store w r in
  let velocity :=
    VelocityIntensityProcessor.calculate_initial_velocity
      (inject_Z finger_tip_y) (rect zone) in
  let w := emit (NoteOn (note_midi_value zone) velocity finger_identifier) w in
  let w := set_zone r (Zone.activate zone finger_identifier) w in
  let w :=
    set_active_notes
      (dict_set (active_notes w) finger_identifier
         {| zone := r; initial_y := finger_tip_y;
            midi_note := note_midi_value zone |}) w in
  (w, {[finger_identifier]} ∪ processed).

(** The body of [for finger_name, finger_tip_landmark_id in
    FINGER_TIP_LANDMARKS.items()]. *)
Definition try_finger (zones : list ZoneRef) (hand_id : string) (hand : Hand)
    (acc : World S * gset FingerId) (entry : string * Z)
    : World S * gset FingerId :=
  let '(w, processed) := acc in
  let '(finger_name, finger_tip_landmark_id) := entry in
  if negb (bool_decide (finger_tip_landmark_id ∈ target_fingers)) then acc
  else
    let finger_identifier := (hand_id, finger_tip_landmark_id) in
    if bool_decide (finger_identifier ∈ processed) then acc
    else if dict_in (active_notes w) finger_identifier then acc
    else if extended hand finger_name then
      match _get_finger_tip_coordinate (landmarks hand) finger_tip_landmark_id with
      | None => acc
      | Some (finger_tip_x, finger_tip_y, _) =>
          try_zones finger_identifier finger_tip_x finger_tip_y zones acc
      end
    else acc.

(** The body of [for hand_idx, hand in enumerate(hands_data)]. *)
Definition try_hand (zones : list ZoneRef) (acc : World S * gset FingerId)
    (ih : nat * Hand) : World S * gset FingerId :=
  let '(hand_idx, hand) := ih in
  foldl (try_finger zones (hand_id_of hand_idx hand) hand) acc FINGER_TIP_LANDMARKS.

Definition claim_pass (hands_data : list Hand) (zones : list ZoneRef)
    (acc : World S * gset FingerId) : World S * gset FingerId :=
  foldl (try_hand zones) acc (enumerate hands_data).

Definition process_hands_data (hands_data : list Hand) (zones : list ZoneRef)
    (w : World S) : World S :=
  fst (claim_pass hands_data zones (release_pass hands_data w)).

(** [cleanup_stale_notes] *)
Definition cleanup_stale_notes (w : World S) : World S :=
  if bool_decide (active_notes w = []) then w
  else
    set_active_notes []
      (foldl (fun w item =>
                let w := emit (NoteOff (midi_note (snd item)) (fst item)) w in
                set_zone (zone (snd item))
                         (Zone.deactivate (zone_store w (zone (snd item)))) w)
             w (active_notes w)).

(** Pass 2 as a sequence of claims: each one is made by a fingertip the
    frame shows, not yet processed and not bound, on its candidate zone,
    which is not active. *)
Inductive claim_reach (hands_data : list Hand) (zones : list ZoneRef)
    (a : World S * gset FingerId) : World S * gset FingerId -> Prop :=
| reach_refl : claim_reach hands_data zones a a
| reach_step b f x y r :
    claim_reach hands_data zones a b ->
    f ∉ snd b ->
    dict_in (active_notes (fst b)) f = false ->
    In (x, y) (shown_at target_fingers hands_data f) ->
    candidate_zone (zone_store (fst b)) zones x y = Some r ->
    is_active (zone_store (fst b) r) = false ->
    claim_reach hands_data zones a (claim_step f y r b).

(** A fingertip that pass 2 cannot give a note: it is already processed,
    or bound, or every zone it is a candidate for is active. *)
Definition blocked (hands_data : list Hand) (zones : list ZoneRef)
    (a : World S * gset FingerId) (g : FingerId) : Prop :=
  g ∈ snd a
  \/ dict_in (active_notes (fst a)) g = true
  \/ forall x y r,
       In (x, y) (shown_at target_fingers hands_data g) ->
       candidate_zone (zone_store (fst a)) zones x y = Some r ->
       is_active (zone_store (fst a) r) = true.

(** The table and the zones agree: no finger is bound twice, the zone of
    every entry is active, owned by the finger of the entry and sounds
    the note of the entry, and every active zone is the zone of an
    entry. *)
Definition consistent (w : World S) : Prop :=
  NoDup (map fst (active_notes w))
  /\ (forall f nd, In (f, nd) (active_notes w) ->
        is_active (zone_store w (zone nd)) = true
        /\ active_finger_id (zone_store w (zone nd)) = Some f
        /\ midi_note nd = note_midi_value (zone_store w (zone nd)))
  /\ (forall r, is_active (zone_store w r) = true ->
        exists f nd, In (f, nd) (active_notes w) /\ zone nd = r).

(** The notes and channels of [w] are such that [mido] accepts every
    message a frame can build: every zone and every entry of the table
    carries a MIDI note (0 to 127), and the channels of the handler are
    MIDI channels. *)
Definition mido_accepts (w : World S) : Prop :=
  (forall r, 0 <= note_midi_value (zone_store w r) <= 127)
  /\ (forall f nd, In (f, nd) (active_notes w) -> 0 <= midi_note nd <= 127)
  /\ (forall mh, Audio.midi_handler (audio_engine w) = Some mh ->
                 Midi.channels_on_wire mh).

(** "Release completeness" read of the state [process_hands_data]
    returns: for the binding of [f] (entry [nd], channel [c]), the frame
    issues exactly one note-off about [f], the one of the note, and at
    the end of the frame the zone is free, [c] is back in the pool and
    [f] has no entry. *)
Definition released_at_frame_end (hands_data : list Hand) (zones : list ZoneRef)
    (w : World S) (f : FingerId) (nd : NoteData) (c : Z) : Prop :=
  let w2 := process_hands_data hands_data zones w in
  (exists new,
     issued w2 = issued w ++ new
     /\ List.filter (fun k => is_note_off k && about f k) new
        = [NoteOff (midi_note nd) f])
  /\ is_active (zone_store w2 (zone nd)) = false
  /\ active_finger_id (zone_store w2 (zone nd)) = None
  /\ dict_get (active_notes w2) f = None
  /\ exists mh2,
       Audio.midi_handler (audio_engine w2) = Some mh2
       /\ c ∈ available_channels mh2
       /\ active_note_channels mh2 !! f = None.

(** Frame after frame. *)
Definition run_frames (frames : list (list Hand * list ZoneRef)) (w : World S)
    : World S :=
  foldl (fun w fr => process_hands_data (fst fr) (snd fr) w) w frames.

End Frame.

End Interaction.

(** ** Sample data

    Two zones side by side, a handler with the pool [{2, 3}], one hand with
    all 21 landmarks. *)

Module Sample.

Definition port0 : Mido.OutputPort := Mido.mkPort "loop" false [].

(** The interpreter that pops the smallest channel. *)
Definition lowest (self : MidiHandler) : Z :=
  let l := elements (available_channels self) in
  foldr Z.min (default 0 (head l)) l.

Definition no_synth : Audio.SynthOps unit :=
  Audio.mkSynthOps unit (fun _ _ _ s => s) (fun _ _ s => s) (fun _ _ _ s => s).

Definition zoneA : NoteZone := Zone.init 0 0 100 100 "C4" 60 None.
Definition zoneB : NoteZone := Zone.init 100 0 100 100 "D4" 62 None.

Definition right_index : FingerId := ("Right"%string, 8).
Definition right_middle : FingerId := ("Right"%string, 12).
Definition slot0_index : FingerId := ("hand_0"%string, 8).

Definition store0 : ZoneRef -> NoteZone :=
  fun r => match r with O => zoneA | _ => zoneB end.

(** [zoneA] claimed by the right index finger. *)
Definition store1 : ZoneRef -> NoteZone :=
  fun r => match r with O => Zone.activate zoneA right_index | _ => zoneB end.

Definition handler0 : MidiHandler := Midi.init (Some [2; 3]) (Some port0).
Definition handler1 : MidiHandler := Midi.send_note_on lowest 60 64 right_index handler0.
Definition handler2 : MidiHandler := Midi.send_note_on lowest 62 64 right_middle handler1.
Definition handler_closed : MidiHandler := Midi.close_port handler1.

Definition note0 : NoteData := {| zone := 0%nat; initial_y := 50; midi_note := 60 |}.

Definition world0 : World unit :=
  mkWorld [] store0 (Audio.mkAudioEngine (Some handler0) None) [].

(** The right index finger sounds C4 in [zoneA] on channel 2. *)
Definition world1 : World unit :=
  mkWorld [(right_index, note0)] store1 (Audio.mkAudioEngine (Some handler1) None)
          [NoteOn 60 64 right_index].

Definition all_landmarks (tips : list (Z * (Z * Z))) : list (Z * Z * Z * Q) :=
  map (fun i =>
         let i := Z.of_nat i in
         match List.find (fun t => fst t =? i) tips with
         | Some (_, (x, y)) => (i, x, y, 0%Q)
         | None => (i, -1, -1, 0%Q)
         end)
      (seq 0 21).

Definition hand (handedness : string) (up : list string) (tips : list (Z * (Z * Z)))
    : Hand :=
  mkHand handedness
         (list_to_map (map (fun n => (n, "extended"%string)) up))
         (all_landmarks tips).

Definition zones01 : list ZoneRef := [0%nat; 1%nat].

(** The index finger slides into [zoneB]. *)
Definition frame_slide : list Hand := [hand "Right" ["INDEX"%string] [(8, (150, 50))]].

(** The index finger slides into [zoneB] while the middle finger enters
    [zoneA]. *)
Definition frame_swap : list Hand :=
  [hand "Right" ["INDEX"; "MIDDLE"]%string [(8, (150, 50)); (12, (50, 50))]].

(** The index finger stays, the middle finger joins it in [zoneA]. *)
Definition frame_join : list Hand :=
  [hand "Right" ["INDEX"; "MIDDLE"]%string [(8, (50, 50)); (12, (60, 60))]].

(** A hand of unknown handedness, index finger in [zoneA]. *)
Definition frame_unknown : list Hand := [hand "Unknown" ["INDEX"%string] [(8, (50, 50))]].

Definition three_notes : list (string * Z) := [("C4", 60); ("C#4", 61); ("D4", 62)]%string.

(** The notes of the default configuration: two octaves from C4. *)
Definition default_notes : list (string * Z) :=
  LayoutGenerator._generate_chromatic_notes 60 24.

(** A hand reported with one landmark only, the index fingertip, in
    [zoneA]. *)
Definition frame_one_landmark : list Hand :=
  [mkHand "Right" (list_to_map [("INDEX", "extended")]%string) [(8, 50, 50, 0%Q)]].

(** An engine with the handler of [world1] and no synthesiser. *)
Definition engine1 : Audio.AudioEngine unit := Audio.mkAudioEngine (Some handler1) None.

Definition bend_rect : Rect := (100, 0, 200, 100).
Definition velocity_rect : Rect := (50, 100, 100, 200).

Definition step := Interaction.process_hands_data no_synth lowest Interaction.all_finger_tips.

End Sample.
(** * Properties *)

(** ** Python arithmetic *)

Section PyFacts.
Local Open Scope Q_scope.

Lemma py_min_lt a b : b < a -> Py.min a b = b.
Proof.
  intros H. unfold Py.min. destruct (Qcompare_spec b a) as [E|E|E]; try reflexivity;
    exfalso; lra.
Qed.

Lemma py_min_ge a b : a <= b -> Py.min a b = a.
Proof.
  intros H. unfold Py.min. destruct (Qcompare_spec b a) as [E|E|E]; try reflexivity.
  exfalso. lra.
Qed.

Lemma py_max_gt a b : a < b -> Py.max a b = b.
Proof.
  intros H. unfold Py.max. destruct (Qcompare_spec b a) as [E|E|E]; try reflexivity;
    exfalso; lra.
Qed.

Lemma py_max_le a b : b <= a -> Py.max a b = a.
Proof.
  intros H. unfold Py.max. destruct (Qcompare_spec b a) as [E|E|E]; try reflexivity.
  exfalso. lra.
Qed.

Lemma py_min_cases a b : (b < a /\ Py.min a b = b) \/ (a <= b /\ Py.min a b = a).
Proof.
  destruct (Qlt_le_dec b a) as [H|H]; [left|right]; split; auto using py_min_lt, py_min_ge.
Qed.

Lemma py_max_cases a b : (a < b /\ Py.max a b = b) \/ (b <= a /\ Py.max a b = a).
Proof.
  destruct (Qlt_le_dec a b) as [H|H]; [left|right]; split; auto using py_max_gt, py_max_le.
Qed.

Lemma unit_clamp_range r : 0 <= unit_clamp r <= 1.
Proof.
  unfold unit_clamp.
  destruct (py_min_cases 1 r) as [[? ->]|[? ->]];
    destruct (py_max_cases 0 r) as [[? E]|[? E]];
    destruct (py_max_cases 0 1) as [[? E1]|[? E1]];
    rewrite ?E, ?E1; lra.
Qed.

Lemma unit_clamp_mono r1 r2 : r1 <= r2 -> unit_clamp r1 <= unit_clamp r2.
Proof.
  intros H. unfold unit_clamp.
  destruct (py_min_cases 1 r1) as [[? ->]|[? ->]];
    destruct (py_min_cases 1 r2) as [[? ->]|[? ->]];
    repeat match goal with
           | |- context [Py.max 0 ?x] =>
               let E := fresh in
               destruct (py_max_cases 0 x) as [[? E]|[? E]]; rewrite E; clear E
           end; lra.
Qed.

Lemma round_floor_bounds x : (Qfloor x <= Py.round x <= Qfloor x + 1)%Z.
Proof.
  unfold Py.round.
  destruct (x - inject_Z (Qfloor x) ?= 1 # 2); [destruct (Z.even (Qfloor x))| |]; lia.
Qed.

Lemma round_mono x y : x <= y -> (Py.round x <= Py.round y)%Z.
Proof.
  intros H.
  pose proof (Qfloor_resp_le _ _ H) as Hf.
  destruct (Z.eq_dec (Qfloor x) (Qfloor y)) as [E|N].
  - unfold Py.round. rewrite <- E.
    destruct (Qcompare_spec (x - inject_Z (Qfloor x)) (1 # 2)) as [E1|E1|E1];
      destruct (Qcompare_spec (y - inject_Z (Qfloor x)) (1 # 2)) as [E2|E2|E2];
      try destruct (Z.even (Qfloor x)); try lia; exfalso; lra.
  - pose proof (round_floor_bounds x). pose proof (round_floor_bounds y). lia.
Qed.

Lemma round_inject n : Py.round (inject_Z n) = n.
Proof.
  unfold Py.round. rewrite Qfloor_Z.
  destruct (Qcompare_spec (inject_Z n - inject_Z n) (1 # 2)) as [E|E|E];
    try reflexivity; exfalso; lra.
Qed.

Lemma round_range (lo hi : Z) x :
  inject_Z lo <= x <= inject_Z hi -> (lo <= Py.round x <= hi)%Z.
Proof.
  intros [H1 H2]. apply round_mono in H1, H2. rewrite round_inject in H1, H2. lia.
Qed.

Lemma rel_pos_mono (a b c : Q) (w : Z) :
  (0 < w)%Z -> a <= b -> (a - c) / inject_Z w <= (b - c) / inject_Z w.
Proof.
  intros Hw H. unfold Qdiv. apply Qmult_le_compat_r; [lra|].
  apply Qinv_le_0_compat. change 0 with (inject_Z 0). rewrite <- Zle_Qle. lia.
Qed.

End PyFacts.

(** ** The expression processors *)

Section Expression.
Import PitchBendProcessor VelocityIntensityProcessor.
Local Open Scope Q_scope.

Lemma unit_percentage v : (v - 0) / (1 - 0) == v.
Proof. field. Qed.

Lemma bend_map_mono v1 v2 :
  v1 <= v2 ->
  PitchBendProcessor._map_value v1 0 1
    (inject_Z (- midi_bend_max_abs_value)) (inject_Z midi_bend_max_abs_value)
  <= PitchBendProcessor._map_value v2 0 1
       (inject_Z (- midi_bend_max_abs_value)) (inject_Z midi_bend_max_abs_value).
Proof.
  intros H. unfold PitchBendProcessor._map_value.
  change (Qeq_bool 0 1) with false. cbv iota.
  rewrite !unit_percentage.
  change (inject_Z midi_bend_max_abs_value - inject_Z (- midi_bend_max_abs_value))
    with (16382 # 1).
  apply Qplus_le_r. apply Qmult_le_compat_r; [exact H | discriminate].
Qed.

Lemma calculate_pitch_bend_mono (zx zy w h : Z) (x1 x2 : Q) :
  (0 < w)%Z -> x1 <= x2 ->
  (calculate_pitch_bend x1 (zx, zy, w, h) <= calculate_pitch_bend x2 (zx, zy, w, h))%Z.
Proof.
  intros Hw Hx. unfold calculate_pitch_bend.
  destruct (Z.eqb_spec w 0) as [->|_]; [lia|].
  fold (unit_clamp ((x1 - inject_Z zx) / inject_Z w)).
  fold (unit_clamp ((x2 - inject_Z zx) / inject_Z w)).
  pose proof (round_mono _ _
    (bend_map_mono _ _ (unit_clamp_mono _ _ (rel_pos_mono x1 x2 (inject_Z zx) w Hw Hx)))).
  lia.
Qed.

Lemma calculate_pitch_bend_left x :
  x < 100 -> calculate_pitch_bend x Sample.bend_rect = (- 8191)%Z.
Proof.
  intros H. unfold calculate_pitch_bend, Sample.bend_rect.
  change (200 =? 0)%Z with false. cbv iota.
  assert (Hr : (x - inject_Z 100) / inject_Z 200 < 0).
  { unfold Qdiv. change (/ inject_Z 200) with (1 # 200). change (inject_Z 100) with 100. lra. }
  rewrite (py_min_lt 1) by lra.
  rewrite (py_max_le 0) by lra.
  reflexivity.
Qed.

Lemma calculate_pitch_bend_right x :
  300 < x -> calculate_pitch_bend x Sample.bend_rect = 8191%Z.
Proof.
  intros H. unfold calculate_pitch_bend, Sample.bend_rect.
  change (200 =? 0)%Z with false. cbv iota.
  assert (Hr : 1 < (x - inject_Z 100) / inject_Z 200).
  { unfold Qdiv. change (/ inject_Z 200) with (1 # 200). change (inject_Z 100) with 100. lra. }
  rewrite (py_min_ge 1) by lra.
  reflexivity.
Qed.

Lemma velocity_map_range v :
  0 <= v <= 1 ->
  inject_Z 0
  <= VelocityIntensityProcessor._map_value v 0 1 (inject_Z midi_min_value)
       (inject_Z midi_max_value)
  <= inject_Z 127.
Proof.
  intros Hv. unfold VelocityIntensityProcessor._map_value.
  change (Qeq_bool 0 1) with false. cbv iota.
  change (inject_Z midi_min_value ?= inject_Z midi_max_value) with Lt. cbv iota.
  change (inject_Z midi_min_value) with 0. change (inject_Z midi_max_value) with 127.
  change (inject_Z 0) with 0. change (inject_Z 127) with 127.
  set (m := 0 + (v - 0) / (1 - 0) * (127 - 0)).
  destruct (py_min_cases m 127) as [[? ->]|[? ->]];
    match goal with
    | |- context [Py.max 0 ?x] =>
        let E := fresh in
        destruct (py_max_cases 0 x) as [[? E]|[? E]]; rewrite E; clear E
    end; lra.
Qed.

Lemma calculate_pitch_bend_range x r :
  (- 8191 <= calculate_pitch_bend x r <= 8191)%Z.
Proof.
  destruct r as [[[zx zy] w] h]. unfold calculate_pitch_bend.
  destruct (w =? 0)%Z; [lia|]. unfold midi_bend_max_abs_value. lia.
Qed.

Lemma calculate_initial_velocity_range y r :
  (0 <= calculate_initial_velocity y r <= 127)%Z.
Proof.
  destruct r as [[[zx zy] w] h]. unfold calculate_initial_velocity.
  destruct (Z.eqb_spec h 0) as [->|_]; [unfold midi_min_value; lia|].
  apply round_range, velocity_map_range, unit_clamp_range.
Qed.

(** C8.  [calculate_pitch_bend] is monotone non-decreasing in the finger's
    x for every zone of positive width; for the zone rect (100,0,200,100)
    it is -8191 at x=100, 0 at x=200 and 8191 at x=300, and outside
    [100,300] it is the value at the nearest end; for a zone of width zero
    it is 0 whatever x is. *)
Theorem pitch_bend_monotone_endpoints :
  (forall (zx zy w h : Z) (x1 x2 : Q),
      (0 < w)%Z -> x1 <= x2 ->
      (calculate_pitch_bend x1 (zx, zy, w, h) <= calculate_pitch_bend x2 (zx, zy, w, h))%Z)
  /\ calculate_pitch_bend 100 Sample.bend_rect = (- 8191)%Z
  /\ calculate_pitch_bend 200 Sample.bend_rect = 0%Z
  /\ calculate_pitch_bend 300 Sample.bend_rect = 8191%Z
  /\ (forall x, x < 100 -> calculate_pitch_bend x Sample.bend_rect = (- 8191)%Z)
  /\ (forall x, 300 < x -> calculate_pitch_bend x Sample.bend_rect = 8191%Z)
  /\ (forall x (zx zy h : Z), calculate_pitch_bend x (zx, zy, 0%Z, h) = 0%Z).
Proof.
  split; [exact calculate_pitch_bend_mono|].
  split; [reflexivity|]. split; [reflexivity|]. split; [reflexivity|].
  split; [exact calculate_pitch_bend_left|].
  split; [exact calculate_pitch_bend_right|].
  reflexivity.
Qed.

(** C9.  [calculate_initial_velocity] and [calculate_continuous_intensity]
    are the same function: for every finger y and every zone rect they give
    the same integer, which lies in [0,127]; for the zone rect
    (50,100,100,200) it is 0 at y=100, 64 at y=200 and 127 at y=300; for a
    zone of height zero it is 0. *)
Theorem velocity_intensity_agree :
  (forall (y : Q) (r : Rect),
      calculate_initial_velocity y r = calculate_continuous_intensity y r
      /\ (0 <= calculate_initial_velocity y r <= 127)%Z)
  /\ calculate_initial_velocity 100 Sample.velocity_rect = 0%Z
  /\ calculate_initial_velocity 200 Sample.velocity_rect = 64%Z
  /\ calculate_initial_velocity 300 Sample.velocity_rect = 127%Z
  /\ (forall y (zx zy w : Z), calculate_initial_velocity y (zx, zy, w, 0%Z) = 0%Z).
Proof.
  split; [intros y r; split; [reflexivity | apply calculate_initial_velocity_range]|].
  repeat split.
Qed.

End Expression.

Lemma pitch_bend_monotone_endpoints_witness :
  0 < 200 /\ (120 <= 361 # 2)%Q /\ (40 < 100)%Q /\ (300 < 512)%Q
  /\ PitchBendProcessor.calculate_pitch_bend 120 (100, 0, 200, 100)
     <= PitchBendProcessor.calculate_pitch_bend (361 # 2) (100, 0, 200, 100)
  /\ PitchBendProcessor.calculate_pitch_bend 40 Sample.bend_rect = - 8191
  /\ PitchBendProcessor.calculate_pitch_bend 512 Sample.bend_rect = 8191.
Proof.
  assert (H1 : 0 < 200) by lia.
  assert (H2 : (120 <= 361 # 2)%Q) by (unfold Qle; simpl; lia).
  assert (H3 : (40 < 100)%Q) by reflexivity.
  assert (H4 : (300 < 512)%Q) by reflexivity.
  destruct pitch_bend_monotone_endpoints as (Hm & _ & _ & _ & Hl & Hr & _).
  exact (conj H1 (conj H2 (conj H3 (conj H4
          (conj (Hm 100 0 200 100 120%Q (361 # 2)%Q H1 H2)
                (conj (Hl 40%Q H3) (Hr 512%Q H4))))))).
Defined.

(** ** The layout *)

Section Layout.
Import LayoutGenerator.

Lemma half_succ_even n : (n mod 2 = 0 -> (S n + 1) / 2 = S ((n + 1) / 2) /\ S n / 2 = n / 2)%nat.
Proof.
  intros H. pose proof (Nat.div_mod_eq n 2) as E. rewrite H in E. split.
  - symmetry. apply (Nat.div_unique _ _ _ 0%nat); [lia|].
    assert ((n + 1) / 2 = n / 2)%nat as ->; [|lia].
    symmetry. apply (Nat.div_unique _ _ _ 1%nat); lia.
  - symmetry. apply (Nat.div_unique _ _ _ 1%nat); lia.
Qed.

Lemma half_succ_odd n : (n mod 2 = 1 -> (S n + 1) / 2 = (n + 1) / 2 /\ S n / 2 = S (n / 2))%nat.
Proof.
  intros H. pose proof (Nat.div_mod_eq n 2) as E. rewrite H in E.
  assert ((n + 1) / 2 = S (n / 2))%nat as E1.
  { symmetry. apply (Nat.div_unique _ _ _ 0%nat); lia. }
  split.
  - rewrite E1. symmetry. apply (Nat.div_unique _ _ _ 1%nat); lia.
  - symmetry. apply (Nat.div_unique _ _ _ 0%nat); lia.
Qed.

Lemma row_counts_spec n : row_counts n = [((n + 1) / 2)%nat; (n / 2)%nat].
Proof.
  unfold row_counts. induction n as [|n IH].
  - reflexivity.
  - rewrite seq_S, foldl_app, IH. change (0 + n)%nat with n. cbn [foldl].
    pose proof (Nat.mod_upper_bound n 2 ltac:(lia)) as Hlt. unfold num_rows.
    destruct (n mod 2)%nat as [|[|k]] eqn:E; [| |lia].
    + destruct (half_succ_even n E) as [-> ->]. reflexivity.
    + destruct (half_succ_odd n E) as [-> ->]. reflexivity.
Qed.

Lemma halves_sum n : ((n + 1) / 2 + n / 2 = n)%nat.
Proof.
  induction n as [|n IH]; [reflexivity|].
  pose proof (Nat.mod_upper_bound n 2 ltac:(lia)) as Hlt.
  destruct (n mod 2)%nat as [|[|k]] eqn:E; [| |lia].
  - destruct (half_succ_even n E) as [-> ->]. lia.
  - destruct (half_succ_odd n E) as [-> ->]. lia.
Qed.

Section Arranged.
Variable notes_to_display : list (string * Z).
Variables screen_width screen_height padding : Z.
Variable zone_labels : bool.

Let n := length notes_to_display.
Abbreviation placed := (LayoutGenerator.placed notes_to_display screen_height padding).
Abbreviation all_placed :=
  (LayoutGenerator.all_placed notes_to_display screen_height padding).

Lemma fill_row_placed i_row zone_width cols st :
  all_placed st ->
  (snd st + length cols <= n)%nat ->
  (forall i, snd st <= i < snd st + length cols -> row_of n i = i_row)%nat ->
  let st' := fill_row notes_to_display screen_height padding zone_labels
               i_row zone_width cols st in
  all_placed st' /\ snd st' = (snd st + length cols)%nat.
Proof.
  revert st. induction cols as [|i_col cols IH]; intros [zones k] Hst Hlen Hrow.
  - cbn. split; [exact Hst | lia].
  - cbn [fill_row]. cbn [fst snd length] in *.
    fold n. destruct (Nat.leb_spec (num_notes_total notes_to_display) k) as [Hk|Hk];
      [unfold num_notes_total in Hk; fold n in Hk; lia|].
    destruct (notes_to_display !! k) as [[nm mv]|] eqn:Enote.
    2:{ apply lookup_ge_None in Enote. fold n in Enote. lia. }
    match goal with
    | |- context [fill_row _ _ _ _ _ _ _ ?s] =>
        destruct (IH s) as [IH1 IH2]
    end.
    + destruct Hst as [Hl Hz]. cbn [fst snd] in Hl, Hz. split; cbn [fst snd].
      * rewrite length_app. cbn. lia.
      * intros i z Hi. destruct (decide (i < length zones)%nat) as [Hlt|Hge].
        -- rewrite lookup_app_l in Hi by exact Hlt. now apply Hz.
        -- rewrite lookup_app_r in Hi by lia.
           destruct (i - length zones)%nat as [|j] eqn:Ej; [|now destruct j].
           cbn in Hi. injection Hi as <-.
           assert (i = k) as -> by lia.
           split; cbn; [|exact Enote].
           fold n. rewrite (Hrow k) by lia. reflexivity.
    + cbn [fst snd]. lia.
    + cbn [fst snd]. intros i Hi. apply Hrow. lia.
    + split; [exact IH1|]. rewrite IH2. cbn [fst snd]. lia.
Qed.

Lemma fill_rows_placed counts i_row c st :
  counts !! i_row = Some c ->
  all_placed st ->
  (snd st + c <= n)%nat ->
  (forall i, snd st <= i < snd st + c -> row_of n i = i_row)%nat ->
  let st' := fill_rows notes_to_display screen_width screen_height padding zone_labels
               counts st i_row in
  all_placed st' /\ snd st' = (snd st + c)%nat.
Proof.
  intros Hc Hst Hlen Hrow. unfold fill_rows. rewrite Hc.
  destruct (Nat.eqb_spec c 0) as [->|_]; [split; [exact Hst | lia]|].
  pose proof (fill_row_placed i_row
    (inject_Z (zone_area_width screen_width padding) / inject_Z (Z.of_nat c))%Q
    (seq 0 c) st Hst) as H.
  rewrite length_seq in H. exact (H Hlen Hrow).
Qed.

Lemma generate_layout_placed :
  let zones := generate_layout notes_to_display screen_width screen_height padding
                 zone_labels in
  length zones = n /\ forall i z, zones !! i = Some z -> placed i z.
Proof.
  unfold generate_layout, num_notes_total. fold n.
  destruct (Nat.eqb_spec n 0) as [E|E].
  { split; [now rewrite E|]. intros i z Hi. now rewrite lookup_nil in Hi. }
  rewrite row_counts_spec. cbn [seq foldl num_rows].
  pose proof (halves_sum n) as Hsum.
  set (counts := [((n + 1) / 2)%nat; (n / 2)%nat]).
  destruct (fill_rows_placed counts 0%nat ((n + 1) / 2)%nat ([], 0%nat)) as [A1 A2];
    [reflexivity | | cbn [snd]; lia | |].
  { split; [reflexivity|]. intros i z Hi. cbn in Hi. now rewrite lookup_nil in Hi. }
  { intros i Hi. cbn [snd] in Hi. unfold row_of.
    destruct (Nat.ltb_spec i ((n + 1) / 2)); [reflexivity | lia]. }
  cbn [snd] in A2.
  match goal with
  | |- context [fill_rows _ _ _ _ _ _ ?s 1%nat] =>
      destruct (fill_rows_placed counts 1%nat (n / 2)%nat s) as [[B1 B1'] B2];
        [reflexivity | exact A1 | lia | |]
  end.
  { intros i Hi. unfold row_of.
    destruct (Nat.ltb_spec i ((n + 1) / 2)); [lia | reflexivity]. }
  split; [lia | exact B1'].
Qed.

End Arranged.

(** C7 (amended).  The layout has one zone per note, in the order of the
    notes, and fills the rows one after the other: note [i] of [n] is in row
    0 when [i < ceil(n / 2)] and in row 1 otherwise, its zone's y being
    [int(padding + row * row_height)].  The rule [i mod 2] only counts how
    many notes each row gets. *)
Theorem layout_rows_fill_in_order (notes_to_display : list (string * Z))
    (screen_width screen_height padding : Z) (zone_labels : bool) (i : nat) :
  let zones := generate_layout notes_to_display screen_width screen_height padding
                 zone_labels in
  let n := length notes_to_display in
  (i < n)%nat ->
  length zones = n
  /\ row_counts n = [((n + 1) / 2)%nat; (n / 2)%nat]
  /\ exists z,
       zones !! i = Some z
       /\ Zone.zone_y z
          = Py.int (inject_Z padding
                    + inject_Z (Z.of_nat (if (i <? (n + 1) / 2)%nat then 0 else 1)%nat)
                      * row_height screen_height padding)%Q
       /\ notes_to_display !! i = Some (note_name z, note_midi_value z).
Proof.
  intros zones n Hi.
  destruct (generate_layout_placed notes_to_display screen_width screen_height padding
              zone_labels) as [Hlen Hall].
  fold zones in Hlen, Hall. split; [exact Hlen|]. split; [apply row_counts_spec|].
  destruct (zones !! i) as [z|] eqn:Ez.
  - exists z. split; [reflexivity|]. exact (Hall i z Ez).
  - apply lookup_ge_None in Ez. fold n in Hlen. lia.
Qed.

End Layout.

Lemma layout_rows_fill_in_order_witness :
  (1 < length Sample.three_notes)%nat
  /\ exists z,
       LayoutGenerator.generate_layout Sample.three_notes 1280 720 10 true !! 1%nat = Some z
       /\ Zone.zone_y z = 10
       /\ note_midi_value z = 61.
Proof.
  assert (H1 : (1 < length Sample.three_notes)%nat) by (simpl; lia).
  split; [exact H1|].
  destruct (layout_rows_fill_in_order Sample.three_notes 1280 720 10 true 1%nat H1)
    as (_ & _ & z & Hz & Hy & Hn).
  exists z. split; [exact Hz|]. split; [exact Hy|].
  vm_compute in Hn. now injection Hn as _ ->.
Defined.

Lemma layout_round_robin_counterexample :
  ~ LayoutGenerator.round_robin_rows Sample.default_notes 1280 720 10 true.
Proof.
  intros H.
  assert (E : LayoutGenerator.generate_layout Sample.default_notes 1280 720 10 true !! 1%nat
              = Some (Zone.init 115 10 105 350 "C#4" 61 (Some "C#4"%string)))
    by (vm_compute; reflexivity).
  specialize (H 1%nat _ E). vm_compute in H. discriminate.
Qed.

(** ** The MIDI handler *)

Section MidiFacts.
Import Midi.

Lemma elem_of_channel_set lo hi c : c ∈ channel_set lo hi <-> lo <= c <= hi.
Proof.
  unfold channel_set. rewrite elem_of_list_to_set, list_elem_of_In, in_map_iff. split.
  - intros (i & <- & Hi). apply in_seq in Hi. lia.
  - intros H. exists (Z.to_nat (c - lo)). split; [lia|]. apply in_seq. lia.
Qed.

Lemma set_pop_Some choice s c rest :
  set_pop choice s = Some (c, rest) -> c ∈ s /\ rest = s ∖ {[c]}.
Proof.
  unfold set_pop. destruct (elements s) as [|d l] eqn:E; [discriminate|].
  intros [= <- <-]. split; [|reflexivity].
  destruct (decide (choice ∈ s)); [assumption|].
  apply elem_of_elements. rewrite E. left.
Qed.

Lemma set_pop_None choice s : set_pop choice s = None <-> s = ∅.
Proof.
  unfold set_pop. split.
  - destruct (elements s) eqn:E; [|discriminate]. intros _.
    now apply elements_empty_inv, leibniz_equiv in E.
  - intros ->. now rewrite elements_empty.
Qed.

Lemma pool_invariant_init mpe_ch_range opened :
  pool_invariant (fst (effective_range mpe_ch_range)) (snd (effective_range mpe_ch_range))
    (init mpe_ch_range opened).
Proof.
  unfold init. destruct (effective_range mpe_ch_range) as [lo hi]. cbn [fst snd].
  unfold pool_invariant, held, one_finger_per_channel. cbn.
  rewrite map_img_empty_L. split; [|split].
  - apply disjoint_empty_r.
  - intros c. rewrite union_empty_r_L. apply elem_of_channel_set.
  - intros f1 f2 c Hc. now rewrite lookup_empty in Hc.
Qed.

Lemma pool_invariant_port_send lo hi self msg :
  pool_invariant lo hi self -> pool_invariant lo hi (port_send self msg).
Proof. exact id. Qed.

Lemma sent_messages_port_send self msg :
  port_not_open self = false ->
  sent_messages (port_send self msg) = sent_messages self ++ [msg].
Proof.
  unfold port_not_open, sent_messages, port_send. cbn.
  destruct (port self) as [p|]; [reflexivity | discriminate].
Qed.

Lemma pool_invariant_print lo hi self line :
  pool_invariant lo hi self -> pool_invariant lo hi (print self line).
Proof. exact id. Qed.

Lemma pool_invariant_on_wire lo hi self :
  pool_invariant lo hi self -> 1 <= lo -> hi <= 16 -> channels_on_wire self.
Proof. intros (_ & Hall & _) Hlo Hhi c Hc. apply Hall in Hc. lia. Qed.

Lemma pool_invariant_send_note_on pick lo hi n v f self :
  pool_invariant lo hi self -> pool_invariant lo hi (send_note_on pick n v f self).
Proof.
  intros Hinv. unfold send_note_on.
  destruct (port_not_open self); [assumption|].
  destruct (active_note_channels self !! f) as [c|] eqn:Ef.
  { now apply pool_invariant_port_send. }
  destruct (set_pop (pick self) (available_channels self)) as [[c rest]|] eqn:Ep.
  2:{ now apply pool_invariant_print. }
  apply set_pop_Some in Ep as [Hc ->].
  apply pool_invariant_port_send.
  destruct Hinv as (Hdisj & Hall & Hinj).
  unfold pool_invariant, held, one_finger_per_channel in *. cbn.
  rewrite map_img_insert_notin_L by assumption.
  split; [|split].
  - intros c' H1 H2. apply elem_of_difference in H1 as [H1 Hn].
    apply elem_of_union in H2 as [H2|H2]; [contradiction | exact (Hdisj c' H1 H2)].
  - intros c'. rewrite <- Hall.
    rewrite !elem_of_union, elem_of_difference, elem_of_singleton.
    destruct (decide (c' = c)) as [->|]; tauto.
  - intros f1 f2 c' H1 H2.
    assert (Hfresh : forall g, active_note_channels self !! g = Some c -> False).
    { intros g Hg. apply (Hdisj c); [assumption|]. apply elem_of_map_img. eauto. }
    destruct (decide (f1 = f)) as [->|N1], (decide (f2 = f)) as [->|N2];
      simplify_map_eq; eauto; exfalso; eauto.
Qed.

Lemma pool_invariant_send_note_off lo hi n f self :
  pool_invariant lo hi self -> pool_invariant lo hi (send_note_off n f self).
Proof.
  intros Hinv. unfold send_note_off.
  destruct (port_not_open self); [assumption|].
  destruct (active_note_channels self !! f) as [c|] eqn:Ef.
  2:{ now apply pool_invariant_print. }
  apply pool_invariant_port_send.
  destruct Hinv as (Hdisj & Hall & Hinj).
  unfold pool_invariant, held, one_finger_per_channel in *. cbn.
  assert (Hheld : forall c', c' ∈ (map_img (delete f (active_note_channels self)) : gset Z)
                   <-> c' ∈ (map_img (active_note_channels self) : gset Z) /\ c' <> c).
  { intros c'. rewrite !elem_of_map_img. split.
    - intros (g & Hg). apply lookup_delete_Some in Hg as [Hne Hg].
      split; [eauto|]. intros ->. apply Hne. eauto.
    - intros ((g & Hg) & Hne). exists g. apply lookup_delete_Some. split; [|assumption].
      intros ->. congruence. }
  assert (Hc : c ∈ (map_img (active_note_channels self) : gset Z)).
  { apply elem_of_map_img. eauto. }
  split; [|split].
  - intros c' H1 H2. apply Hheld in H2 as [H2 Hne].
    apply elem_of_union in H1 as [H1|H1]; [|exact (Hdisj c' H1 H2)].
    apply elem_of_singleton in H1. contradiction.
  - intros c'. rewrite <- Hall. rewrite !elem_of_union, Hheld, elem_of_singleton.
    destruct (decide (c' = c)) as [->|]; tauto.
  - intros f1 f2 c' H1 H2.
    apply lookup_delete_Some in H1 as [_ H1]. apply lookup_delete_Some in H2 as [_ H2].
    eauto.
Qed.

Lemma pool_invariant_run pick lo hi calls self :
  pool_invariant lo hi self -> pool_invariant lo hi (run pick calls self).
Proof.
  unfold run. revert self. induction calls as [|c calls IH]; intros self H; [exact H|].
  cbn [foldl]. apply IH. destruct c; cbn [call];
    auto using pool_invariant_send_note_on, pool_invariant_send_note_off.
Qed.

Lemma effective_range_valid lo hi :
  1 <= lo -> lo <= hi -> hi <= 16 -> effective_range (Some [lo; hi]) = (lo, hi).
Proof.
  intros H1 H2 H3. unfold effective_range, valid_range.
  destruct (Z.leb_spec 1 lo); [|lia]. destruct (Z.leb_spec lo 16); [|lia].
  destruct (Z.leb_spec 1 hi); [|lia]. destruct (Z.leb_spec hi 16); [|lia].
  destruct (Z.leb_spec lo hi); [|lia]. reflexivity.
Qed.

(** C1.  Whatever [send_note_on] and [send_note_off] calls are made on a
    freshly constructed handler, the available channels and the channels
    held by fingers are disjoint, together they are the channels of the
    range the pool was built from, and no channel is held by two fingers.
    The range is the configured [lo, hi] when that is valid, and [2, 16]
    otherwise; the port may be open or not. *)
Theorem channel_pool_invariant (pick : MidiHandler -> Z) (mpe_ch_range : option (list Z))
    (opened : option Mido.OutputPort) (calls : list NoteCall) :
  pool_invariant (fst (effective_range mpe_ch_range)) (snd (effective_range mpe_ch_range))
    (run pick calls (init mpe_ch_range opened))
  /\ forall lo hi,
       1 <= lo -> lo <= hi -> hi <= 16 -> mpe_ch_range = Some [lo; hi] ->
       let self := run pick calls (init mpe_ch_range opened) in
       available_channels self ## held self
       /\ (forall c, c ∈ available_channels self ∪ held self <-> lo <= c <= hi)
       /\ forall f1 f2 c,
            active_note_channels self !! f1 = Some c ->
            active_note_channels self !! f2 = Some c -> f1 = f2.
Proof.
  assert (H : pool_invariant (fst (effective_range mpe_ch_range))
                (snd (effective_range mpe_ch_range))
                (run pick calls (init mpe_ch_range opened)))
    by apply pool_invariant_run, pool_invariant_init.
  split; [exact H|]. intros lo hi H1 H2 H3 ->.
  rewrite effective_range_valid in H by assumption. exact H.
Qed.

(** C2.  On an open port, with no channel available and none held by
    [finger_id], [send_note_on] sends nothing and leaves the available set
    and the finger-to-channel map as they were; all it does is print the
    warning.  It returns normally: there is no [raise] on this path. *)
Theorem exhausted_note_on_is_dropped (pick : MidiHandler -> Z) (note velocity : Z)
    (finger_id : FingerId) (self : MidiHandler) :
  port_not_open self = false ->
  available_channels self = ∅ ->
  active_note_channels self !! finger_id = None ->
  let self' := send_note_on pick note velocity finger_id self in
  available_channels self' = available_channels self
  /\ active_note_channels self' = active_note_channels self
  /\ port self' = port self
  /\ master_channel self' = master_channel self
  /\ console self' = console self ++ [WarnRanOutOfChannels].
Proof.
  intros Hp Ha Hf. cbn zeta. unfold send_note_on. rewrite Hp, Hf.
  rewrite (proj2 (set_pop_None (pick self) _) Ha). repeat split.
Qed.

(** C10.  When the port is not open ([self.port] is [None], or closed),
    each of the five send methods returns the handler as it was: nothing
    is sent, and [available_channels] and [active_note_channels] are not
    touched; a note-on then takes no channel. *)
Theorem sends_without_port_do_nothing (pick : MidiHandler -> Z) (self : MidiHandler) :
  (port self = None \/ exists p, port self = Some p /\ Mido.closed p = true) ->
  (forall n v f, send_note_on pick n v f self = self)
  /\ (forall n f, send_note_off n f self = self)
  /\ (forall b f, send_pitch_bend b f self = self)
  /\ (forall p f, send_channel_pressure p f self = self)
  /\ (forall c v f, send_control_change c v f self = self).
Proof.
  intros H.
  assert (Hp : port_not_open self = true).
  { unfold port_not_open. destruct H as [->|(p & -> & ->)]; reflexivity. }
  unfold send_note_on, send_note_off, send_pitch_bend, send_channel_pressure,
    send_control_change. rewrite Hp. repeat split.
Qed.

End MidiFacts.

Lemma channel_pool_invariant_witness :
  1 <= 2 /\ 2 <= 3 /\ 3 <= 16
  /\ let self :=
       Midi.run Sample.lowest
         [Midi.CallNoteOn 60 64 Sample.right_index;
          Midi.CallNoteOn 62 64 Sample.right_middle;
          Midi.CallNoteOff 60 Sample.right_index]
         (Midi.init (Some [2; 3]) (Some Sample.port0)) in
     available_channels self ## Midi.held self
     /\ forall c, c ∈ available_channels self ∪ Midi.held self <-> 2 <= c <= 3.
Proof.
  assert (H1 : 1 <= 2) by lia. assert (H2 : 2 <= 3) by lia. assert (H3 : 3 <= 16) by lia.
  split; [exact H1|]. split; [exact H2|]. split; [exact H3|].
  destruct (proj2 (channel_pool_invariant Sample.lowest (Some [2; 3]) (Some Sample.port0)
                     [Midi.CallNoteOn 60 64 Sample.right_index;
                      Midi.CallNoteOn 62 64 Sample.right_middle;
                      Midi.CallNoteOff 60 Sample.right_index])
                  2 3 H1 H2 H3 eq_refl) as (A & B & _).
  exact (conj A B).
Defined.

Lemma exhausted_note_on_is_dropped_witness :
  Midi.port_not_open Sample.handler2 = false
  /\ available_channels Sample.handler2 = ∅
  /\ active_note_channels Sample.handler2 !! ("Left"%string, 8) = None
  /\ let self' := Midi.send_note_on Sample.lowest 64 100 ("Left"%string, 8) Sample.handler2 in
     available_channels self' = available_channels Sample.handler2
     /\ active_note_channels self' = active_note_channels Sample.handler2
     /\ port self' = port Sample.handler2
     /\ console self' = console Sample.handler2 ++ [WarnRanOutOfChannels].
Proof.
  assert (H1 : Midi.port_not_open Sample.handler2 = false) by reflexivity.
  assert (H2 : available_channels Sample.handler2 = ∅) by (vm_compute; reflexivity).
  assert (H3 : active_note_channels Sample.handler2 !! ("Left"%string, 8) = None)
    by (vm_compute; reflexivity).
  split; [exact H1|]. split; [exact H2|]. split; [exact H3|].
  destruct (exhausted_note_on_is_dropped Sample.lowest 64 100 ("Left"%string, 8)
              Sample.handler2 H1 H2 H3) as (A & B & C & _ & D).
  exact (conj A (conj B (conj C D))).
Defined.

Lemma sends_without_port_do_nothing_witness :
  port Sample.handler_closed = None
  /\ Midi.send_note_on Sample.lowest 60 100 Sample.right_index Sample.handler_closed
     = Sample.handler_closed
  /\ Midi.send_note_off 60 Sample.right_index Sample.handler_closed = Sample.handler_closed.
Proof.
  assert (H1 : port Sample.handler_closed = None) by reflexivity.
  split; [exact H1|].
  destruct (sends_without_port_do_nothing Sample.lowest Sample.handler_closed (or_introl H1))
    as (A & B & _).
  exact (conj (A 60 100 Sample.right_index) (B 60 Sample.right_index)).
Defined.

(** ** The interaction manager *)

Section InteractionFacts.
Import Interaction.
Context {S : Type}.
Variable synth : Audio.SynthOps S.
Variable pick : MidiHandler -> Z.
Variable target_fingers : gset Z.

Abbreviation emit := (Interaction.emit synth pick).
Abbreviation emits := (Interaction.emits synth pick).
Abbreviation dispatch := (Audio.dispatch synth pick).

(** *** Commands *)

Lemma emits_app cs1 cs2 (w : World S) : emits (cs1 ++ cs2) w = emits cs2 (emits cs1 w).
Proof. unfold Interaction.emits. apply foldl_app. Qed.

Lemma emits_cons c cs (w : World S) : emits (c :: cs) w = emits cs (emit c w).
Proof. reflexivity. Qed.

Lemma emits_active_notes cs (w : World S) : active_notes (emits cs w) = active_notes w.
Proof.
  revert w. induction cs as [|c cs IH]; intros w; [reflexivity|].
  now rewrite emits_cons, IH.
Qed.

Lemma emits_zone_store cs (w : World S) : zone_store (emits cs w) = zone_store w.
Proof.
  revert w. induction cs as [|c cs IH]; intros w; [reflexivity|].
  now rewrite emits_cons, IH.
Qed.

Lemma emits_issued cs (w : World S) : issued (emits cs w) = issued w ++ cs.
Proof.
  revert w. induction cs as [|c cs IH]; intros w; [symmetry; apply app_nil_r|].
  rewrite emits_cons, IH. cbn [Interaction.emit issued]. now rewrite <- app_assoc.
Qed.

Lemma emits_audio_engine cs (w : World S) :
  audio_engine (emits cs w) = foldl dispatch (audio_engine w) cs.
Proof.
  revert w. induction cs as [|c cs IH]; intros w; [reflexivity|].
  now rewrite emits_cons, IH.
Qed.

(** *** Pass 1 *)

Lemma is_point_inside_rect z1 z2 x y :
  rect z1 = rect z2 -> Zone.is_point_inside z1 x y = Zone.is_point_inside z2 x y.
Proof. intros H. unfold Zone.is_point_inside. now rewrite H. Qed.

Lemma sustained_same_rects s1 s2 hands f nd :
  same_rects s1 s2 -> sustained s1 hands f nd = sustained s2 hands f nd.
Proof.
  intros H. unfold sustained.
  destruct (matching_hand f hands); [|reflexivity].
  destruct (LANDMARK_ID_TO_FINGER_NAME f.2); [|reflexivity].
  destruct (extended _ _); [|reflexivity].
  destruct (_get_finger_tip_coordinate _ _) as [[[x y] d]|]; [|reflexivity].
  now rewrite (is_point_inside_rect _ _ x y (H (zone nd))).
Qed.

Lemma calls_of_same_rects s1 s2 hands item :
  same_rects s1 s2 -> calls_of s1 hands item = calls_of s2 hands item.
Proof.
  intros H. unfold calls_of. rewrite (sustained_same_rects s1 s2) by assumption.
  now rewrite (H (zone item.2)).
Qed.

Lemma is_sustained_same_rects s1 s2 hands item :
  same_rects s1 s2 -> is_sustained s1 hands item = is_sustained s2 hands item.
Proof.
  intros H. unfold is_sustained. now rewrite (sustained_same_rects s1 s2) by assumption.
Qed.

Lemma scan_hands_spec f nd hands (w : World S) processed :
  scan_hands synth pick f nd hands w processed
  = match sustained (zone_store w) hands f nd with
    | Some _ =>
        (true, true, emits (calls_of (zone_store w) hands (f, nd)) w, {[f]} ∪ processed)
    | None =>
        (match matching_hand f hands with Some _ => true | None => false end,
         false, w, processed)
    end.
Proof.
  unfold calls_of, sustained, matching_hand. cbn [fst snd].
  induction hands as [|hand hands IH]; [reflexivity|].
  destruct f as [hid tip]. cbn [scan_hands List.find fst snd] in *.
  destruct (bool_decide (handedness hand = hid)); [|exact IH].
  destruct (LANDMARK_ID_TO_FINGER_NAME tip) as [name|]; [|reflexivity].
  destruct (extended hand name); [|reflexivity]. cbn [negb].
  destruct (_get_finger_tip_coordinate (landmarks hand) tip) as [[[x y] d]|]; [|reflexivity].
  destruct (Zone.is_point_inside (zone_store w (zone nd)) x y); reflexivity.
Qed.

(** One entry of [active_notes] in pass 1. *)
Lemma sustain_or_release_spec hands (w : World S) processed notes_to_remove f nd :
  sustain_or_release synth pick hands (w, processed, notes_to_remove) (f, nd)
  = if is_sustained (zone_store w) hands (f, nd) then
      (emits (calls_of (zone_store w) hands (f, nd)) w, {[f]} ∪ processed, notes_to_remove)
    else
      (set_zone (zone nd) (Zone.deactivate (zone_store w (zone nd)))
         (emits (calls_of (zone_store w) hands (f, nd)) w),
       processed, {[f]} ∪ notes_to_remove).
Proof.
  unfold sustain_or_release. rewrite scan_hands_spec.
  unfold is_sustained, calls_of. cbn [fst snd].
  destruct (sustained (zone_store w) hands f nd) as [[x y]|]; [reflexivity|].
  rewrite orb_true_r. reflexivity.
Qed.

Lemma releases_zone_same_rects s1 s2 hands items r :
  same_rects s1 s2 -> releases_zone s1 hands items r = releases_zone s2 hands items r.
Proof.
  intros H. unfold releases_zone. induction items as [|it its IH]; [reflexivity|].
  cbn [existsb]. now rewrite IH, (is_sustained_same_rects s1 s2).
Qed.

Lemma releases_zone_cons s hands it its r :
  releases_zone s hands (it :: its) r
  = negb (is_sustained s hands it) && bool_decide (zone (snd it) = r)
    || releases_zone s hands its r.
Proof. reflexivity. Qed.

Lemma deactivate_idem z : Zone.deactivate (Zone.deactivate z) = Zone.deactivate z.
Proof. reflexivity. Qed.

Lemma pass1_fold hands items :
  forall (w : World S) processed notes_to_remove,
  let '(w', processed', notes_to_remove') :=
    foldl (sustain_or_release synth pick hands) (w, processed, notes_to_remove) items in
  active_notes w' = active_notes w
  /\ issued w' = issued w ++ flat_map (calls_of (zone_store w) hands) items
  /\ audio_engine w'
     = foldl dispatch (audio_engine w) (flat_map (calls_of (zone_store w) hands) items)
  /\ (forall r, zone_store w' r
                = if releases_zone (zone_store w) hands items r
                  then Zone.deactivate (zone_store w r) else zone_store w r)
  /\ (forall g, g ∈ processed'
                <-> g ∈ processed
                    \/ exists nd, In (g, nd) items
                                  /\ is_sustained (zone_store w) hands (g, nd) = true)
  /\ (forall g, g ∈ notes_to_remove'
                <-> g ∈ notes_to_remove
                    \/ exists nd, In (g, nd) items
                                  /\ is_sustained (zone_store w) hands (g, nd) = false).
Proof.
  induction items as [|[f nd] items IH]; intros w processed notes_to_remove.
  - cbn. rewrite app_nil_r. repeat split; try tauto; intros [?|(? & [] & _)]; assumption.
  - cbn [foldl]. rewrite sustain_or_release_spec.
    destruct (is_sustained (zone_store w) hands (f, nd)) eqn:Ef.
    + specialize (IH (emits (calls_of (zone_store w) hands (f, nd)) w)
                     ({[f]} ∪ processed) notes_to_remove).
      destruct (foldl _ _ items) as [[w' processed'] notes_to_remove'].
      rewrite emits_active_notes, emits_issued, emits_audio_engine, emits_zone_store in IH.
      destruct IH as (A & B & C & D & E & F).
      cbn [flat_map]. rewrite foldl_app, app_assoc.
      split; [exact A|]. split; [exact B|]. split; [exact C|]. split; [|split].
      * intros r. now rewrite D, releases_zone_cons, Ef.
      * intros g. rewrite E, elem_of_union, elem_of_singleton. split.
        -- intros [[->|?]|(nd' & ? & ?)]; eauto 6 using in_eq, in_cons.
        -- intros [?|(nd' & [[= <- <-]|?] & ?)]; eauto 6.
      * intros g. rewrite F. split.
        -- intros [?|(nd' & ? & ?)]; eauto 6 using in_cons.
        -- intros [?|(nd' & [[= <- <-]|?] & ?)]; eauto 6. congruence.
    + set (w1 := set_zone (zone nd) (Zone.deactivate (zone_store w (zone nd)))
                   (emits (calls_of (zone_store w) hands (f, nd)) w)).
      assert (Hrect : same_rects (zone_store w1) (zone_store w)).
      { intros r. unfold w1. cbn. rewrite emits_zone_store.
        destruct (decide (zone nd = r)) as [<-|N].
        - now rewrite fn_lookup_insert.
        - now rewrite fn_lookup_insert_ne. }
      specialize (IH w1 processed ({[f]} ∪ notes_to_remove)).
      destruct (foldl _ _ items) as [[w' processed'] notes_to_remove'].
      destruct IH as (A & B & C & D & E & F).
      assert (Hcalls : flat_map (calls_of (zone_store w1) hands) items
                       = flat_map (calls_of (zone_store w) hands) items).
      { apply flat_map_ext. intros it. now apply calls_of_same_rects. }
      rewrite Hcalls in B, C.
      assert (Hsus : forall it, is_sustained (zone_store w1) hands it
                                = is_sustained (zone_store w) hands it).
      { intros it. now apply is_sustained_same_rects. }
      unfold w1 in A, B, C.
      cbn [Interaction.set_zone active_notes issued audio_engine] in A, B, C.
      rewrite emits_active_notes in A. rewrite emits_issued in B.
      rewrite emits_audio_engine in C.
      cbn [flat_map]. rewrite foldl_app, app_assoc.
      split; [exact A|]. split; [exact B|]. split; [exact C|]. split; [|split].
      * intros r.
        rewrite D, releases_zone_cons, Ef, (releases_zone_same_rects _ _ hands items r Hrect).
        cbn [negb andb snd]. unfold w1. cbn [Interaction.set_zone zone_store].
        rewrite emits_zone_store.
        destruct (decide (zone nd = r)) as [<-|N].
        -- rewrite bool_decide_eq_true_2 by reflexivity. cbn [orb].
           rewrite fn_lookup_insert. now destruct (releases_zone _ _ items _).
        -- rewrite bool_decide_eq_false_2 by assumption. cbn [orb].
           now rewrite fn_lookup_insert_ne.
      * intros g. rewrite E. split.
        -- intros [?|(nd' & ? & Hs)]; [now left|]. rewrite Hsus in Hs.
           eauto 6 using in_cons.
        -- intros [?|(nd' & [[= <- <-]|?] & Hs)]; [now left|congruence|].
           right. exists nd'. now rewrite Hsus.
      * intros g. rewrite F, elem_of_union, elem_of_singleton. split.
        -- intros [[->|?]|(nd' & ? & Hs)]; [eauto 6 using in_eq|now left|].
           rewrite Hsus in Hs. eauto 6 using in_cons.
        -- intros [?|(nd' & [[= <- <-]|?] & Hs)]; [tauto|tauto|].
           right. exists nd'. now rewrite Hsus.
Qed.

(** Pass 1 with its clean-up, in one statement. *)
Lemma release_pass_spec hands (w : World S) :
  let w1 := fst (release_pass synth pick hands w) in
  let processed := snd (release_pass synth pick hands w) in
  let items := active_notes w in
  issued w1 = issued w ++ flat_map (calls_of (zone_store w) hands) items
  /\ audio_engine w1
     = foldl dispatch (audio_engine w) (flat_map (calls_of (zone_store w) hands) items)
  /\ (forall r, zone_store w1 r
                = if releases_zone (zone_store w) hands items r
                  then Zone.deactivate (zone_store w r) else zone_store w r)
  /\ (forall g, g ∈ processed
                <-> exists nd, In (g, nd) items
                               /\ is_sustained (zone_store w) hands (g, nd) = true)
  /\ exists notes_to_remove : gset FingerId,
       active_notes w1
       = List.filter (fun kv => negb (bool_decide (fst kv ∈ notes_to_remove))) items
       /\ forall g, g ∈ notes_to_remove
                    <-> exists nd, In (g, nd) items
                                   /\ is_sustained (zone_store w) hands (g, nd) = false.
Proof.
  unfold release_pass.
  pose proof (pass1_fold hands (active_notes w) w ∅ ∅) as H.
  destruct (foldl _ _ (active_notes w)) as [[w' processed'] notes_to_remove'].
  destruct H as (A & B & C & D & E & F). cbn [fst snd].
  unfold remove_notes. cbn [Interaction.set_active_notes issued audio_engine zone_store
                            active_notes].
  split; [exact B|]. split; [exact C|]. split; [exact D|]. split.
  - intros g. rewrite E. split; [intros [Hg|Hg]; [|exact Hg] | intros Hg; now right].
    now apply not_elem_of_empty in Hg.
  - exists notes_to_remove'. rewrite A. split; [reflexivity|].
    intros g. rewrite F. split; [intros [Hg|Hg]; [|exact Hg] | intros Hg; now right].
    now apply not_elem_of_empty in Hg.
Qed.

(** *** The table of sounding notes *)

Lemma dict_get_set {V} (d : list (FingerId * V)) k v k' :
  dict_get (dict_set d k v) k' = if decide (k = k') then Some v else dict_get d k'.
Proof.
  unfold dict_get. induction d as [|[k0 v0] d IH]; cbn [dict_set List.find fst snd].
  - destruct (decide (k = k')) as [->|N].
    + now rewrite bool_decide_eq_true_2.
    + now rewrite bool_decide_eq_false_2.
  - destruct (decide (k0 = k)) as [->|N0].
    + rewrite bool_decide_eq_true_2 by reflexivity. cbn [List.find fst snd].
      destruct (decide (k = k')) as [->|N].
      * now rewrite !bool_decide_eq_true_2.
      * now rewrite !bool_decide_eq_false_2.
    + rewrite bool_decide_eq_false_2 by assumption. cbn [List.find fst snd].
      destruct (decide (k0 = k')) as [->|N1].
      * rewrite bool_decide_eq_true_2 by reflexivity.
        destruct (decide (k = k')); [congruence | reflexivity].
      * rewrite bool_decide_eq_false_2 by assumption. exact IH.
Qed.

Lemma dict_in_true {V} (d : list (FingerId * V)) k :
  dict_in d k = true <-> exists v, dict_get d k = Some v.
Proof. unfold dict_in. rewrite bool_decide_eq_true. reflexivity. Qed.

Lemma dict_in_false {V} (d : list (FingerId * V)) k :
  dict_in d k = false <-> dict_get d k = None.
Proof.
  unfold dict_in. rewrite bool_decide_eq_false, <- eq_None_not_Some. reflexivity.
Qed.

Lemma dict_get_In {V} (d : list (FingerId * V)) k v :
  dict_get d k = Some v -> In (k, v) d.
Proof.
  unfold dict_get. destruct (List.find _ d) as [[k0 v0]|] eqn:E; [|discriminate].
  intros [= <-]. apply find_some in E as [Hin Hk].
  apply bool_decide_eq_true in Hk. cbn in Hk. now subst.
Qed.

Lemma dict_get_filter_out {V} (d : list (FingerId * V)) (keep : FingerId -> bool) k :
  keep k = false -> dict_get (List.filter (fun kv => keep (fst kv)) d) k = None.
Proof.
  intros Hk. unfold dict_get. induction d as [|[k0 v0] d IH]; [reflexivity|].
  cbn [List.filter fst]. destruct (keep k0) eqn:E0; [|exact IH].
  cbn [List.find fst]. destruct (decide (k0 = k)) as [->|N]; [congruence|].
  now rewrite bool_decide_eq_false_2.
Qed.

Lemma dict_get_filter_keep {V} (d : list (FingerId * V)) (keep : FingerId -> bool) k :
  keep k = true -> dict_get (List.filter (fun kv => keep (fst kv)) d) k = dict_get d k.
Proof.
  intros Hk. unfold dict_get. induction d as [|[k0 v0] d IH]; [reflexivity|].
  cbn [List.filter List.find fst]. destruct (decide (k0 = k)) as [->|N].
  - rewrite Hk. cbn [List.find fst]. now rewrite bool_decide_eq_true_2.
  - rewrite bool_decide_eq_false_2 by assumption.
    destruct (keep k0); [|exact IH]. cbn [List.find fst].
    now rewrite bool_decide_eq_false_2.
Qed.

Lemma dict_set_keys {V} (d : list (FingerId * V)) k v :
  dict_get d k = None -> map fst (dict_set d k v) = map fst d ++ [k].
Proof.
  unfold dict_get. induction d as [|[k0 v0] d IH]; cbn [dict_set List.find map fst app];
    [reflexivity|].
  destruct (decide (k0 = k)) as [->|N].
  - rewrite bool_decide_eq_true_2 by reflexivity. discriminate.
  - rewrite bool_decide_eq_false_2 by assumption. intros H.
    cbn [map fst]. now rewrite IH.
Qed.

Lemma dict_get_None_keys {V} (d : list (FingerId * V)) k :
  dict_get d k = None -> k ∉ map fst d.
Proof.
  unfold dict_get. induction d as [|[k0 v0] d IH]; cbn [List.find map fst].
  - intros _ H. inversion H.
  - destruct (decide (k0 = k)) as [->|N].
    + rewrite bool_decide_eq_true_2 by reflexivity. discriminate.
    + rewrite bool_decide_eq_false_2 by assumption. intros H Hk.
      apply elem_of_cons in Hk as [Hk|Hk]; [congruence | now apply IH].
Qed.

(** *** Pass 2 *)

Lemma candidate_zone_same_rects s1 s2 zones x y :
  same_rects s1 s2 -> candidate_zone s1 zones x y = candidate_zone s2 zones x y.
Proof.
  intros H. unfold candidate_zone. induction zones as [|r zones IH]; [reflexivity|].
  cbn [List.find]. now rewrite IH, (is_point_inside_rect _ _ x y (H r)).
Qed.

Lemma try_zones_spec f x y zones (w : World S) processed :
  try_zones synth pick f x y zones (w, processed)
  = match candidate_zone (zone_store w) zones x y with
    | Some r =>
        if negb (is_active (zone_store w r))
        then claim_step synth pick f y r (w, processed)
        else (w, processed)
    | None => (w, processed)
    end.
Proof.
  unfold candidate_zone. induction zones as [|r zones IH]; [reflexivity|].
  cbn [try_zones List.find].
  destruct (Zone.is_point_inside (zone_store w r) x y); [reflexivity | exact IH].
Qed.

Abbreviation claim_reach := (Interaction.claim_reach synth pick target_fingers).

Lemma try_finger_reach hands zones a b idx hand name tip :
  In (idx, hand) (enumerate hands) ->
  In (name, tip) FINGER_TIP_LANDMARKS ->
  claim_reach hands zones a b ->
  claim_reach hands zones a
    (try_finger synth pick target_fingers zones (hand_id_of idx hand) hand b (name, tip)).
Proof.
  intros Hh Hf Hab. destruct b as [w processed]. unfold try_finger.
  destruct (bool_decide (tip ∈ target_fingers)) eqn:Et; [|exact Hab]. cbn [negb].
  destruct (bool_decide ((hand_id_of idx hand, tip) ∈ processed)) eqn:Ep; [exact Hab|].
  destruct (dict_in (active_notes w) (hand_id_of idx hand, tip)) eqn:Ed; [exact Hab|].
  destruct (extended hand name) eqn:Ee; [|exact Hab].
  destruct (_get_finger_tip_coordinate (landmarks hand) tip) as [[[x y] d]|] eqn:Ec;
    [|exact Hab].
  rewrite try_zones_spec.
  destruct (candidate_zone (zone_store w) zones x y) as [r|] eqn:Er; [|exact Hab].
  destruct (is_active (zone_store w r)) eqn:Ea; [exact Hab|]. cbn [negb].
  apply (reach_step synth pick target_fingers hands zones a (w, processed) _ x y r);
    try assumption.
  - cbn [snd]. now apply bool_decide_eq_false in Ep.
  - unfold shown_at. apply in_flat_map. exists (idx, hand). split; [assumption|].
    apply in_flat_map. exists (name, tip). split; [assumption|]. cbn [fst snd].
    rewrite bool_decide_eq_true_2 by reflexivity. rewrite Et, Ee, Ec. now left.
Qed.

Lemma try_hand_reach hands zones a b idx hand :
  In (idx, hand) (enumerate hands) ->
  claim_reach hands zones a b ->
  claim_reach hands zones a (try_hand synth pick target_fingers zones b (idx, hand)).
Proof.
  intros Hh. unfold try_hand.
  assert (Hincl : incl FINGER_TIP_LANDMARKS FINGER_TIP_LANDMARKS) by apply incl_refl.
  revert Hincl b. generalize FINGER_TIP_LANDMARKS at 1 3 as l.
  induction l as [|[name tip] l IH]; intros Hincl b Hab; [exact Hab|].
  cbn [foldl]. apply IH; [intros e He; apply Hincl; now right|].
  apply try_finger_reach; try assumption. apply Hincl. now left.
Qed.

Lemma claim_pass_reach hands zones a :
  claim_reach hands zones a (claim_pass synth pick target_fingers hands zones a).
Proof.
  unfold claim_pass.
  assert (Hincl : incl (enumerate hands) (enumerate hands)) by apply incl_refl.
  assert (Haa : claim_reach hands zones a a) by constructor.
  revert Hincl Haa. generalize a at 2 4 as b. generalize (enumerate hands) at 1 3 as l.
  induction l as [|[idx hand] l IH]; intros b Hincl Hab; [exact Hab|].
  cbn [foldl]. apply IH; [intros e He; apply Hincl; now right|].
  apply try_hand_reach; [|assumption]. apply Hincl. now left.
Qed.

Abbreviation blocked := (Interaction.blocked target_fingers).

(** What every sequence of claims keeps. *)
Lemma claim_reach_inv hands zones a b :
  claim_reach hands zones a b ->
  snd a ⊆ snd b
  /\ same_rects (zone_store (fst b)) (zone_store (fst a))
  /\ (forall r, is_active (zone_store (fst a) r) = true ->
                zone_store (fst b) r = zone_store (fst a) r)
  /\ (forall g, dict_in (active_notes (fst a)) g = true ->
                dict_get (active_notes (fst b)) g = dict_get (active_notes (fst a)) g)
  /\ exists new,
       issued (fst b) = issued (fst a) ++ new
       /\ audio_engine (fst b) = foldl dispatch (audio_engine (fst a)) new
       /\ forallb is_note_on new = true
       /\ (forall g, blocked hands zones a g ->
                     List.filter (about g) new = []
                     /\ dict_get (active_notes (fst b)) g
                        = dict_get (active_notes (fst a)) g)
       /\ (forall g, dict_in (active_notes (fst a)) g = false ->
                     length (List.filter (about g) new)
                     = if dict_in (active_notes (fst b)) g then 1%nat else 0%nat)
       /\ (forall r, zone_store (fst b) r = zone_store (fst a) r
                     \/ exists g n v,
                          zone_store (fst b) r = Zone.activate (zone_store (fst a) r) g
                          /\ In (NoteOn n v g) new)
       /\ (NoDup (map fst (active_notes (fst a))) ->
           NoDup (map fst (active_notes (fst b)))).
Proof.
  induction 1 as [|[w processed] f x y r Hab IH Hproc Hin Hshown Hcand Hact].
  - split; [reflexivity|]. split; [intros r; reflexivity|].
    split; [reflexivity|]. split; [reflexivity|].
    exists []. rewrite app_nil_r.
    split; [reflexivity|]. split; [reflexivity|]. split; [reflexivity|].
    split; [intros g _; split; reflexivity|].
    split; [intros g Hg; cbn; now rewrite Hg|].
    split; [intros r; now left | exact id].
  - cbn [fst snd] in *.
    destruct IH as (I1 & I2 & I3 & I4 & new & N1 & N2 & N3 & N4 & N5 & N6 & N7).
    assert (Hother : forall g, blocked hands zones a g -> f <> g).
    { intros g [Hg|[Hg|Hg]] ->.
      - apply Hproc, I1, Hg.
      - apply dict_in_true in Hg as [v Hv]. rewrite <- I4 in Hv
          by (apply dict_in_true; eauto).
        apply dict_in_false in Hin. congruence.
      - rewrite (candidate_zone_same_rects _ _ zones x y I2) in Hcand.
        pose proof (Hg x y r Hshown Hcand) as Ha.
        rewrite <- (I3 r Ha) in Ha. congruence. }
    unfold claim_step. cbn [fst snd Interaction.set_active_notes Interaction.set_zone
                              Interaction.emit active_notes zone_store issued audio_engine].
    split; [|split; [|split; [|split]]].
    + intros g Hg. apply elem_of_union. right. now apply I1.
    + intros r'. rewrite <- I2. destruct (decide (r = r')) as [<-|N].
      * now rewrite fn_lookup_insert.
      * now rewrite fn_lookup_insert_ne.
    + intros r' Hr'. rewrite <- (I3 r' Hr'). apply fn_lookup_insert_ne.
      intros ->. rewrite (I3 r' Hr') in Hact. congruence.
    + intros g Hg. rewrite dict_get_set.
      destruct (decide (f = g)) as [->|N]; [|now apply I4].
      apply dict_in_true in Hg as [v Hv]. rewrite <- I4 in Hv
        by (apply dict_in_true; eauto).
      apply dict_in_false in Hin. congruence.
    + eexists (new ++ [_]). rewrite N1, N2, <- app_assoc, foldl_app, forallb_app, N3.
      split; [reflexivity|]. split; [reflexivity|]. split; [reflexivity|].
      split; [|split; [|split]].
      * intros g Hg. pose proof (Hother g Hg) as Hne.
        rewrite List.filter_app, (proj1 (N4 g Hg)), dict_get_set. cbn [List.filter].
        unfold about. cbn [finger_of].
        rewrite bool_decide_eq_false_2 by assumption.
        destruct (decide (f = g)); [contradiction|]. split; [reflexivity|]. apply N4, Hg.
      * intros g Hg. rewrite List.filter_app, length_app, (N5 g Hg).
        cbn [List.filter]. unfold about. cbn [finger_of].
        unfold dict_in at 2. rewrite dict_get_set.
        destruct (decide (f = g)) as [->|N].
        -- rewrite Hin, bool_decide_eq_true_2 by reflexivity.
           rewrite bool_decide_eq_true_2 by eauto. reflexivity.
        -- rewrite bool_decide_eq_false_2 by assumption. cbn [length].
           fold (dict_in (active_notes w) g). lia.
      * intros r'. destruct (decide (r = r')) as [<-|N].
        -- rewrite fn_lookup_insert. right.
           destruct (N6 r) as [E|(g & n & v & E & _)].
           ++ rewrite E. do 3 eexists. split; [reflexivity|].
              apply in_or_app. right. now left.
           ++ rewrite E in Hact. discriminate.
        -- rewrite fn_lookup_insert_ne by assumption.
           destruct (N6 r') as [E|(g & n & v & E & Hn)]; [now left|].
           right. exists g, n, v. split; [assumption|]. apply in_or_app. now left.
      * intros Hnd. specialize (N7 Hnd). apply dict_in_false in Hin.
        rewrite dict_set_keys by assumption. apply list.NoDup_app.
        split; [assumption|]. split; [|apply NoDup_singleton].
        intros k Hk Hk'. apply list_elem_of_singleton in Hk' as ->.
        now apply (dict_get_None_keys _ _ Hin).
Qed.

(** *** What the commands of pass 1 do to the channel pool *)

Abbreviation midi_dispatch := (Audio.midi_dispatch pick).

Lemma midi_handler_dispatch (e : Audio.AudioEngine S) c :
  Audio.midi_handler (dispatch e c)
  = (fun mh => midi_dispatch mh c) <$> Audio.midi_handler e.
Proof. destruct c; reflexivity. Qed.

Lemma midi_handler_fold cs (e : Audio.AudioEngine S) :
  Audio.midi_handler (foldl dispatch e cs)
  = (fun mh => foldl midi_dispatch mh cs) <$> Audio.midi_handler e.
Proof.
  revert e. induction cs as [|c cs IH]; intros e; cbn [foldl].
  - now destruct (Audio.midi_handler e).
  - rewrite IH, midi_handler_dispatch. now destruct (Audio.midi_handler e).
Qed.

Lemma port_not_open_port_send mh msg :
  Midi.port_not_open (Midi.port_send mh msg) = Midi.port_not_open mh.
Proof. unfold Midi.port_not_open, Midi.port_send. cbn. now destruct (port mh). Qed.

(** A command other than note-on takes no channel and binds no finger. *)
Lemma quiet_step mh c :
  is_note_on c = false ->
  Midi.port_not_open (midi_dispatch mh c) = Midi.port_not_open mh
  /\ available_channels mh ⊆ available_channels (midi_dispatch mh c)
  /\ (forall g ch, active_note_channels (midi_dispatch mh c) !! g = Some ch ->
                   active_note_channels mh !! g = Some ch).
Proof.
  intros Hc. destruct c as [n v f|n f|b f|p f n]; [discriminate| | |];
    cbn [Audio.midi_dispatch];
    unfold Midi.send_note_off, Midi.send_pitch_bend, Midi.send_channel_pressure;
    destruct (Midi.port_not_open mh) eqn:Ep; try (now rewrite ?Ep);
    destruct (active_note_channels mh !! f) as [ch0|] eqn:Ef;
    rewrite ?port_not_open_port_send; try (now rewrite ?Ep).
  split; [exact Ep|]. cbn. split.
  - intros ch Hch. apply elem_of_union. now right.
  - intros g ch Hg. now apply lookup_delete_Some in Hg as [_ Hg].
Qed.

(** Only a note-off for [f] changes what [f] holds. *)
Lemma held_step mh c f :
  is_note_on c = false -> is_note_off c && about f c = false ->
  active_note_channels (midi_dispatch mh c) !! f = active_note_channels mh !! f.
Proof.
  intros Hc Hf. destruct c as [n v g|n g|b g|p g n]; [discriminate| | |];
    cbn [Audio.midi_dispatch];
    unfold Midi.send_note_off, Midi.send_pitch_bend, Midi.send_channel_pressure;
    destruct (Midi.port_not_open mh); try reflexivity;
    destruct (active_note_channels mh !! g) as [ch0|] eqn:Eg; try reflexivity.
  cbn. cbn in Hf. unfold about in Hf. cbn in Hf.
  apply bool_decide_eq_false in Hf. now apply lookup_delete_ne.
Qed.

Lemma returned_step mh n f ch :
  Midi.port_not_open mh = false -> active_note_channels mh !! f = Some ch ->
  ch ∈ available_channels (midi_dispatch mh (NoteOff n f))
  /\ active_note_channels (midi_dispatch mh (NoteOff n f)) !! f = None.
Proof.
  intros Ep Ef. cbn [Audio.midi_dispatch]. unfold Midi.send_note_off. rewrite Ep, Ef. cbn.
  split; [apply elem_of_union; left; now apply elem_of_singleton | apply lookup_delete_eq].
Qed.

Lemma returned_stays cs mh f ch :
  forallb (fun c => negb (is_note_on c)) cs = true ->
  ch ∈ available_channels mh -> active_note_channels mh !! f = None ->
  ch ∈ available_channels (foldl midi_dispatch mh cs)
  /\ active_note_channels (foldl midi_dispatch mh cs) !! f = None.
Proof.
  revert mh. induction cs as [|c cs IH]; intros mh Hq Hch Hf; [now split|].
  cbn [forallb] in Hq. apply andb_true_iff in Hq as [Hc Hq].
  apply negb_true_iff in Hc. destruct (quiet_step mh c Hc) as (_ & Hav & Hact).
  cbn [foldl]. apply IH; [assumption | now apply Hav |].
  destruct (active_note_channels (midi_dispatch mh c) !! f) as [ch'|] eqn:E; [|reflexivity].
  apply Hact in E. congruence.
Qed.

Lemma channel_returned cs mh f ch :
  forallb (fun c => negb (is_note_on c)) cs = true ->
  (exists n, In (NoteOff n f) cs) ->
  Midi.port_not_open mh = false -> active_note_channels mh !! f = Some ch ->
  ch ∈ available_channels (foldl midi_dispatch mh cs)
  /\ active_note_channels (foldl midi_dispatch mh cs) !! f = None.
Proof.
  revert mh. induction cs as [|c cs IH]; intros mh Hq (n & Hn) Ep Ef; [destruct Hn|].
  cbn [forallb] in Hq. apply andb_true_iff in Hq as [Hc Hq].
  apply negb_true_iff in Hc. cbn [foldl].
  destruct (is_note_off c && about f c) eqn:Ec.
  - apply andb_true_iff in Ec as [Ec1 Ec2].
    destruct c as [? ? g|n' g|? g|? g ?]; try discriminate.
    unfold about in Ec2. cbn in Ec2. apply bool_decide_eq_true in Ec2 as ->.
    destruct (returned_step mh n' f ch Ep Ef) as [H1 H2]. now apply returned_stays.
  - destruct Hn as [->|Hn].
    { cbn in Ec. unfold about in Ec. cbn in Ec.
      rewrite bool_decide_eq_true_2 in Ec by reflexivity. discriminate. }
    apply IH; [assumption | eauto | |].
    + now rewrite (proj1 (quiet_step mh c Hc)).
    + now rewrite held_step.
Qed.

(** *** The commands of one entry *)

Lemma calls_of_quiet store hands item :
  forallb (fun c => negb (is_note_on c)) (calls_of store hands item) = true.
Proof. unfold calls_of. now destruct (sustained _ _ _ _) as [[x y]|]. Qed.

Lemma calls_of_about store hands item :
  forallb (about (fst item)) (calls_of store hands item) = true.
Proof.
  unfold calls_of. destruct (sustained _ _ _ _) as [[x y]|]; cbn; unfold about; cbn;
    now rewrite ?bool_decide_eq_true_2.
Qed.

Lemma calls_of_released store hands f nd :
  is_sustained store hands (f, nd) = false ->
  calls_of store hands (f, nd) = [NoteOff (midi_note nd) f].
Proof.
  unfold is_sustained, calls_of. cbn [fst snd].
  now destruct (sustained store hands f nd) as [[x y]|].
Qed.

Lemma pass1_calls_quiet store hands items :
  forallb (fun c => negb (is_note_on c)) (flat_map (calls_of store hands) items) = true.
Proof.
  induction items as [|it items IH]; [reflexivity|].
  cbn [flat_map]. now rewrite forallb_app, calls_of_quiet, IH.
Qed.

Lemma filter_all {A} (p : A -> bool) l : forallb p l = true -> List.filter p l = l.
Proof.
  induction l as [|x l IH]; [reflexivity|]. cbn. intros H.
  apply andb_true_iff in H as [-> H]. now rewrite IH.
Qed.

Lemma filter_none {A} (p q : A -> bool) l :
  forallb q l = true -> (forall x, q x = true -> p x = false) -> List.filter p l = [].
Proof.
  induction l as [|x l IH]; [reflexivity|]. cbn. intros H Hpq.
  apply andb_true_iff in H as [Hx H]. now rewrite (Hpq x Hx), IH.
Qed.

Lemma about_other f g c : f <> g -> about f c = true -> about g c = false.
Proof.
  unfold about. intros N H. apply bool_decide_eq_true in H.
  apply bool_decide_eq_false. congruence.
Qed.

(** The commands of pass 1 about finger [f] are those of the entry of [f]. *)
Lemma pass1_calls_about store hands items f nd :
  NoDup (map fst items) -> In (f, nd) items ->
  List.filter (about f) (flat_map (calls_of store hands) items)
  = calls_of store hands (f, nd).
Proof.
  induction items as [|[k v] items IH]; intros Hnd Hin; [destruct Hin|].
  cbn [map fst] in Hnd. apply list.NoDup_cons in Hnd as [Hk Hnd].
  cbn [flat_map]. rewrite List.filter_app.
  destruct (decide (k = f)) as [->|N].
  - assert (v = nd) as ->.
    { destruct Hin as [[= ->]|Hin]; [reflexivity|]. exfalso. apply Hk.
      apply list_elem_of_In, in_map_iff. now exists (f, nd). }
    pose proof (filter_all _ _ (calls_of_about store hands (f, nd))) as Hown.
    cbn [fst] in Hown. rewrite Hown.
    assert (Hrest : List.filter (about f) (flat_map (calls_of store hands) items) = []).
    { clear - Hk. induction items as [|[k v] items IH]; [reflexivity|].
      cbn [map fst] in Hk. apply not_elem_of_cons in Hk as [Hne Hk].
      cbn [flat_map]. rewrite List.filter_app, (IH Hk), app_nil_r.
      apply (filter_none _ _ _ (calls_of_about store hands (k, v))).
      intros c. apply about_other. cbn. congruence. }
    now rewrite Hrest, app_nil_r.
  - destruct Hin as [[= -> ->]|Hin]; [contradiction|].
    rewrite (IH Hnd Hin).
    rewrite (filter_none _ _ _ (calls_of_about store hands (k, v))); [reflexivity|].
    intros c. now apply about_other.
Qed.

Lemma release_condition_not_sustained store hands f nd :
  release_condition store hands f nd -> is_sustained store hands (f, nd) = false.
Proof.
  unfold release_condition, is_sustained, sustained. cbn [fst snd].
  intros [->|(hand & -> & H)]; [reflexivity|].
  destruct (LANDMARK_ID_TO_FINGER_NAME f.2) as [name|]; [|reflexivity].
  destruct H as [H|[->|(x & y & d & -> & ->)]].
  - now rewrite (H name eq_refl).
  - now destruct (extended hand name).
  - now destruct (extended hand name).
Qed.

Lemma filter_both {A} (p q : A -> bool) l :
  List.filter (fun x => p x && q x) l = List.filter p (List.filter q l).
Proof.
  induction l as [|x l IH]; [reflexivity|]. cbn.
  destruct (q x); cbn; rewrite ?andb_true_r, ?andb_false_r; [|exact IH].
  destruct (p x); now rewrite IH.
Qed.

Lemma note_on_not_off c : is_note_on c = true -> is_note_off c = false.
Proof. now destruct c. Qed.

Lemma filter_singleton_In {A} (p : A -> bool) l :
  length (List.filter p l) = 1%nat -> exists x, In x l /\ p x = true.
Proof.
  destruct (List.filter p l) as [|x l'] eqn:E; [discriminate|]. intros _.
  exists x. apply filter_In. rewrite E. now left.
Qed.

Abbreviation release_pass := (Interaction.release_pass synth pick).
Abbreviation process_hands_data := (Interaction.process_hands_data synth pick target_fingers).

(** The frame in two halves. *)
Lemma frame_split hands zones (w : World S) :
  let a := release_pass hands w in
  claim_reach hands zones a (process_hands_data hands zones w, snd (Interaction.claim_pass synth pick target_fingers hands zones a)).
Proof.
  cbn zeta. unfold Interaction.process_hands_data.
  rewrite <- surjective_pairing. apply claim_pass_reach.
Qed.

Lemma calls_of_in_range store hands item :
  forallb in_midi_range (calls_of store hands item) = true.
Proof.
  unfold calls_of. destruct (sustained store hands (fst item) (snd item)) as [[x y]|];
    [|reflexivity].
  cbn [forallb in_midi_range].
  pose proof (calculate_pitch_bend_range (inject_Z x) (rect (store (zone (snd item))))).
  pose proof (calculate_initial_velocity_range (inject_Z y)
                (rect (store (zone (snd item))))) as Hv.
  change (VelocityIntensityProcessor.calculate_initial_velocity (inject_Z y)
            (rect (store (zone (snd item)))))
    with (VelocityIntensityProcessor.calculate_continuous_intensity (inject_Z y)
            (rect (store (zone (snd item))))) in Hv.
  rewrite !andb_true_iff, !Z.leb_le. lia.
Qed.

Lemma pass1_calls_in_range store hands items :
  forallb in_midi_range (flat_map (calls_of store hands) items) = true.
Proof.
  induction items as [|it items IH]; [reflexivity|].
  cbn [flat_map]. now rewrite forallb_app, calls_of_in_range, IH.
Qed.

Lemma claim_reach_in_range hands zones a b :
  claim_reach hands zones a b ->
  exists new, issued (fst b) = issued (fst a) ++ new
              /\ forallb in_midi_range new = true.
Proof.
  induction 1 as [|[w processed] f x y r Hab (new & E & Hall) Hproc Hin Hshown Hcand Hact].
  - exists []. now rewrite app_nil_r.
  - cbn [fst snd] in *. unfold Interaction.claim_step.
    cbn [fst set_active_notes set_zone emit issued].
    eexists (new ++ [_]). rewrite E, <- app_assoc. split; [reflexivity|].
    rewrite forallb_app, Hall. cbn [forallb in_midi_range].
    pose proof (calculate_initial_velocity_range (inject_Z y) (rect (zone_store w r))).
    rewrite !andb_true_iff, !Z.leb_le. lia.
Qed.

(** *** Messages that [mido] accepts *)

Lemma channels_on_wire_dispatch mh c :
  Midi.channels_on_wire mh -> Midi.channels_on_wire (midi_dispatch mh c).
Proof.
  intros H.
  assert (Hheld : forall g ch, active_note_channels mh !! g = Some ch -> 1 <= ch <= 16).
  { intros g ch Hg. apply H, elem_of_union. right. apply elem_of_map_img. eauto. }
  assert (Hfree : forall ch, ch ∈ available_channels mh -> 1 <= ch <= 16).
  { intros ch Hch. apply H, elem_of_union. now left. }
  destruct c as [n v f|n f|b f|p f n]; cbn [Audio.midi_dispatch];
    unfold Midi.send_note_on, Midi.send_note_off, Midi.send_pitch_bend,
      Midi.send_channel_pressure;
    destruct (Midi.port_not_open mh); try exact H;
    destruct (active_note_channels mh !! f) as [ch0|] eqn:Ef; try exact H.
  - destruct (Midi.set_pop _ _) as [[ch rest]|] eqn:Ep; [|exact H].
    apply set_pop_Some in Ep as [Hch ->].
    intros c' Hc'. unfold Midi.held in Hc'. cbn in Hc'.
    apply elem_of_union in Hc' as [Hc'|Hc'].
    + apply Hfree. now apply elem_of_difference in Hc' as [Hc' _].
    + apply elem_of_map_img in Hc' as (g & Hg).
      apply lookup_insert_Some in Hg as [[_ <-]|[_ Hg]]; eauto.
  - intros c' Hc'. unfold Midi.held in Hc'. cbn in Hc'.
    apply elem_of_union in Hc' as [Hc'|Hc'].
    + apply elem_of_union in Hc' as [Hc'|Hc']; [|now apply Hfree].
      apply elem_of_singleton in Hc' as ->. eauto.
    + apply elem_of_map_img in Hc' as (g & Hg).
      apply lookup_delete_Some in Hg as [_ Hg]. eauto.
Qed.

Lemma dispatch_accepted mh c :
  Midi.channels_on_wire mh -> in_midi_range c = true -> note_in_range c = true ->
  exists msgs,
    Midi.sent_messages (midi_dispatch mh c) = Midi.sent_messages mh ++ msgs
    /\ forallb Mido.valid msgs = true.
Proof.
  intros H Hr Hn.
  assert (Hheld : forall g ch, active_note_channels mh !! g = Some ch -> 1 <= ch <= 16).
  { intros g ch Hg. apply H, elem_of_union. right. apply elem_of_map_img. eauto. }
  assert (Hfree : forall ch, ch ∈ available_channels mh -> 1 <= ch <= 16).
  { intros ch Hch. apply H, elem_of_union. now left. }
  assert (Hnil : exists msgs, Midi.sent_messages mh = Midi.sent_messages mh ++ msgs
                              /\ forallb Mido.valid msgs = true)
    by (exists []; now rewrite app_nil_r).
  assert (Hone : forall msg avail active,
             Midi.port_not_open mh = false -> Mido.valid msg = true ->
             exists msgs,
               Midi.sent_messages (Midi.port_send (Midi.set_channels mh avail active) msg)
               = Midi.sent_messages mh ++ msgs
               /\ forallb Mido.valid msgs = true).
  { intros msg avail active Hp Hv. exists [msg]. split.
    - now rewrite sent_messages_port_send.
    - cbn. now rewrite Hv. }
  assert (Hsame : forall msg,
             Midi.port_not_open mh = false -> Mido.valid msg = true ->
             exists msgs,
               Midi.sent_messages (Midi.port_send mh msg) = Midi.sent_messages mh ++ msgs
               /\ forallb Mido.valid msgs = true).
  { intros msg Hp Hv. exists [msg]. split.
    - now rewrite sent_messages_port_send.
    - cbn. now rewrite Hv. }
  assert (Hch : forall ch, 1 <= ch <= 16 -> (0 <=? ch - 1) && (ch - 1 <=? 15) = true).
  { intros ch Hc. apply andb_true_iff. rewrite !Z.leb_le. lia. }
  destruct c as [n v f|n f|b f|p f n]; cbn [Audio.midi_dispatch];
    cbn [in_midi_range note_in_range] in Hr, Hn;
    unfold Midi.send_note_on, Midi.send_note_off, Midi.send_pitch_bend,
      Midi.send_channel_pressure;
    destruct (Midi.port_not_open mh) eqn:Hp; try exact Hnil;
    destruct (active_note_channels mh !! f) as [ch0|] eqn:Ef; try exact Hnil.
  - apply Hsame; [reflexivity|]. cbn [Mido.valid]. unfold Mido.data_byte in *.
    rewrite Hn, Hr, <- andb_assoc, (Hch ch0) by eauto. reflexivity.
  - destruct (Midi.set_pop _ _) as [[ch rest]|] eqn:Ep; [|exact Hnil].
    apply set_pop_Some in Ep as [Hc ->].
    apply Hone; [reflexivity|]. cbn [Mido.valid]. unfold Mido.data_byte in *.
    rewrite Hn, Hr, <- andb_assoc, (Hch ch) by eauto. reflexivity.
  - apply Hone; [reflexivity|]. cbn [Mido.valid]. unfold Mido.data_byte in *.
    rewrite Hn, <- andb_assoc, (Hch ch0) by eauto. reflexivity.
  - apply Hsame; [reflexivity|]. cbn [Mido.valid].
    rewrite <- andb_assoc, (Hch ch0) by eauto.
    apply andb_true_iff in Hr as [H1 H2]. rewrite Z.leb_le in H1, H2.
    rewrite andb_true_r. apply andb_true_iff. rewrite !Z.leb_le. lia.
  - apply Hsame; [reflexivity|]. cbn [Mido.valid]. unfold Mido.data_byte.
    rewrite Hr, <- andb_assoc, (Hch ch0) by eauto. reflexivity.
Qed.

Lemma channels_on_wire_fold cs mh :
  Midi.channels_on_wire mh -> Midi.channels_on_wire (foldl midi_dispatch mh cs).
Proof.
  revert mh. induction cs as [|c cs IH]; intros mh H; [exact H|].
  cbn [foldl]. apply IH, channels_on_wire_dispatch, H.
Qed.

Lemma fold_accepted cs mh :
  Midi.channels_on_wire mh ->
  forallb in_midi_range cs = true -> forallb note_in_range cs = true ->
  exists msgs,
    Midi.sent_messages (foldl midi_dispatch mh cs) = Midi.sent_messages mh ++ msgs
    /\ forallb Mido.valid msgs = true.
Proof.
  revert mh. induction cs as [|c cs IH]; intros mh H Hr Hn.
  - exists []. now rewrite app_nil_r.
  - cbn [forallb foldl] in *.
    apply andb_true_iff in Hr as [Hr1 Hr]. apply andb_true_iff in Hn as [Hn1 Hn].
    destruct (dispatch_accepted mh c H Hr1 Hn1) as (m1 & E1 & V1).
    destruct (IH _ (channels_on_wire_dispatch mh c H) Hr Hn) as (m2 & E2 & V2).
    exists (m1 ++ m2). rewrite E2, E1, <- app_assoc, forallb_app, V1, V2. now split.
Qed.

(** *** The notes of a frame are the notes of the zones *)

Lemma dict_set_In {V} (d : list (FingerId * V)) k v g x :
  In (g, x) (dict_set d k v) -> In (g, x) d \/ (g, x) = (k, v).
Proof.
  induction d as [|[k0 v0] d IH]; cbn [dict_set].
  - intros [E|[]]. now right.
  - destruct (bool_decide (k0 = k)).
    + intros [E|H]; [now right | left; now right].
    + intros [E|H]; [left; now left|]. destruct (IH H) as [H'|H']; [left; now right | now right].
Qed.

Lemma note_deactivate z : note_midi_value (Zone.deactivate z) = note_midi_value z.
Proof. reflexivity. Qed.

Lemma release_pass_notes hands (w : World S) r :
  note_midi_value (zone_store (fst (release_pass hands w)) r)
  = note_midi_value (zone_store w r).
Proof.
  destruct (release_pass_spec hands w) as (_ & _ & D & _). cbv zeta in D.
  rewrite D. now destruct (releases_zone _ _ _ r).
Qed.

Lemma pass1_calls_notes store hands items :
  (forall f nd, In (f, nd) items -> 0 <= midi_note nd <= 127) ->
  forallb note_in_range (flat_map (calls_of store hands) items) = true.
Proof.
  induction items as [|[f nd] items IH]; intros H; [reflexivity|].
  cbn [flat_map]. rewrite forallb_app, IH by (intros; eapply H; right; eassumption).
  rewrite andb_true_r. unfold calls_of. cbn [fst snd].
  destruct (sustained store hands f nd) as [[x y]|]; [reflexivity|].
  cbn. unfold Mido.data_byte. rewrite andb_true_r. apply andb_true_iff.
  rewrite !Z.leb_le. apply (H f nd). now left.
Qed.

(** Pass 2 keeps the note of every zone; its note-ons and its new entries
    carry notes of zones. *)
Lemma claim_reach_notes hands zones a b :
  claim_reach hands zones a b ->
  (forall r, note_midi_value (zone_store (fst b) r) = note_midi_value (zone_store (fst a) r))
  /\ (forall f nd, In (f, nd) (active_notes (fst b)) ->
        In (f, nd) (active_notes (fst a))
        \/ exists r, midi_note nd = note_midi_value (zone_store (fst a) r))
  /\ exists new,
       issued (fst b) = issued (fst a) ++ new
       /\ forall c, In c new ->
            exists r v f, c = NoteOn (note_midi_value (zone_store (fst a) r)) v f.
Proof.
  induction 1 as [|[w processed] f x y r Hab (I1 & I2 & new & E & Hnew)
                    Hproc Hin Hshown Hcand Hact].
  - split; [reflexivity|]. split; [intros f nd Hf; now left|].
    exists []. rewrite app_nil_r. split; [reflexivity | intros c []].
  - cbn [fst snd] in *. unfold Interaction.claim_step.
    cbn [fst set_active_notes set_zone emit issued zone_store active_notes].
    split; [|split].
    + intros r'. destruct (decide (r = r')) as [<-|N].
      * rewrite fn_lookup_insert. cbn. apply I1.
      * rewrite fn_lookup_insert_ne by assumption. apply I1.
    + intros g nd Hg. apply dict_set_In in Hg as [Hg|[= -> ->]]; [now apply I2|].
      right. exists r. cbn. apply I1.
    + eexists (new ++ [_]). rewrite E, <- app_assoc. split; [reflexivity|].
      intros c Hc. apply in_app_or in Hc as [Hc|[<-|[]]]; [now apply Hnew|].
      exists r. rewrite <- I1. eauto.
Qed.

(** A frame on notes and channels that [mido] accepts builds only
    messages that [mido] accepts, and leaves such notes and channels. *)
Lemma frame_accepted hands zones (w : World S) :
  mido_accepts w ->
  let w2 := process_hands_data hands zones w in
  mido_accepts w2
  /\ forall mh, Audio.midi_handler (audio_engine w) = Some mh ->
       exists mh2 msgs,
         Audio.midi_handler (audio_engine w2) = Some mh2
         /\ Midi.sent_messages mh2 = Midi.sent_messages mh ++ msgs
         /\ forallb Mido.valid msgs = true.
Proof.
  intros (Hzones & Hbind & Hwire) w2. subst w2.
  destruct (release_pass_spec hands w)
    as (R1 & R2 & _ & _ & remove & Hnotes & _).
  cbv zeta in R1, R2, Hnotes.
  pose proof (frame_split hands zones w) as Hreach.
  cbv zeta in Hreach.
  destruct (claim_reach_inv _ _ _ _ Hreach)
    as (_ & _ & _ & _ & new & N1 & N2 & _).
  destruct (claim_reach_in_range _ _ _ _ Hreach) as (new' & N1' & Hrange).
  destruct (claim_reach_notes _ _ _ _ Hreach) as (K1 & K2 & new'' & N1'' & Hnew).
  cbn [fst snd] in *.
  assert (new' = new) as -> by (rewrite N1 in N1'; now apply app_inv_head in N1').
  assert (new'' = new) as -> by (rewrite N1 in N1''; now apply app_inv_head in N1'').
  set (calls1 := flat_map (calls_of (zone_store w) hands) (active_notes w)) in *.
  assert (Hengine : audio_engine (process_hands_data hands zones w)
                    = foldl dispatch (audio_engine w) (calls1 ++ new))
    by now rewrite N2, R2, foldl_app.
  assert (Hr : forallb in_midi_range (calls1 ++ new) = true)
    by (unfold calls1; now rewrite forallb_app, pass1_calls_in_range, Hrange).
  assert (Hn : forallb note_in_range (calls1 ++ new) = true).
  { unfold calls1. rewrite forallb_app, (pass1_calls_notes _ _ _ Hbind). cbn [andb].
    apply forallb_forall. intros c Hc. destruct (Hnew c Hc) as (r & v & f & ->).
    cbn. rewrite release_pass_notes. unfold Mido.data_byte. apply andb_true_iff.
    rewrite !Z.leb_le. apply Hzones. }
  split; [split; [|split]|].
  - intros r. rewrite K1, release_pass_notes. apply Hzones.
  - intros f nd Hf. destruct (K2 f nd Hf) as [Hold|(r & ->)].
    + rewrite Hnotes in Hold. apply filter_In in Hold as [Hold _]. eauto.
    + rewrite release_pass_notes. apply Hzones.
  - intros mh2. rewrite Hengine, midi_handler_fold.
    destruct (Audio.midi_handler (audio_engine w)) as [mh|] eqn:Emh; [|discriminate].
    intros [= <-]. apply channels_on_wire_fold. now apply Hwire.
  - intros mh Hmh. rewrite Hengine, midi_handler_fold, Hmh.
    destruct (fold_accepted (calls1 ++ new) mh (Hwire mh Hmh) Hr Hn) as (msgs & E & V).
    exists (foldl midi_dispatch mh (calls1 ++ new)), msgs. now split.
Qed.

(** *** What the note-ons of pass 2 do to the channel pool *)

Lemma dispatch_other mh c g :
  finger_of c <> g ->
  active_note_channels (midi_dispatch mh c) !! g = active_note_channels mh !! g.
Proof.
  intros Hne. destruct c as [n v f|n f|b f|p f n]; cbn [Audio.midi_dispatch finger_of] in *;
    unfold Midi.send_note_on, Midi.send_note_off, Midi.send_pitch_bend,
      Midi.send_channel_pressure;
    destruct (Midi.port_not_open mh); try reflexivity;
    destruct (active_note_channels mh !! f) eqn:Ef; try reflexivity.
  - destruct (Midi.set_pop _ _) as [[c rest]|]; [|reflexivity].
    cbn. now rewrite lookup_insert_ne.
  - cbn. now rewrite lookup_delete_ne.
Qed.

Lemma dispatch_others cs mh g :
  List.filter (about g) cs = [] ->
  active_note_channels (foldl midi_dispatch mh cs) !! g = active_note_channels mh !! g.
Proof.
  revert mh. induction cs as [|c cs IH]; intros mh H; [reflexivity|].
  cbn [List.filter foldl] in *. unfold about in H at 1.
  destruct (bool_decide (finger_of c = g)) eqn:E; [discriminate|].
  apply bool_decide_eq_false in E. rewrite IH by exact H. now apply dispatch_other.
Qed.

(** A free channel stays free through a run of note-ons, unless one of
    them hands it to its finger. *)
Lemma note_ons_channel cs mh ch :
  forallb is_note_on cs = true ->
  ch ∈ available_channels mh ->
  ch ∈ available_channels (foldl midi_dispatch mh cs)
  \/ exists g n v,
       In (NoteOn n v g) cs
       /\ active_note_channels (foldl midi_dispatch mh cs) !! g = Some ch.
Proof.
  intros Hall Hch. induction cs as [|k cs IH] using rev_ind; [now left|].
  rewrite forallb_app in Hall. apply andb_true_iff in Hall as [Hall Hk].
  cbn [forallb] in Hk. rewrite andb_true_r in Hk.
  destruct k as [n v h| | |]; try discriminate.
  rewrite foldl_app. cbn [foldl Audio.midi_dispatch].
  set (mh' := foldl midi_dispatch mh cs) in *.
  specialize (IH Hall).
  assert (Hkeep : forall st, available_channels st = available_channels mh' ->
                    active_note_channels st = active_note_channels mh' ->
                    ch ∈ available_channels st
                    \/ exists g n0 v0,
                         In (NoteOn n0 v0 g) (cs ++ [NoteOn n v h])
                         /\ active_note_channels st !! g = Some ch).
  { intros st -> ->. destruct IH as [IH|(g & n0 & v0 & Hin & Hg)]; [now left|].
    right. exists g, n0, v0. split; [apply in_or_app; now left | exact Hg]. }
  unfold Midi.send_note_on.
  destruct (Midi.port_not_open mh'); [now apply Hkeep|].
  destruct (active_note_channels mh' !! h) as [ch0|] eqn:Eh; [now apply Hkeep|].
  destruct (Midi.set_pop _ _) as [[ch1 rest]|] eqn:Ep; [|now apply Hkeep].
  apply set_pop_Some in Ep as [Hch1 ->]. cbn.
  destruct IH as [IH|(g & n0 & v0 & Hin & Hg)].
  - destruct (decide (ch = ch1)) as [->|N].
    + right. exists h, n, v. split; [apply in_or_app; right; now left|].
      apply lookup_insert_eq.
    + left. apply elem_of_difference. split; [exact IH|].
      now rewrite elem_of_singleton.
  - right. exists g, n0, v0. split; [apply in_or_app; now left|].
    rewrite lookup_insert_ne; [exact Hg|]. intros ->. congruence.
Qed.

Lemma no_note_on_about f new :
  forallb is_note_on new = true ->
  (forall n v, ~ In (NoteOn n v f) new) ->
  List.filter (about f) new = [].
Proof.
  intros Hall Hno. induction new as [|k new IH]; [reflexivity|].
  cbn [forallb] in Hall. apply andb_true_iff in Hall as [Hk Hall].
  cbn [List.filter]. rewrite IH; [|exact Hall|intros n v Hin; apply (Hno n v); now right].
  destruct k as [n v g| | |]; try discriminate.
  unfold about. cbn [finger_of].
  destruct (decide (g = f)) as [->|N].
  - exfalso. apply (Hno n v). now left.
  - now rewrite bool_decide_eq_false_2.
Qed.

(** C3 (amended).  Release completeness.  Take a sounding note: finger
    [f] bound to the zone [zone nd] with note [midi_note nd], holding
    channel [c] of a MIDI handler whose port is open, in a world whose
    notes and channels [mido] accepts.  If in the next frame the hand of
    [f] is absent, or its finger is not extended, or the fingertip landmark
    is missing, or the fingertip is outside the zone, then
    [process_hands_data] issues exactly one note-off about [f], the one
    for that note, and every message it gives to the port is one [mido]
    accepts.  When its first pass has ended the zone is free, the entry of
    [f] is removed from [active_notes] and [c] is back in the available
    set.  The second pass of the same frame runs on that state and can
    undo each of the three, only through a new note-on: at the end of the
    frame [f] is bound, or holds a channel, only if it got a new note-on;
    the zone is active only for a finger that got a new note-on; [c] is
    missing from the available set only if a finger that got a new note-on
    holds it.  In a frame without a new note-on the three hold at the end
    of the frame as well. *)
Theorem release_completeness hands zones (w : World S) f nd mh c :
  NoDup (map fst (active_notes w)) ->
  dict_get (active_notes w) f = Some nd ->
  Audio.midi_handler (audio_engine w) = Some mh ->
  Midi.port_not_open mh = false ->
  active_note_channels mh !! f = Some c ->
  mido_accepts w ->
  release_condition (zone_store w) hands f nd ->
  let w1 := fst (release_pass hands w) in
  let w2 := process_hands_data hands zones w in
  exists new mh1 mh2 msgs,
    issued w2 = issued w ++ new
    /\ List.filter (fun k => is_note_off k && about f k) new = [NoteOff (midi_note nd) f]
    /\ Audio.midi_handler (audio_engine w1) = Some mh1
    /\ Audio.midi_handler (audio_engine w2) = Some mh2
    /\ Midi.sent_messages mh2 = Midi.sent_messages mh ++ msgs
    /\ forallb Mido.valid msgs = true
    /\ is_active (zone_store w1 (zone nd)) = false
    /\ active_finger_id (zone_store w1 (zone nd)) = None
    /\ dict_get (active_notes w1) f = None
    /\ c ∈ available_channels mh1
    /\ active_note_channels mh1 !! f = None
    /\ (dict_in (active_notes w2) f = true -> exists n v, In (NoteOn n v f) new)
    /\ (is_Some (active_note_channels mh2 !! f) -> exists n v, In (NoteOn n v f) new)
    /\ (is_active (zone_store w2 (zone nd)) = true ->
        exists g n v, active_finger_id (zone_store w2 (zone nd)) = Some g
                      /\ In (NoteOn n v g) new)
    /\ (c ∉ available_channels mh2 ->
        exists g n v, active_note_channels mh2 !! g = Some c /\ In (NoteOn n v g) new)
    /\ (forallb (fun k => negb (is_note_on k)) new = true ->
        released_at_frame_end synth pick target_fingers hands zones w f nd c).
Proof.
  intros Hnd Hget Hmh Hopen Hch Hok Hrel w1 w2.
  pose proof (dict_get_In _ _ _ Hget) as Hin.
  pose proof (release_condition_not_sustained _ _ _ _ Hrel) as Hsus.
  destruct (release_pass_spec hands w) as (B & C & D & E & R & A & F).
  fold w1 in B, C, D, A.
  set (calls1 := flat_map (calls_of (zone_store w) hands) (active_notes w)) in *.
  assert (Hz : zone_store w1 (zone nd) = Zone.deactivate (zone_store w (zone nd))).
  { rewrite D.
    assert (releases_zone (zone_store w) hands (active_notes w) (zone nd) = true) as ->;
      [|reflexivity].
    apply existsb_exists. exists (f, nd). split; [assumption|].
    rewrite Hsus. cbn. now rewrite bool_decide_eq_true_2. }
  assert (Hf1 : dict_get (active_notes w1) f = None).
  { rewrite A.
    refine (dict_get_filter_out (active_notes w)
              (fun k => negb (bool_decide (k ∈ R))) f _).
    rewrite bool_decide_eq_true_2; [reflexivity|]. apply F. eauto. }
  pose proof (frame_split hands zones w) as Hreach.
  cbn zeta in Hreach.
  apply claim_reach_inv in Hreach.
  destruct Hreach as (_ & _ & _ & _ & new2 & N1 & N2 & N3 & _ & N5 & N6 & _).
  cbn [fst snd] in N1, N2, N5, N6. fold w1 w2 in N1, N2, N5, N6.
  set (mh1 := foldl midi_dispatch mh calls1).
  set (mh2 := foldl midi_dispatch mh1 new2).
  assert (Hmh1 : Audio.midi_handler (audio_engine w1) = Some mh1)
    by (now rewrite C, midi_handler_fold, Hmh).
  assert (Hmh2 : Audio.midi_handler (audio_engine w2) = Some mh2)
    by (now rewrite N2, midi_handler_fold, Hmh1).
  destruct (channel_returned calls1 mh f c) as [Hfree Hnone]; try assumption.
  { apply pass1_calls_quiet. }
  { exists (midi_note nd). apply in_flat_map. exists (f, nd). split; [assumption|].
    rewrite calls_of_released by assumption. now left. }
  fold mh1 in Hfree, Hnone.
  destruct (frame_accepted hands zones w Hok) as [_ Hmsgs].
  destruct (Hmsgs mh Hmh) as (mh2' & msgs & Hmh2' & Hsent & Hvalid).
  fold w2 in Hmh2'. rewrite Hmh2 in Hmh2'. injection Hmh2' as <-.
  assert (Hbound : dict_in (active_notes w2) f = true -> exists n v, In (NoteOn n v f) new2).
  { intros Hb. specialize (N5 f (proj2 (dict_in_false _ _) Hf1)). rewrite Hb in N5.
    apply filter_singleton_In in N5 as (k & Hk & Hab).
    pose proof (proj1 (forallb_forall _ _) N3 k Hk) as Hon.
    destruct k as [n v g| | |]; try discriminate.
    unfold about in Hab. cbn in Hab. apply bool_decide_eq_true in Hab as ->. eauto. }
  assert (Hholds : is_Some (active_note_channels mh2 !! f) ->
                   exists n v, In (NoteOn n v f) new2).
  { intros Hs.
    destruct (dict_in (active_notes w2) f) eqn:Eb; [now apply Hbound|]. exfalso.
    specialize (N5 f (proj2 (dict_in_false _ _) Hf1)). rewrite Eb in N5.
    apply length_zero_iff_nil in N5.
    unfold mh2 in Hs. rewrite (dispatch_others new2 mh1 f N5), Hnone in Hs.
    now destruct Hs. }
  assert (Hzone : is_active (zone_store w2 (zone nd)) = true ->
                  exists g n v, active_finger_id (zone_store w2 (zone nd)) = Some g
                                /\ In (NoteOn n v g) new2).
  { intros Ha. destruct (N6 (zone nd)) as [E6|(g & n & v & E6 & Hn)].
    - rewrite E6, Hz in Ha. discriminate.
    - exists g, n, v. rewrite E6. now split. }
  assert (Hpool : c ∉ available_channels mh2 ->
                  exists g n v, active_note_channels mh2 !! g = Some c
                                /\ In (NoteOn n v g) new2).
  { intros Hc. destruct (note_ons_channel new2 mh1 c N3 Hfree) as [H|(g & n & v & H1 & H2)].
    - contradiction.
    - exists g, n, v. now split. }
  assert (Hfilter : List.filter (fun k => is_note_off k && about f k) (calls1 ++ new2)
                    = [NoteOff (midi_note nd) f]).
  { rewrite List.filter_app.
    rewrite (filter_none _ _ new2 N3)
      by (intros k Hk; now rewrite (note_on_not_off k Hk)).
    rewrite app_nil_r, filter_both. unfold calls1.
    rewrite (pass1_calls_about _ _ _ _ _ Hnd Hin), calls_of_released by assumption.
    reflexivity. }
  assert (Hissued : issued w2 = issued w ++ calls1 ++ new2)
    by (now rewrite N1, B, app_assoc).
  assert (Hlift : forall g, (exists n v, In (NoteOn n v g) new2) ->
                            exists n v, In (NoteOn n v g) (calls1 ++ new2)).
  { intros g (n & v & H). exists n, v. apply in_or_app. now right. }
  exists (calls1 ++ new2), mh1, mh2, msgs.
  split; [exact Hissued|]. split; [exact Hfilter|]. split; [exact Hmh1|].
  split; [exact Hmh2|]. split; [exact Hsent|]. split; [exact Hvalid|].
  split; [now rewrite Hz|]. split; [now rewrite Hz|]. split; [exact Hf1|].
  split; [exact Hfree|]. split; [exact Hnone|].
  split; [intros H; apply Hlift, Hbound, H|].
  split; [intros H; apply Hlift, Hholds, H|].
  split; [intros H; destruct (Hzone H) as (g & n & v & H1 & H2); exists g, n, v;
          split; [exact H1 | apply in_or_app; now right]|].
  split; [intros H; destruct (Hpool H) as (g & n & v & H1 & H2); exists g, n, v;
          split; [exact H1 | apply in_or_app; now right]|].
  intros Hquiet. rewrite forallb_app in Hquiet. apply andb_true_iff in Hquiet as [_ Hquiet].
  assert (Hnil : new2 = []).
  { destruct new2 as [|k new2]; [reflexivity|]. cbn [forallb] in N3, Hquiet.
    apply andb_true_iff in N3 as [N3 _]. apply andb_true_iff in Hquiet as [Hq _].
    rewrite N3 in Hq. discriminate. }
  assert (Hnone_on : forall g, ~ exists n v, In (NoteOn n v g) new2)
    by (intros g (n & v & H); rewrite Hnil in H; destruct H).
  unfold released_at_frame_end. fold w2.
  split; [exists (calls1 ++ new2); now split|].
  destruct (N6 (zone nd)) as [E6|(g & n & v & _ & Hn)];
    [|exfalso; apply (Hnone_on g); eauto].
  split; [now rewrite E6, Hz|]. split; [now rewrite E6, Hz|]. split.
  - apply dict_in_false. destruct (dict_in (active_notes w2) f) eqn:Eb; [|reflexivity].
    exfalso. apply (Hnone_on f). now apply Hbound.
  - exists mh2. split; [exact Hmh2|]. split.
    + destruct (decide (c ∈ available_channels mh2)) as [H|H]; [exact H|].
      exfalso. destruct (Hpool H) as (g & n & v & _ & Hg). apply (Hnone_on g). eauto.
    + destruct (active_note_channels mh2 !! f) as [c'|] eqn:Ec; [|reflexivity].
      exfalso. apply (Hnone_on f). apply Hholds. eauto.
Qed.


(** *** A note that goes on sounding *)

(** C6 (amended).  [activate] has no guard: on a zone that is claimed by
    [f1] it leaves the zone active and makes [f2] its owner, geometry and
    note unchanged; for [f2] other than [f1] the zone is not what it was.
    The guard is the caller's.  In [process_hands_data] the loop over the
    zones, the only caller of [activate], does nothing at all for a
    fingertip whose first containing zone is active.  So every zone that
    the second pass changes was not active when that pass started, and is
    changed by one [activate]; a zone that was claimed at that point is at
    the end of the frame what it was, with the same owner. *)
Theorem activate_overwrites_owner (z : NoteZone) (f1 f2 : FingerId)
    (hands : list Hand) (zones : list ZoneRef) (w : World S) :
  is_active z = true -> active_finger_id z = Some f1 ->
  (is_active (Zone.activate z f2) = true
   /\ active_finger_id (Zone.activate z f2) = Some f2
   /\ rect (Zone.activate z f2) = rect z
   /\ note_midi_value (Zone.activate z f2) = note_midi_value z
   /\ (f2 <> f1 -> Zone.activate z f2 <> z))
  /\ (forall g x y w' processed r,
        candidate_zone (zone_store w') zones x y = Some r ->
        is_active (zone_store w' r) = true ->
        try_zones synth pick g x y zones (w', processed) = (w', processed))
  /\ (let w1 := fst (release_pass hands w) in
      let w2 := process_hands_data hands zones w in
      (forall r,
         zone_store w2 r = zone_store w1 r
         \/ (is_active (zone_store w1 r) = false
             /\ exists g, zone_store w2 r = Zone.activate (zone_store w1 r) g))
      /\ (forall r, zone_store w1 r = z -> zone_store w2 r = z)).
Proof.
  intros Ha Ho. split; [|split].
  - repeat split. intros Hne E.
    apply (f_equal active_finger_id) in E. cbn in E. congruence.
  - intros g x y w' processed r Hcand Hact.
    now rewrite try_zones_spec, Hcand, Hact.
  - cbv zeta.
    pose proof (frame_split hands zones w) as Hreach.
    cbv zeta in Hreach. apply claim_reach_inv in Hreach.
    destruct Hreach as (_ & _ & I3 & _ & new & _ & _ & _ & _ & _ & N6 & _).
    cbn [fst snd] in I3, N6. split.
    + intros r. destruct (N6 r) as [E|(g & n & v & E & _)]; [now left|].
      destruct (is_active (zone_store (fst (release_pass hands w)) r)) eqn:Er.
      * left. now apply I3.
      * right. split; [reflexivity|]. now exists g.
    + intros r Hr. rewrite <- Hr. apply I3. now rewrite Hr.
Qed.

Lemma keys_unique_value {V} (d : list (FingerId * V)) k v v' :
  NoDup (map fst d) -> In (k, v) d -> In (k, v') d -> v = v'.
Proof.
  induction d as [|[k0 v0] d IH]; intros Hnd H1 H2; [destruct H1|].
  cbn [map fst] in Hnd. apply list.NoDup_cons in Hnd as [Hk Hnd].
  assert (Hout : forall u, In (k0, u) d -> False).
  { intros u Hu. apply Hk, list_elem_of_In, in_map_iff. now exists (k0, u). }
  destruct H1 as [E1|H1], H2 as [E2|H2].
  - congruence.
  - injection E1 as -> ->. exfalso; eauto.
  - injection E2 as -> ->. exfalso; eauto.
  - eauto.
Qed.

Lemma keys_unique_filter {V} (d : list (FingerId * V)) (p : FingerId * V -> bool) :
  NoDup (map fst d) -> NoDup (map fst (List.filter p d)).
Proof.
  induction d as [|[k0 v0] d IH]; intros Hnd; [assumption|].
  cbn [map fst] in Hnd. apply list.NoDup_cons in Hnd as [Hk Hnd].
  cbn [List.filter]. destruct (p (k0, v0)); [|now apply IH].
  cbn [map fst]. apply list.NoDup_cons. split; [|now apply IH].
  intros Hin. apply Hk. apply list_elem_of_In in Hin. apply list_elem_of_In.
  apply in_map_iff in Hin as (kv & Hkv & Hin). apply filter_In in Hin as [Hin _].
  apply in_map_iff. eauto.
Qed.

Lemma pass1_calls_not_about store hands items f :
  f ∉ map fst items ->
  List.filter (about f) (flat_map (calls_of store hands) items) = [].
Proof.
  induction items as [|[k v] items IH]; intros Hk; [reflexivity|].
  cbn [map fst] in Hk. apply not_elem_of_cons in Hk as [Hne Hk].
  cbn [flat_map]. rewrite List.filter_app, (IH Hk), app_nil_r.
  apply (filter_none _ _ _ (calls_of_about store hands (k, v))).
  intros c. apply about_other. cbn. congruence.
Qed.

(** One frame in which the finger of a sounding note stays where it
    sounds: two commands about it, a pitch bend and an intensity update. *)
Lemma sustain_frame hands zones (w : World S) f nd x y :
  NoDup (map fst (active_notes w)) ->
  dict_get (active_notes w) f = Some nd ->
  sustained (zone_store w) hands f nd = Some (x, y) ->
  let w2 := process_hands_data hands zones w in
  (exists new,
     issued w2 = issued w ++ new
     /\ List.filter (about f) new
        = [PitchBend
             (PitchBendProcessor.calculate_pitch_bend (inject_Z x)
                (rect (zone_store w (zone nd)))) f;
           IntensityUpdate
             (VelocityIntensityProcessor.calculate_continuous_intensity (inject_Z y)
                (rect (zone_store w (zone nd)))) f (midi_note nd)])
  /\ dict_get (active_notes w2) f = Some nd
  /\ same_rects (zone_store w2) (zone_store w)
  /\ NoDup (map fst (active_notes w2)).
Proof.
  intros Hnd Hget Hs w2.
  pose proof (dict_get_In _ _ _ Hget) as Hin.
  assert (Hsus : is_sustained (zone_store w) hands (f, nd) = true).
  { unfold is_sustained. cbn [fst snd]. now rewrite Hs. }
  destruct (release_pass_spec hands w) as (B & C & D & E & R & A & F).
  set (w1 := fst (release_pass hands w)) in *.
  set (calls1 := flat_map (calls_of (zone_store w) hands) (active_notes w)) in *.
  assert (Hrects : same_rects (zone_store w1) (zone_store w)).
  { intros r. rewrite D. now destruct (releases_zone _ _ _ r). }
  assert (Hkeep : bool_decide (f ∈ R) = false).
  { apply bool_decide_eq_false. intros HR. apply F in HR as (nd' & Hin' & Hn).
    rewrite (keys_unique_value _ _ _ _ Hnd Hin' Hin) in Hn. congruence. }
  assert (Hf1 : dict_get (active_notes w1) f = Some nd).
  { rewrite A, <- Hget.
    refine (dict_get_filter_keep (active_notes w)
              (fun k => negb (bool_decide (k ∈ R))) f _).
    now rewrite Hkeep. }
  pose proof (frame_split hands zones w) as Hreach. cbn zeta in Hreach.
  apply claim_reach_inv in Hreach.
  destruct Hreach as (_ & I2 & _ & _ & new2 & N1 & _ & _ & N4 & _ & _ & N7).
  cbn [fst snd] in I2, N1, N4, N7. fold w1 w2 in I2, N1, N4, N7.
  assert (Hblocked : blocked hands zones (release_pass hands w) f).
  { left. apply E. eauto. }
  destruct (N4 f Hblocked) as [Hnone Hsame]. fold w1 in Hsame.
  split; [|split; [now rewrite Hsame|split]].
  - exists (calls1 ++ new2). split; [now rewrite N1, B, app_assoc|].
    rewrite List.filter_app, Hnone, app_nil_r. unfold calls1.
    rewrite (pass1_calls_about _ _ _ _ _ Hnd Hin). unfold calls_of. cbn [fst snd].
    now rewrite Hs.
  - intros r. now rewrite I2, Hrects.
  - apply N7. rewrite A. now apply keys_unique_filter.
Qed.

(** The frame in which a finger gets its note: one command about it, the
    note-on. *)
Lemma claim_frame hands zones (w : World S) f :
  dict_in (active_notes w) f = false ->
  dict_in (active_notes (process_hands_data hands zones w)) f = true ->
  exists new n v,
    issued (process_hands_data hands zones w) = issued w ++ new
    /\ List.filter (about f) new = [NoteOn n v f].
Proof.
  intros Hout Hin2.
  destruct (release_pass_spec hands w) as (B & C & D & E & R & A & F).
  set (w1 := fst (release_pass hands w)) in *.
  set (calls1 := flat_map (calls_of (zone_store w) hands) (active_notes w)) in *.
  apply dict_in_false in Hout.
  assert (Hf1 : dict_in (active_notes w1) f = false).
  { apply dict_in_false. rewrite A.
    destruct (bool_decide (f ∈ R)) eqn:ER.
    - refine (dict_get_filter_out (active_notes w)
                (fun k => negb (bool_decide (k ∈ R))) f _). now rewrite ER.
    - rewrite <- Hout.
      refine (dict_get_filter_keep (active_notes w)
                (fun k => negb (bool_decide (k ∈ R))) f _). now rewrite ER. }
  pose proof (frame_split hands zones w) as Hreach. cbn zeta in Hreach.
  apply claim_reach_inv in Hreach.
  destruct Hreach as (_ & _ & _ & _ & new2 & N1 & _ & N3 & _ & N5 & _).
  cbn [fst snd] in N1, N5. fold w1 in N1, N5.
  specialize (N5 f Hf1). rewrite Hin2 in N5.
  destruct (List.filter (about f) new2) as [|k [|k' l]] eqn:Ef; try discriminate.
  assert (Hk : In k (List.filter (about f) new2)) by (rewrite Ef; now left).
  apply filter_In in Hk as [Hk Hab].
  pose proof (proj1 (forallb_forall _ _) N3 k Hk) as Hon.
  destruct k as [n v g| | |]; try discriminate.
  unfold about in Hab. cbn in Hab. apply bool_decide_eq_true in Hab as ->.
  exists (calls1 ++ new2), n, v. split; [now rewrite N1, B, app_assoc|].
  rewrite List.filter_app, Ef. unfold calls1.
  now rewrite (pass1_calls_not_about _ _ _ _ (dict_get_None_keys _ _ Hout)).
Qed.

Abbreviation run_frames := (Interaction.run_frames synth pick target_fingers).

(** Claim idempotence for a hand that pass 1 finds again: while the
    finger of a sounding note stays extended inside its zone, frame after
    frame, all commands about it are pitch bends and intensity updates,
    two a frame, and the note stays bound. *)
Lemma sustained_frames_only_modulate frames (w : World S) f nd :
  NoDup (map fst (active_notes w)) ->
  dict_get (active_notes w) f = Some nd ->
  Forall (fun fr => is_sustained (zone_store w) (fst fr) (f, nd) = true) frames ->
  let w' := run_frames frames w in
  exists new,
    issued w' = issued w ++ new
    /\ forallb only_modulates (List.filter (about f) new) = true
    /\ length (List.filter (about f) new) = (2 * length frames)%nat
    /\ dict_get (active_notes w') f = Some nd.
Proof.
  revert w. induction frames as [|[hands zones] frames IH]; intros w Hnd Hget Hall.
  - exists []. cbn. now rewrite app_nil_r.
  - apply list.Forall_cons in Hall as [Hs Hall]. cbn [fst] in Hs.
    unfold is_sustained in Hs. cbn [fst snd] in Hs.
    destruct (sustained (zone_store w) hands f nd) as [[x y]|] eqn:Es; [|discriminate].
    destruct (sustain_frame hands zones w f nd x y Hnd Hget Es)
      as ((new1 & A1 & A2) & A3 & A4 & A5).
    cbn [Interaction.run_frames foldl fst snd].
    unfold Interaction.run_frames in IH.
    destruct (IH (process_hands_data hands zones w) A5 A3) as (new2 & B1 & B2 & B3 & B4).
    { eapply Forall_impl; [|exact Hall]. intros fr Hfr. cbn beta in *.
      now rewrite (is_sustained_same_rects _ _ _ _ A4). }
    exists (new1 ++ new2). rewrite B1, A1, <- app_assoc.
    split; [reflexivity|]. rewrite List.filter_app, forallb_app, length_app, A2, B2, B3.
    split; [reflexivity|]. split; [cbn [length]; lia | exact B4].
Qed.

End InteractionFacts.

(** C4.  A hand whose handedness is "Unknown" gets the identifier
    [hand_<index>] in pass 2, while pass 1 looks for a hand whose handedness
    equals the identifier's hand id and so never finds it.  With the same
    frame twice (index finger extended, fingertip at (50,50) in the free
    zone (0,0,100,100)): pass 2 shows the finger at (50,50) under the
    identifier [("hand_0", 8)], pass 1 finds no hand for that identifier,
    and the two frames issue note-on, note-off, note-on: a second note-on
    while the finger never left the zone. *)
Theorem unknown_hand_retriggers :
  Interaction.shown_at Interaction.all_finger_tips Sample.frame_unknown Sample.slot0_index
    = [(50, 50)]
  /\ Zone.is_point_inside Sample.zoneA 50 50 = true
  /\ Interaction.matching_hand Sample.slot0_index Sample.frame_unknown = None
  /\ issued (Sample.step Sample.frame_unknown Sample.zones01 Sample.world0)
     = [NoteOn 60 64 Sample.slot0_index]
  /\ issued (Interaction.run_frames Sample.no_synth Sample.lowest Interaction.all_finger_tips
               [(Sample.frame_unknown, Sample.zones01);
                (Sample.frame_unknown, Sample.zones01)]
               Sample.world0)
     = [NoteOn 60 64 Sample.slot0_index;
        NoteOff 60 Sample.slot0_index;
        NoteOn 60 64 Sample.slot0_index].
Proof. repeat split; vm_compute; reflexivity. Qed.

Lemma world1_accepted : Interaction.mido_accepts Sample.world1.
Proof.
  split; [|split].
  - intros [|r]; cbn; lia.
  - intros f nd [[= <- <-]|[]]. cbn. lia.
  - intros mh [= <-]. apply (pool_invariant_on_wire 2 3); [|lia|lia].
    apply pool_invariant_send_note_on, (pool_invariant_init (Some [2; 3])).
Qed.

Lemma release_completeness_witness :
  NoDup (map fst (active_notes Sample.world1))
  /\ Interaction.dict_get (active_notes Sample.world1) Sample.right_index = Some Sample.note0
  /\ Midi.port_not_open Sample.handler1 = false
  /\ active_note_channels Sample.handler1 !! Sample.right_index = Some 2
  /\ Interaction.mido_accepts Sample.world1
  /\ Interaction.release_condition (zone_store Sample.world1) Sample.frame_slide
       Sample.right_index Sample.note0
  /\ let w1 := fst (Interaction.release_pass Sample.no_synth Sample.lowest
                      Sample.frame_slide Sample.world1) in
     let w2 := Sample.step Sample.frame_slide Sample.zones01 Sample.world1 in
     exists new mh1 mh2 msgs,
       issued w2 = issued Sample.world1 ++ new
       /\ List.filter (fun k => Interaction.is_note_off k
                                && Interaction.about Sample.right_index k) new
          = [NoteOff 60 Sample.right_index]
       /\ Audio.midi_handler (audio_engine w1) = Some mh1
       /\ Audio.midi_handler (audio_engine w2) = Some mh2
       /\ Midi.sent_messages mh2 = Midi.sent_messages Sample.handler1 ++ msgs
       /\ forallb Mido.valid msgs = true
       /\ is_active (zone_store w1 0%nat) = false
       /\ Interaction.dict_get (active_notes w1) Sample.right_index = None
       /\ 2 ∈ available_channels mh1
       /\ active_note_channels mh1 !! Sample.right_index = None
       /\ (Interaction.dict_in (active_notes w2) Sample.right_index = true ->
           exists n v, In (NoteOn n v Sample.right_index) new).
Proof.
  assert (H1 : NoDup (map fst (active_notes Sample.world1))) by apply NoDup_singleton.
  assert (H2 : Interaction.dict_get (active_notes Sample.world1) Sample.right_index
               = Some Sample.note0) by reflexivity.
  assert (H3 : Midi.port_not_open Sample.handler1 = false) by reflexivity.
  assert (H4 : active_note_channels Sample.handler1 !! Sample.right_index = Some 2)
    by (vm_compute; reflexivity).
  assert (H5 : Interaction.release_condition (zone_store Sample.world1) Sample.frame_slide
                 Sample.right_index Sample.note0).
  { right. eexists. split; [reflexivity|]. right. right. exists 150, 50, 0%Q.
    split; vm_compute; reflexivity. }
  split; [exact H1|]. split; [exact H2|]. split; [exact H3|]. split; [exact H4|].
  split; [exact world1_accepted|]. split; [exact H5|].
  destruct (release_completeness Sample.no_synth Sample.lowest Interaction.all_finger_tips
              Sample.frame_slide Sample.zones01 Sample.world1 Sample.right_index
              Sample.note0 Sample.handler1 2 H1 H2 eq_refl H3 H4 world1_accepted H5)
    as (new & mh1 & mh2 & msgs & A1 & A2 & A3 & A4 & A5 & A6 & A7 & _ & A9 & A10 & A11
        & A12 & _).
  exists new, mh1, mh2, msgs.
  exact (conj A1 (conj A2 (conj A3 (conj A4 (conj A5 (conj A6 (conj A7 (conj A9
          (conj A10 (conj A11 A12)))))))))).
Defined.

(** The claim as worded, read of the state the frame ends in, fails.  In
    [frame_swap] the right index finger leaves [zoneA] for [zoneB] while the
    middle finger enters [zoneA]: every condition of the claim holds for the
    binding of the index finger, and the frame issues its one note-off; but
    at the end of the frame [zoneA] is active again (owned by the middle
    finger), the index finger has an entry again (for [zoneB]) and, with
    the smallest channel popped first, holds channel 2 again; the available
    set is empty. *)
Lemma release_completeness_counterexample :
  NoDup (map fst (active_notes Sample.world1))
  /\ Interaction.dict_get (active_notes Sample.world1) Sample.right_index = Some Sample.note0
  /\ Audio.midi_handler (audio_engine Sample.world1) = Some Sample.handler1
  /\ Midi.port_not_open Sample.handler1 = false
  /\ active_note_channels Sample.handler1 !! Sample.right_index = Some 2
  /\ Interaction.release_condition (zone_store Sample.world1) Sample.frame_swap
       Sample.right_index Sample.note0
  /\ ~ Interaction.released_at_frame_end Sample.no_synth Sample.lowest
         Interaction.all_finger_tips Sample.frame_swap Sample.zones01 Sample.world1
         Sample.right_index Sample.note0 2
  /\ let w2 := Sample.step Sample.frame_swap Sample.zones01 Sample.world1 in
     issued w2
     = issued Sample.world1
       ++ [NoteOff 60 Sample.right_index;
           NoteOn 62 64 Sample.right_index; NoteOn 60 64 Sample.right_middle]
     /\ is_active (zone_store w2 0%nat) = true
     /\ active_finger_id (zone_store w2 0%nat) = Some Sample.right_middle
     /\ Interaction.dict_get (active_notes w2) Sample.right_index
        = Some {| zone := 1%nat; initial_y := 50; midi_note := 62 |}
     /\ exists mh2,
          Audio.midi_handler (audio_engine w2) = Some mh2
          /\ (2 ∉ available_channels mh2)
          /\ active_note_channels mh2 !! Sample.right_index = Some 2.
Proof.
  split; [apply NoDup_singleton|]. split; [reflexivity|]. split; [reflexivity|].
  split; [reflexivity|]. split; [vm_compute; reflexivity|]. split.
  { right. eexists. split; [reflexivity|]. right. right. exists 150, 50, 0%Q.
    split; vm_compute; reflexivity. }
  split.
  { intros (_ & Ha & _). vm_compute in Ha. discriminate. }
  cbv zeta. split; [vm_compute; reflexivity|]. split; [vm_compute; reflexivity|].
  split; [vm_compute; reflexivity|]. split; [vm_compute; reflexivity|].
  eexists. split; [reflexivity|]. split.
  - intros H. vm_compute in H. discriminate H.
  - vm_compute. reflexivity.
Qed.


Lemma activate_overwrites_owner_witness :
  is_active (Sample.store1 0%nat) = true
  /\ active_finger_id (Sample.store1 0%nat) = Some Sample.right_index
  /\ active_finger_id (Zone.activate (Sample.store1 0%nat) Sample.right_middle)
     = Some Sample.right_middle
  /\ Interaction.try_zones Sample.no_synth Sample.lowest Sample.right_middle 60 60
       Sample.zones01 (Sample.world1, ∅)
     = (Sample.world1, ∅)
  /\ zone_store (Sample.step Sample.frame_join Sample.zones01 Sample.world1) 0%nat
     = Sample.store1 0%nat.
Proof.
  assert (H1 : is_active (Sample.store1 0%nat) = true) by reflexivity.
  assert (H2 : active_finger_id (Sample.store1 0%nat) = Some Sample.right_index)
    by reflexivity.
  destruct (activate_overwrites_owner Sample.no_synth Sample.lowest
              Interaction.all_finger_tips (Sample.store1 0%nat) Sample.right_index
              Sample.right_middle Sample.frame_join Sample.zones01 Sample.world1 H1 H2)
    as ((_ & A & _) & B & _ & C).
  split; [exact H1|]. split; [exact H2|]. split; [exact A|]. split.
  - exact (B Sample.right_middle 60 60 Sample.world1 ∅ 0%nat eq_refl eq_refl).
  - apply C. vm_compute. reflexivity.
Defined.

Lemma activate_is_noop_counterexample :
  ~ Zone.claim_is_noop (Sample.store1 0%nat) Sample.right_index Sample.right_middle.
Proof.
  intros H. specialize (H eq_refl eq_refl ltac:(discriminate)).
  apply (f_equal active_finger_id) in H. discriminate.
Qed.

(** * Further properties *)

(** ** Rounding and the expression processors *)

Section ExpressionMore.
Import PitchBendProcessor VelocityIntensityProcessor.
Local Open Scope Q_scope.

Lemma round_Qeq x y : x == y -> Py.round x = Py.round y.
Proof.
  intros H. apply Z.le_antisymm; apply round_mono; rewrite H; apply Qle_refl.
Qed.

Lemma unit_clamp_low r : r <= 0 -> unit_clamp r = 0.
Proof.
  intros H. unfold unit_clamp. rewrite (py_min_lt 1 r) by lra. apply py_max_le, H.
Qed.

Lemma unit_clamp_high r : 1 <= r -> unit_clamp r = 1.
Proof. intros H. unfold unit_clamp. rewrite (py_min_ge 1 r) by exact H. reflexivity. Qed.

Lemma unit_clamp_inside r : 0 < r < 1 -> unit_clamp r = r.
Proof.
  intros H. unfold unit_clamp. rewrite (py_min_lt 1 r) by lra. apply py_max_gt. lra.
Qed.

Lemma bend_map_value v :
  PitchBendProcessor._map_value v 0 1
    (inject_Z (- midi_bend_max_abs_value)) (inject_Z midi_bend_max_abs_value)
  == v * 16382 - 8191.
Proof.
  unfold PitchBendProcessor._map_value.
  change (Qeq_bool 0 1) with false. cbv iota.
  change (inject_Z midi_bend_max_abs_value) with 8191.
  change (inject_Z (- midi_bend_max_abs_value)) with (-8191).
  field.
Qed.

Lemma inject_Z_nonzero (w : Z) : w <> 0%Z -> ~ inject_Z w == 0.
Proof.
  intros Hw E. apply Hw. apply (proj1 (inject_Z_injective w 0)). exact E.
Qed.

Lemma relative_position (x : Q) (zx w : Z) :
  (0 < w)%Z -> (x - inject_Z zx) / inject_Z w * inject_Z w == x - inject_Z zx.
Proof.
  intros Hw. field. apply inject_Z_nonzero. lia.
Qed.

Lemma relative_position_sign (x : Q) (zx w : Z) :
  (0 < w)%Z ->
  (x <= inject_Z zx -> (x - inject_Z zx) / inject_Z w <= 0)
  /\ (inject_Z (zx + w) <= x -> 1 <= (x - inject_Z zx) / inject_Z w).
Proof.
  intros Hw.
  assert (Hq : 0 < inject_Z w) by (change 0 with (inject_Z 0); rewrite <- Zlt_Qlt; lia).
  rewrite inject_Z_plus. split; intros H.
  - apply Qle_shift_div_r; [exact Hq|]. lra.
  - apply Qle_shift_div_l; [exact Hq|]. lra.
Qed.

(** X1.  For a zone of positive width, [calculate_pitch_bend] is -8191 for
    every finger x at or left of the zone's left edge, 8191 for every x at
    or right of its right edge, and 0 when x is exactly the centre of the
    zone; whatever the zone and the position, the result lies in
    [-8191, 8191]. *)
Theorem pitch_bend_edges_and_centre (zx zy w h : Z) :
  (0 < w)%Z ->
  (forall x, x <= inject_Z zx -> calculate_pitch_bend x (zx, zy, w, h) = (- 8191)%Z)
  /\ (forall x, inject_Z (zx + w) <= x -> calculate_pitch_bend x (zx, zy, w, h) = 8191%Z)
  /\ (forall x, 2 * x == inject_Z (2 * zx + w) ->
                calculate_pitch_bend x (zx, zy, w, h) = 0%Z)
  /\ (forall x r, (- 8191 <= calculate_pitch_bend x r <= 8191)%Z).
Proof.
  intros Hw.
  assert (Hq : 0 < inject_Z w) by (change 0 with (inject_Z 0); rewrite <- Zlt_Qlt; lia).
  split; [|split; [|split]].
  - intros x Hx. unfold calculate_pitch_bend.
    destruct (Z.eqb_spec w 0) as [->|_]; [lia|].
    fold (unit_clamp ((x - inject_Z zx) / inject_Z w)).
    rewrite unit_clamp_low by (apply relative_position_sign; assumption).
    reflexivity.
  - intros x Hx. unfold calculate_pitch_bend.
    destruct (Z.eqb_spec w 0) as [->|_]; [lia|].
    fold (unit_clamp ((x - inject_Z zx) / inject_Z w)).
    rewrite unit_clamp_high by (apply relative_position_sign; assumption).
    reflexivity.
  - intros x Hx. unfold calculate_pitch_bend.
    destruct (Z.eqb_spec w 0) as [->|_]; [lia|].
    fold (unit_clamp ((x - inject_Z zx) / inject_Z w)).
    assert (Hr : (x - inject_Z zx) / inject_Z w == 1 # 2).
    { apply (Qmult_inj_r _ _ (inject_Z w)); [lra|].
      rewrite relative_position by exact Hw.
      rewrite inject_Z_plus, inject_Z_mult in Hx. change (inject_Z 2) with 2 in Hx. lra. }
    rewrite unit_clamp_inside by lra.
    rewrite (round_Qeq _ (inject_Z 0)); [rewrite round_inject; reflexivity|].
    rewrite bend_map_value, Hr. reflexivity.
  - apply calculate_pitch_bend_range.
Qed.

Lemma velocity_map_value v :
  0 <= v <= 1 ->
  VelocityIntensityProcessor._map_value v 0 1 (inject_Z midi_min_value)
    (inject_Z midi_max_value)
  == v * 127.
Proof.
  intros Hv. unfold VelocityIntensityProcessor._map_value.
  change (Qeq_bool 0 1) with false. cbv iota.
  change (inject_Z midi_min_value ?= inject_Z midi_max_value) with Lt. cbv iota.
  change (inject_Z midi_min_value) with 0. change (inject_Z midi_max_value) with 127.
  assert (E : 0 + (v - 0) / (1 - 0) * (127 - 0) == v * 127) by field.
  set (m := 0 + (v - 0) / (1 - 0) * (127 - 0)) in *.
  destruct (py_min_cases m 127) as [[? ->]|[? ->]];
    match goal with
    | |- context [Py.max 0 ?x] =>
        let E' := fresh in
        destruct (py_max_cases 0 x) as [[? E']|[? E']]; rewrite E'; clear E'
    end; lra.
Qed.

(** X3.  For a zone of positive height, [calculate_initial_velocity] (and
    with it [calculate_continuous_intensity]) never decreases as the finger
    moves down; it is 0 at and above the top edge of the zone and 127 at
    and below its bottom edge. *)
Theorem velocity_monotone_edges (zx zy w h : Z) :
  (0 < h)%Z ->
  (forall y1 y2, y1 <= y2 ->
     (calculate_initial_velocity y1 (zx, zy, w, h)
      <= calculate_initial_velocity y2 (zx, zy, w, h))%Z
     /\ (calculate_continuous_intensity y1 (zx, zy, w, h)
         <= calculate_continuous_intensity y2 (zx, zy, w, h))%Z)
  /\ (forall y, y <= inject_Z zy -> calculate_initial_velocity y (zx, zy, w, h) = 0%Z)
  /\ (forall y, inject_Z (zy + h) <= y ->
                calculate_initial_velocity y (zx, zy, w, h) = 127%Z).
Proof.
  intros Hh.
  assert (Hmono : forall y1 y2, y1 <= y2 ->
            (calculate_initial_velocity y1 (zx, zy, w, h)
             <= calculate_initial_velocity y2 (zx, zy, w, h))%Z).
  { intros y1 y2 Hy. unfold calculate_initial_velocity.
    destruct (Z.eqb_spec h 0) as [->|_]; [lia|].
    fold (unit_clamp ((y1 - inject_Z zy) / inject_Z h)).
    fold (unit_clamp ((y2 - inject_Z zy) / inject_Z h)).
    apply round_mono.
    rewrite !velocity_map_value by apply unit_clamp_range.
    apply Qmult_le_compat_r; [|discriminate].
    apply unit_clamp_mono, rel_pos_mono; assumption. }
  split; [|split].
  - intros y1 y2 Hy. split; apply Hmono, Hy.
  - intros y Hy. unfold calculate_initial_velocity.
    destruct (Z.eqb_spec h 0) as [->|_]; [lia|].
    fold (unit_clamp ((y - inject_Z zy) / inject_Z h)).
    rewrite unit_clamp_low by (apply relative_position_sign; assumption).
    reflexivity.
  - intros y Hy. unfold calculate_initial_velocity.
    destruct (Z.eqb_spec h 0) as [->|_]; [lia|].
    fold (unit_clamp ((y - inject_Z zy) / inject_Z h)).
    rewrite unit_clamp_high by (apply relative_position_sign; assumption).
    reflexivity.
Qed.

End ExpressionMore.

Lemma pitch_bend_edges_and_centre_witness :
  0 < 200 /\ (40 <= inject_Z 100)%Q /\ (inject_Z (100 + 200) <= 512)%Q
  /\ (2 * 200 == inject_Z (2 * 100 + 200))%Q
  /\ PitchBendProcessor.calculate_pitch_bend 40 (100, 0, 200, 100) = - 8191
  /\ PitchBendProcessor.calculate_pitch_bend 512 (100, 0, 200, 100) = 8191
  /\ PitchBendProcessor.calculate_pitch_bend 200 (100, 0, 200, 100) = 0.
Proof.
  assert (H1 : 0 < 200) by lia.
  assert (H2 : (40 <= inject_Z 100)%Q) by (unfold Qle; simpl; lia).
  assert (H3 : (inject_Z (100 + 200) <= 512)%Q) by (unfold Qle; simpl; lia).
  assert (H4 : (2 * 200 == inject_Z (2 * 100 + 200))%Q) by reflexivity.
  destruct (pitch_bend_edges_and_centre 100 0 200 100 H1) as (Hl & Hr & Hc & _).
  exact (conj H1 (conj H2 (conj H3 (conj H4
          (conj (Hl 40%Q H2) (conj (Hr 512%Q H3) (Hc 200%Q H4))))))).
Defined.

Lemma velocity_monotone_edges_witness :
  0 < 200 /\ (150 <= 451 # 2)%Q /\ (80 <= inject_Z 100)%Q /\ (inject_Z (100 + 200) <= 300)%Q
  /\ VelocityIntensityProcessor.calculate_initial_velocity 150 (50, 100, 100, 200)
     <= VelocityIntensityProcessor.calculate_initial_velocity (451 # 2) (50, 100, 100, 200)
  /\ VelocityIntensityProcessor.calculate_initial_velocity 80 (50, 100, 100, 200) = 0
  /\ VelocityIntensityProcessor.calculate_initial_velocity 300 (50, 100, 100, 200) = 127.
Proof.
  assert (H1 : 0 < 200) by lia.
  assert (H2 : (150 <= 451 # 2)%Q) by (unfold Qle; simpl; lia).
  assert (H3 : (80 <= inject_Z 100)%Q) by (unfold Qle; simpl; lia).
  assert (H4 : (inject_Z (100 + 200) <= 300)%Q) by (unfold Qle; simpl; lia).
  destruct (velocity_monotone_edges 50 100 100 200 H1) as (Hm & Ht & Hb).
  exact (conj H1 (conj H2 (conj H3 (conj H4
          (conj (proj1 (Hm 150%Q (451 # 2)%Q H2)) (conj (Ht 80%Q H3) (Hb 300%Q H4))))))).
Defined.

(** ** The zone object *)

Section ZoneMore.

Lemma int_nonneg (q : Q) : (0 <= q)%Q -> 0 <= Py.int q.
Proof.
  intros H. unfold Py.int. apply Z.quot_pos; [|lia].
  unfold Qle in H. cbn in H. lia.
Qed.

Lemma int_inject_mult_one (r : Z) : Py.int (inject_Z r * 1) = r.
Proof.
  unfold Py.int. cbn. rewrite Z.mul_1_r. apply Z.quot_1_r.
Qed.

Lemma scaled_component (c : Z) (intensity : Q) :
  0 <= c -> (0 <= intensity)%Q ->
  0 <= Z.min 255 (Py.int (inject_Z c * intensity)) <= 255.
Proof.
  intros Hc Hi.
  assert (0 <= Py.int (inject_Z c * intensity)).
  { apply int_nonneg. apply Qmult_le_0_compat; [|exact Hi].
    change 0%Q with (inject_Z 0). rewrite <- Zle_Qle. exact Hc. }
  lia.
Qed.

Lemma kept_call z0 z c : Zone.kept z0 z -> Zone.kept z0 (Zone.call z c).
Proof.
  intros (H1 & H2 & H3 & H4 & H5 & H6 & H7 & H8).
  destruct c as [f| |i]; cbn [Zone.call]; unfold Zone.kept; cbn;
    (split; [exact H1|]); (split; [exact H2|]); (split; [exact H3|]);
    (split; [exact H4|]); (split; [exact H5|]); (split; [exact H6|]); split.
  - split; eauto.
  - intros; discriminate.
  - split; [discriminate|]. intros (f & Hf). discriminate Hf.
  - intros _. exact H5.
  - exact H7.
  - intros Hin. rewrite Hin. rewrite H5. reflexivity.
Qed.

(** X4.  Through any sequence of [activate], [deactivate] and
    [update_highlight] calls, a zone made by [__init__] keeps its
    rectangle, its note and its label; it is active exactly when it has an
    owning finger; while it is not active it shows its base colour; and one
    [deactivate] brings it back to the state [__init__] made. *)
Theorem zone_lifecycle (x y width height : Z) (name : string) (midi : Z)
    (lbl : option string) (calls : list Zone.Call) :
  let z0 := Zone.init x y width height name midi lbl in
  let z := foldl Zone.call z0 calls in
  rect z = (x, y, width, height)
  /\ note_name z = name
  /\ note_midi_value z = midi
  /\ label z = default name lbl
  /\ (is_active z = true <-> exists f, active_finger_id z = Some f)
  /\ (is_active z = false -> current_color z = base_color z)
  /\ Zone.deactivate z = z0.
Proof.
  intros z0 z.
  assert (H : Zone.kept z0 z).
  { subst z. revert z0.
    induction calls as [|c calls IH] using rev_ind; intros z0.
    - unfold Zone.kept. cbn. repeat split; try discriminate.
      intros (f & Hf). discriminate Hf.
    - rewrite foldl_app. cbn [foldl]. apply kept_call, IH. }
  destruct H as (H1 & H2 & H3 & H4 & H5 & H6 & H7 & H8).
  split; [exact H1|]. split; [exact H2|]. split; [exact H3|].
  split; [rewrite H4; subst z0; destruct lbl; reflexivity|].
  split; [exact H7|]. split; [intros Hin; rewrite H5; apply H8, Hin|].
  unfold Zone.deactivate. rewrite H1, H2, H3, H4, H5, H6. reflexivity.
Qed.

(** X5.  [update_highlight] on an active zone scales the highlight colour:
    with an intensity that is not negative and a highlight colour without
    negative components, every component of the colour shown lies in
    [0, 255], and with intensity 1 and components up to 255 it is the
    highlight colour itself.  On a zone that is not active it shows the
    base colour.  The owner and the active flag are never touched. *)
Theorem update_highlight_colour (z : NoteZone) (intensity : Q) (r g b : Z) :
  highlight_color z = (r, g, b) ->
  0 <= r -> 0 <= g -> 0 <= b ->
  (0 <= intensity)%Q ->
  let z' := Zone.update_highlight z intensity in
  (is_active z = true ->
   exists r' g' b', current_color z' = (r', g', b')
                    /\ 0 <= r' <= 255 /\ 0 <= g' <= 255 /\ 0 <= b' <= 255)
  /\ (is_active z = true -> r <= 255 -> g <= 255 -> b <= 255 ->
      current_color (Zone.update_highlight z 1) = highlight_color z)
  /\ (is_active z = false -> current_color z' = base_color z)
  /\ is_active z' = is_active z
  /\ active_finger_id z' = active_finger_id z
  /\ rect z' = rect z.
Proof.
  intros Hc Hr Hg Hb Hi z'. subst z'. unfold Zone.update_highlight. cbn.
  rewrite Hc. split; [|split; [|split]].
  - intros ->. eexists _, _, _. split; [reflexivity|].
    auto using scaled_component.
  - intros -> H1 H2 H3. rewrite !int_inject_mult_one.
    rewrite !Z.min_r by assumption. reflexivity.
  - intros ->. reflexivity.
  - auto.
Qed.

End ZoneMore.

Lemma update_highlight_colour_witness :
  highlight_color (Zone.activate Sample.zoneA Sample.right_index) = (0, 255, 0)
  /\ 0 <= 255 /\ (0 <= 1 # 2)%Q
  /\ is_active (Zone.activate Sample.zoneA Sample.right_index) = true
  /\ exists r' g' b',
       current_color
         (Zone.update_highlight (Zone.activate Sample.zoneA Sample.right_index) (1 # 2))
       = (r', g', b')
       /\ 0 <= r' <= 255 /\ 0 <= g' <= 255 /\ 0 <= b' <= 255.
Proof.
  assert (H0 : highlight_color (Zone.activate Sample.zoneA Sample.right_index) = (0, 255, 0))
    by reflexivity.
  assert (H1 : 0 <= 0) by lia.
  assert (H2 : 0 <= 255) by lia.
  assert (H3 : (0 <= 1 # 2)%Q) by (unfold Qle; simpl; lia).
  assert (H4 : is_active (Zone.activate Sample.zoneA Sample.right_index) = true)
    by reflexivity.
  exact (conj H0 (conj H2 (conj H3 (conj H4
          (proj1 (update_highlight_colour
                    (Zone.activate Sample.zoneA Sample.right_index) (1 # 2) 0 255 0
                    H0 H1 H2 H1 H3) H4))))).
Defined.

(** ** The layout in closed form *)

Section LayoutMore.
Import LayoutGenerator.

Section Closed.
Variable notes_to_display : list (string * Z).
Variables screen_width screen_height padding : Z.
Variable zone_labels : bool.

Abbreviation n := (length notes_to_display).
Abbreviation closed :=
  (zone_of_note notes_to_display screen_width screen_height padding zone_labels).

Lemma fill_row_closed i_row c cols j zones :
  length zones = (row_start n i_row + j)%nat ->
  cols = seq j (length cols) ->
  (row_start n i_row + j + length cols <= n)%nat ->
  (forall i, row_start n i_row <= i < row_start n i_row + j + length cols ->
             row_of n i = i_row)%nat ->
  c = row_count n i_row ->
  (forall i z, zones !! i = Some z -> closed i = Some z) ->
  let st' := fill_row notes_to_display screen_height padding zone_labels i_row
               (inject_Z (zone_area_width screen_width padding)
                / inject_Z (Z.of_nat c))%Q
               cols (zones, (row_start n i_row + j)%nat) in
  length (fst st') = (row_start n i_row + j + length cols)%nat
  /\ snd st' = (row_start n i_row + j + length cols)%nat
  /\ forall i z, fst st' !! i = Some z -> closed i = Some z.
Proof.
  revert j zones. induction cols as [|i_col cols IH]; intros j zones Hl Hc Hn Hrow Hcnt Hz.
  - cbn. rewrite Nat.add_0_r. auto.
  - cbn [length] in Hc, Hn, Hrow. cbn [seq] in Hc. injection Hc as -> Hc.
    cbn [fill_row].
    destruct (Nat.leb_spec (num_notes_total notes_to_display) (row_start n i_row + j))
      as [Hk|Hk]; [unfold num_notes_total in Hk; lia|].
    destruct (notes_to_display !! (row_start n i_row + j)%nat) as [[nm mv]|] eqn:Enote.
    2:{ apply lookup_ge_None in Enote. lia. }
    replace (Datatypes.S (row_start n i_row + j)) with (row_start n i_row + Datatypes.S j)%nat
      by lia.
    cbn [length].
    replace (row_start n i_row + j + Datatypes.S (length cols))%nat
      with (row_start n i_row + Datatypes.S j + length cols)%nat by lia.
    apply IH.
    + rewrite length_app. cbn. lia.
    + exact Hc.
    + lia.
    + intros i Hi. apply Hrow. lia.
    + exact Hcnt.
    + intros i z Hi. destruct (decide (i < length zones)%nat) as [Hlt|Hge].
      * rewrite lookup_app_l in Hi by exact Hlt. now apply Hz.
      * rewrite lookup_app_r in Hi by lia.
        destruct (i - length zones)%nat as [|k] eqn:Ek; [|now destruct k].
        cbn in Hi. injection Hi as <-.
        assert (i = row_start n i_row + j)%nat as -> by lia.
        unfold zone_of_note. rewrite Enote. cbn zeta.
        rewrite (Hrow (row_start n i_row + j)%nat) by lia.
        replace (row_start n i_row + j - row_start n i_row)%nat with j by lia.
        rewrite <- Hcnt. reflexivity.
Qed.

Lemma fill_rows_closed i_row zones :
  (i_row < 2)%nat ->
  length zones = row_start n i_row ->
  (row_start n i_row + row_count n i_row <= n)%nat ->
  (forall i, row_start n i_row <= i < row_start n i_row + row_count n i_row ->
             row_of n i = i_row)%nat ->
  (forall i z, zones !! i = Some z -> closed i = Some z) ->
  let st' := fill_rows notes_to_display screen_width screen_height padding zone_labels
               (row_counts n) (zones, row_start n i_row) i_row in
  length (fst st') = (row_start n i_row + row_count n i_row)%nat
  /\ snd st' = (row_start n i_row + row_count n i_row)%nat
  /\ forall i z, fst st' !! i = Some z -> closed i = Some z.
Proof.
  intros Hr Hl Hn Hrow Hz. unfold fill_rows. rewrite row_counts_spec.
  assert (Hc : [((n + 1) / 2)%nat; (n / 2)%nat] !! i_row = Some (row_count n i_row)).
  { destruct i_row as [|[|k]]; [reflexivity | reflexivity | lia]. }
  rewrite Hc.
  destruct (Nat.eqb_spec (row_count n i_row) 0) as [E|_].
  { rewrite E, Nat.add_0_r. cbn [fst snd]. auto. }
  pose proof (fill_row_closed i_row (row_count n i_row) (seq 0 (row_count n i_row))
                0%nat zones) as H.
  rewrite !Nat.add_0_r, !length_seq in H. apply H; auto.
Qed.

Lemma generate_layout_closed i :
  generate_layout notes_to_display screen_width screen_height padding zone_labels !! i
  = closed i.
Proof.
  assert (Hnone : forall k, (n <= k)%nat -> closed k = None).
  { intros k Hk. unfold zone_of_note.
    rewrite (proj2 (lookup_ge_None notes_to_display k) Hk). reflexivity. }
  unfold generate_layout, num_notes_total.
  destruct (Nat.eqb_spec n 0) as [E|E].
  { rewrite lookup_nil, Hnone by lia. reflexivity. }
  cbn [seq foldl num_rows].
  pose proof (halves_sum n) as Hsum.
  destruct (fill_rows_closed 0%nat []) as (A1 & A2 & A3);
    [lia | reflexivity | | | |].
  { change (0 + (n + 1) / 2 <= n)%nat. lia. }
  { intros i0 Hi. change (0 <= i0 < 0 + (n + 1) / 2)%nat in Hi. unfold row_of.
    destruct (Nat.ltb_spec i0 ((n + 1) / 2)); [reflexivity | lia]. }
  { intros i0 z Hi. now rewrite lookup_nil in Hi. }
  change (row_start n 0) with 0%nat in A1, A2, A3.
  change (row_count n 0) with ((n + 1) / 2)%nat in A1, A2.
  cbn [Nat.add] in A1, A2.
  match goal with
  | |- context [fill_rows _ _ _ _ _ _ ?s 1%nat] =>
      rewrite (surjective_pairing s), A2;
      destruct (fill_rows_closed 1%nat (fst s)) as (B1 & B2 & B3);
        [lia | exact A1 | | | exact A3 |]
  end.
  { change ((n + 1) / 2 + n / 2 <= n)%nat. lia. }
  { intros i0 Hi. change ((n + 1) / 2 <= i0 < (n + 1) / 2 + n / 2)%nat in Hi.
    unfold row_of.
    destruct (Nat.ltb_spec i0 ((n + 1) / 2)); [lia | reflexivity]. }
  change (row_start n 1) with ((n + 1) / 2)%nat in B1, B2, B3.
  change (row_count n 1) with (n / 2)%nat in B1, B2.
  match type of B3 with
  | forall i z, fst ?s !! i = Some z -> _ =>
      destruct (fst s !! i) as [z|] eqn:Ez
  end.
  - symmetry. now apply B3.
  - apply lookup_ge_None in Ez. rewrite Hnone by lia. reflexivity.
Qed.

End Closed.

End LayoutMore.

(** ** The geometry of the layout *)

Section LayoutGeometry.
Import LayoutGenerator.
Local Open Scope Q_scope.

Lemma int_floor q : 0 <= q -> Py.int q = Qfloor q.
Proof.
  intros H. destruct q as [a b]. unfold Py.int, Qfloor. cbn [Qnum Qden].
  apply Z.quot_div_nonneg; [|lia]. unfold Qle in H. cbn in H. lia.
Qed.

Lemma int_nonpos q : q <= 0 -> (Py.int q <= 0)%Z.
Proof.
  intros H. destruct q as [a b]. unfold Py.int. cbn [Qnum Qden].
  unfold Qle in H. cbn in H.
  replace a with (- - a)%Z by lia. rewrite Z.quot_opp_l by lia.
  pose proof (Z.quot_pos (- a) (Z.pos b)). lia.
Qed.

Lemma floor_add_le a b : (Qfloor a + Qfloor b <= Qfloor (a + b))%Z.
Proof.
  rewrite <- (Qfloor_Z (Qfloor a + Qfloor b)). apply Qfloor_resp_le.
  rewrite inject_Z_plus. pose proof (Qfloor_le a). pose proof (Qfloor_le b). lra.
Qed.

Lemma floor_ge (k : Z) q : inject_Z k <= q -> (k <= Qfloor q)%Z.
Proof. intros H. rewrite <- (Qfloor_Z k). apply Qfloor_resp_le, H. Qed.

Lemma floor_le (k : Z) q : q <= inject_Z k -> (Qfloor q <= k)%Z.
Proof. intros H. rewrite <- (Qfloor_Z k). apply Qfloor_resp_le, H. Qed.

Lemma inject_nat_nonneg (k : nat) : 0 <= inject_Z (Z.of_nat k).
Proof. change 0 with (inject_Z 0). rewrite <- Zle_Qle. lia. Qed.

Lemma inject_nat_le (a b : nat) : (a <= b)%nat -> inject_Z (Z.of_nat a) <= inject_Z (Z.of_nat b).
Proof. intros H. rewrite <- Zle_Qle. lia. Qed.

Lemma inject_nat_succ (a : nat) : inject_Z (Z.of_nat (Datatypes.S a)) == inject_Z (Z.of_nat a) + 1.
Proof. rewrite Nat2Z.inj_succ. unfold Z.succ. rewrite inject_Z_plus. reflexivity. Qed.

(** A cell of a row of cells of width [t], starting at [p]: cell [c] ends
    where cell [c + 1] starts, or before. *)
Lemma cell_end (p : Z) (t : Q) (c d : nat) :
  (0 <= p)%Z -> 0 <= t -> (c < d)%nat ->
  (Py.int (inject_Z p + inject_Z (Z.of_nat c) * t) + Py.int t
   <= Py.int (inject_Z p + inject_Z (Z.of_nat d) * t))%Z.
Proof.
  intros Hp Ht Hcd.
  assert (Hp' : 0 <= inject_Z p) by (change 0 with (inject_Z 0); rewrite <- Zle_Qle; lia).
  pose proof (inject_nat_nonneg c) as Hc. pose proof (inject_nat_nonneg d) as Hd.
  assert (0 <= inject_Z (Z.of_nat c) * t) by (apply Qmult_le_0_compat; assumption).
  assert (0 <= inject_Z (Z.of_nat d) * t) by (apply Qmult_le_0_compat; assumption).
  rewrite !int_floor by lra.
  etransitivity; [apply floor_add_le|]. apply Qfloor_resp_le.
  assert (inject_Z (Z.of_nat (Datatypes.S c)) * t <= inject_Z (Z.of_nat d) * t).
  { apply Qmult_le_compat_r; [|exact Ht]. apply inject_nat_le. lia. }
  rewrite inject_nat_succ in *. lra.
Qed.

Lemma cell_start (p : Z) (t : Q) (c : nat) :
  (0 <= p)%Z -> 0 <= t -> (p <= Py.int (inject_Z p + inject_Z (Z.of_nat c) * t))%Z.
Proof.
  intros Hp Ht.
  assert (Hp' : 0 <= inject_Z p) by (change 0 with (inject_Z 0); rewrite <- Zle_Qle; lia).
  assert (0 <= inject_Z (Z.of_nat c) * t)
    by (apply Qmult_le_0_compat; [apply inject_nat_nonneg | exact Ht]).
  rewrite int_floor by lra. apply floor_ge. lra.
Qed.

(** The last cell of [k] cells that share a length [a] ends within it. *)
Lemma cell_within (p a : Z) (k c : nat) :
  (0 <= p)%Z -> (0 <= a)%Z -> (c < k)%nat ->
  let t := inject_Z a / inject_Z (Z.of_nat k) in
  0 <= t
  /\ (Py.int (inject_Z p + inject_Z (Z.of_nat c) * t) + Py.int t <= p + a)%Z.
Proof.
  intros Hp Ha Hck t.
  assert (Hp' : 0 <= inject_Z p) by (change 0 with (inject_Z 0); rewrite <- Zle_Qle; lia).
  assert (Ha' : 0 <= inject_Z a) by (change 0 with (inject_Z 0); rewrite <- Zle_Qle; lia).
  assert (Hk : 0 < inject_Z (Z.of_nat k))
    by (change 0 with (inject_Z 0); rewrite <- Zlt_Qlt; lia).
  assert (Ht : 0 <= t) by (apply Qle_shift_div_l; [exact Hk | lra]).
  split; [exact Ht|].
  assert (Hkt : inject_Z (Z.of_nat k) * t == inject_Z a).
  { unfold t. field. lra. }
  assert (0 <= inject_Z (Z.of_nat c) * t)
    by (apply Qmult_le_0_compat; [apply inject_nat_nonneg | exact Ht]).
  rewrite !int_floor by lra.
  etransitivity; [apply floor_add_le|]. apply floor_le.
  assert (inject_Z (Z.of_nat (Datatypes.S c)) * t <= inject_Z (Z.of_nat k) * t).
  { apply Qmult_le_compat_r; [|exact Ht]. apply inject_nat_le. lia. }
  rewrite inject_nat_succ in *. rewrite inject_Z_plus. lra.
Qed.

End LayoutGeometry.

Section LayoutTheorems.
Import LayoutGenerator.

Variable notes_to_display : list (string * Z).
Variables screen_width screen_height padding : Z.
Variable zone_labels : bool.

Abbreviation closed_form :=
  (zone_of_note notes_to_display screen_width screen_height padding zone_labels).

Lemma nonneg_or_neg (q : Q) : (0 <= q)%Q \/ (q <= 0)%Q.
Proof. destruct (Qlt_le_dec q 0); [right; lra | left; assumption]. Qed.

Lemma inside_spec (zx zy w h : Z) nm mv lbl x y :
  Zone.is_point_inside (Zone.init zx zy w h nm mv lbl) x y = true
  <-> (zx <= x < zx + w) /\ (zy <= y < zy + h).
Proof.
  unfold Zone.is_point_inside. cbn [rect Zone.init].
  destruct (Z.leb_spec zx x), (Z.ltb_spec x (zx + w)), (Z.leb_spec zy y),
    (Z.ltb_spec y (zy + h)); cbn; split; intros; try discriminate; try lia; reflexivity.
Qed.

Lemma closed_form_disjoint i j zi zj x y :
  0 <= padding -> (i < j)%nat ->
  closed_form i = Some zi -> closed_form j = Some zj ->
  Zone.is_point_inside zi x y = true -> Zone.is_point_inside zj x y = true -> False.
Proof.
  intros Hp Hij Hi Hj. unfold zone_of_note in Hi, Hj.
  destruct (notes_to_display !! i) as [[nmi mvi]|]; [|discriminate].
  destruct (notes_to_display !! j) as [[nmj mvj]|]; [|discriminate].
  cbn zeta in Hi, Hj. injection Hi as <-. injection Hj as <-.
  rewrite !inside_spec. unfold row_of, row_start, row_count.
  set (half := ((length notes_to_display + 1) / 2)%nat).
  set (rh := row_height screen_height padding).
  destruct (Nat.ltb_spec i half) as [Hi|Hi], (Nat.ltb_spec j half) as [Hj|Hj];
    cbn [Nat.eqb]; intros [Hx1 Hy1] [Hx2 Hy2].
  - match type of Hx1 with
    | context [Py.int ?t] =>
        lazymatch t with
        | (inject_Z (zone_area_width _ _) / _)%Q =>
            destruct (nonneg_or_neg t) as [Ht|Ht];
              [pose proof (cell_end padding t (i - 0) (j - 0) Hp Ht ltac:(lia))
              |pose proof (int_nonpos t Ht)]
        end
    end; lia.
  - destruct (nonneg_or_neg rh) as [Ht|Ht];
      [pose proof (cell_end padding rh 0 1 Hp Ht ltac:(lia))
      |pose proof (int_nonpos rh Ht)]; lia.
  - lia.
  - match type of Hx1 with
    | context [Py.int ?t] =>
        lazymatch t with
        | (inject_Z (zone_area_width _ _) / _)%Q =>
            destruct (nonneg_or_neg t) as [Ht|Ht];
              [pose proof (cell_end padding t (i - half) (j - half) Hp Ht ltac:(lia))
              |pose proof (int_nonpos t Ht)]
        end
    end; lia.
Qed.

(** X6.  [generate_layout] in closed form, but for the x coordinate
    (which the code computes in binary64): there is one zone per note, and
    zone [i] is the zone of note [i], in row 0 for the first [ceil(n / 2)]
    notes and in row 1 for the others, with y
    [int(padding + row * row_height)], width [int(zone_width)] and height
    [int(row_height)], where [zone_width] is the zone area's width divided
    by the number of notes in that row.  Every zone starts free, and its
    label is its note name whether [zone_labels] is set or not. *)
Theorem layout_closed_form (i : nat) :
  length (generate_layout notes_to_display screen_width screen_height padding
            zone_labels)
  = length notes_to_display
  /\ forall z,
       generate_layout notes_to_display screen_width screen_height padding zone_labels !! i
       = Some z ->
       let n := length notes_to_display in
       let i_row := row_of n i in
       notes_to_display !! i = Some (note_name z, note_midi_value z)
       /\ i_row = (if (i <? (n + 1) / 2)%nat then 0%nat else 1%nat)
       /\ Zone.zone_y z
          = Py.int (inject_Z padding
                    + inject_Z (Z.of_nat i_row) * row_height screen_height padding)%Q
       /\ zone_width z
          = Py.int (inject_Z (zone_area_width screen_width padding)
                    / inject_Z (Z.of_nat (row_count n i_row)))%Q
       /\ zone_height z = Py.int (row_height screen_height padding)
       /\ label z = note_name z /\ is_active z = false /\ active_finger_id z = None
       /\ current_color z = base_color z.
Proof.
  split; [apply generate_layout_placed|].
  intros z. rewrite generate_layout_closed. unfold zone_of_note.
  destruct (notes_to_display !! i) as [[nm mv]|]; [|discriminate].
  cbn zeta. intros [= <-]. cbn. destruct zone_labels; repeat split.
Qed.

(** X7.  With a padding that is not negative, the zones of a layout do not
    overlap: no point is inside two of them.  (So the first zone that
    contains a fingertip, the one [process_hands_data] takes, is the only
    one.) *)
Theorem layout_zones_disjoint (i j : nat) (zi zj : NoteZone) (x y : Z) :
  0 <= padding -> i <> j ->
  generate_layout notes_to_display screen_width screen_height padding zone_labels !! i
  = Some zi ->
  generate_layout notes_to_display screen_width screen_height padding zone_labels !! j
  = Some zj ->
  Zone.is_point_inside zi x y = true ->
  Zone.is_point_inside zj x y = false.
Proof.
  intros Hp Hij Hi Hj Hin. rewrite generate_layout_closed in Hi, Hj.
  destruct (Zone.is_point_inside zj x y) eqn:E; [exfalso|reflexivity].
  destruct (Nat.lt_total i j) as [Hlt|[->|Hlt]]; [|congruence|].
  - exact (closed_form_disjoint i j zi zj x y Hp Hlt Hi Hj Hin E).
  - exact (closed_form_disjoint j i zj zi x y Hp Hlt Hj Hi E Hin).
Qed.

(** X8.  When the padding is not negative and leaves room (twice the
    padding is at most the screen's width and height), every zone of the
    layout lies inside the padded screen area and has a width and a height
    that are not negative. *)
Theorem layout_zones_inside_screen (i : nat) (z : NoteZone) :
  0 <= padding -> 2 * padding <= screen_width -> 2 * padding <= screen_height ->
  generate_layout notes_to_display screen_width screen_height padding zone_labels !! i
  = Some z ->
  padding <= zone_x z
  /\ 0 <= zone_width z
  /\ zone_x z + zone_width z <= screen_width - padding
  /\ padding <= Zone.zone_y z
  /\ 0 <= zone_height z
  /\ Zone.zone_y z + zone_height z <= screen_height - padding.
Proof.
  intros Hp Hw Hh Hz. rewrite generate_layout_closed in Hz.
  unfold zone_of_note in Hz.
  destruct (notes_to_display !! i) as [[nm mv]|] eqn:Enote; [|discriminate].
  apply lookup_lt_Some in Enote.
  cbn zeta in Hz. injection Hz as <-.
  unfold zone_x, zone_width, zone_height, Zone.zone_y. cbn [rect Zone.init].
  pose proof (halves_sum (length notes_to_display)) as Hsum.
  assert (Hcol : (i - row_start (length notes_to_display) (row_of (length notes_to_display) i)
                  < row_count (length notes_to_display) (row_of (length notes_to_display) i))%nat).
  { unfold row_of, row_start, row_count.
    destruct (Nat.ltb_spec i ((length notes_to_display + 1) / 2)); cbn [Nat.eqb]; lia. }
  assert (Hrow : (row_of (length notes_to_display) i < 2)%nat).
  { unfold row_of. destruct (_ <? _)%nat; lia. }
  destruct (cell_within padding (zone_area_width screen_width padding) _ _ Hp
              ltac:(unfold zone_area_width; lia) Hcol) as [Ht Hx].
  destruct (cell_within padding (zone_area_height screen_height padding) 2 _ Hp
              ltac:(unfold zone_area_height; lia) Hrow) as [Hu Hy].
  pose proof (cell_start padding _ (i - row_start (length notes_to_display)
                                          (row_of (length notes_to_display) i)) Hp Ht).
  pose proof (cell_start padding _ (row_of (length notes_to_display) i) Hp Hu).
  pose proof (int_nonneg _ Ht). pose proof (int_nonneg _ Hu).
  unfold row_height, num_rows, zone_area_width, zone_area_height in *. lia.
Qed.

End LayoutTheorems.

(** ** Note names and the notes on display *)

Section NoteNames.
Import LayoutGenerator.

Lemma upper_char_idem c : PyStr.upper_char (PyStr.upper_char c) = PyStr.upper_char c.
Proof. destruct c as [[] [] [] [] [] [] [] []]; reflexivity. Qed.

Lemma int_char_upper c : PyStr.int_char (PyStr.upper_char c) = PyStr.int_char c.
Proof. destruct c as [[] [] [] [] [] [] [] []]; reflexivity. Qed.

Lemma int_char_range c o : PyStr.int_char c = Some o -> 0 <= o <= 9.
Proof.
  unfold PyStr.int_char.
  destruct (Nat.leb_spec 48 (Ascii.nat_of_ascii c)), (Nat.leb_spec (Ascii.nat_of_ascii c) 57);
    cbn; intros [= <-]; lia.
Qed.

Lemma upper_idem s : PyStr.upper (PyStr.upper s) = PyStr.upper s.
Proof. induction s as [|c s IH]; cbn; [reflexivity|]. now rewrite upper_char_idem, IH. Qed.

Lemma upper_length s : String.length (PyStr.upper s) = String.length s.
Proof. induction s as [|c s IH]; cbn; [reflexivity|]. now rewrite IH. Qed.

Lemma upper_substring a b s :
  String.substring a b (PyStr.upper s) = PyStr.upper (String.substring a b s).
Proof.
  revert a b. induction s as [|c s IH]; intros [|a] [|b]; cbn; try reflexivity.
  - now rewrite IH.
  - apply IH.
  - apply IH.
Qed.

Lemma upper_get k s : String.get k (PyStr.upper s) = PyStr.upper_char <$> String.get k s.
Proof.
  revert k. induction s as [|c s IH]; intros [|k]; cbn; try reflexivity. apply IH.
Qed.

Lemma upper_last s : PyStr.last (PyStr.upper s) ≫= PyStr.int_char = PyStr.last s ≫= PyStr.int_char.
Proof.
  unfold PyStr.last. rewrite upper_length.
  destruct (String.length s) as [|k]; [reflexivity|].
  rewrite upper_get. destruct (String.get k s) as [c|]; [|reflexivity].
  cbn. apply int_char_upper.
Qed.

Lemma upper_but_last s : PyStr.but_last (PyStr.upper s) = PyStr.upper (PyStr.but_last s).
Proof. unfold PyStr.but_last. now rewrite upper_length, upper_substring. Qed.

Lemma index_lt l x k : PyStr.index l x = Some k -> (k < length l)%nat.
Proof.
  unfold PyStr.index. destruct (list_find _ l) as [[i y]|] eqn:E; [|discriminate].
  cbn. intros [= <-]. apply list_find_Some in E as (E & _). now apply lookup_lt_Some in E.
Qed.

Lemma get_midi_value_upper s : _get_midi_value (PyStr.upper s) = _get_midi_value s.
Proof.
  unfold _get_midi_value.
  now rewrite upper_length, upper_last, upper_but_last, upper_idem.
Qed.

Lemma get_midi_value_range s m : _get_midi_value s = Some m -> 12 <= m <= 131.
Proof.
  unfold _get_midi_value.
  destruct (String.length s <? 2)%nat; [discriminate|].
  destruct (PyStr.last s ≫= PyStr.int_char) as [o|] eqn:Eo; [|discriminate].
  assert (Ho : 0 <= o <= 9).
  { destruct (PyStr.last s) as [c|]; [|discriminate]. cbn in Eo.
    now apply int_char_range in Eo. }
  match goal with |- (?np ≫= _) = _ -> _ => destruct np as [name_part|] end;
    [|discriminate].
  cbn [mbind option_bind].
  destruct (PyStr.index NOTE_NAMES name_part) as [k|] eqn:Ek; [|discriminate].
  apply index_lt in Ek. cbn in Ek. intros [= <-]. lia.
Qed.

Lemma get_note_name_Some m : 0 <= m <= 127 -> is_Some (_get_note_name m).
Proof.
  intros H. unfold _get_note_name.
  destruct (Z.leb_spec 0 m), (Z.leb_spec m 127); try lia. cbn [andb].
  apply fmap_is_Some, lookup_lt_is_Some. cbn.
  pose proof (Z.mod_pos_bound m 12 ltac:(lia)). lia.
Qed.

Lemma get_note_name_None m : ~ 0 <= m <= 127 -> _get_note_name m = None.
Proof.
  intros H. unfold _get_note_name.
  destruct (Z.leb_spec 0 m), (Z.leb_spec m 127); try lia; reflexivity.
Qed.

Lemma round_trip_check :
  forallb (fun k : nat =>
             match _get_note_name (Z.of_nat k) with
             | Some name =>
                 bool_decide (_get_midi_value name
                              = if 12 <=? Z.of_nat k then Some (Z.of_nat k) else None)
             | None => false
             end)
          (seq 0 128) = true.
Proof. vm_compute. reflexivity. Qed.

Lemma round_trip m name :
  _get_note_name m = Some name ->
  _get_midi_value name = if 12 <=? m then Some m else None.
Proof.
  intros Hn.
  assert (Hm : 0 <= m <= 127).
  { destruct (decide (0 <= m <= 127)) as [H|H]; [exact H|].
    rewrite get_note_name_None in Hn by exact H. discriminate. }
  pose proof (proj1 (forallb_forall _ _) round_trip_check (Z.to_nat m)) as H.
  cbv beta in H. rewrite Z2Nat.id in H by lia. rewrite Hn in H.
  assert (Hin : In (Z.to_nat m) (seq 0 128)) by (apply in_seq; lia).
  specialize (H Hin). apply bool_decide_eq_true in H. exact H.
Qed.

(** X9.  [_get_note_name] and [_get_midi_value] are inverse to each other
    on the MIDI values 12 to 127: the name of such a value is read back as
    that value.  For the values 0 to 11 they are not: their names are in
    octave -1 ("C-1" to "B-1"), which [_get_midi_value] rejects, since it
    takes only the last character as the octave.  Outside 0 to 127
    [_get_note_name] fails. *)
Theorem note_name_round_trip (midi_value : Z) :
  (12 <= midi_value <= 127 ->
   exists name, _get_note_name midi_value = Some name
                /\ _get_midi_value name = Some midi_value)
  /\ (0 <= midi_value < 12 ->
      exists name, _get_note_name midi_value = Some name
                   /\ _get_midi_value name = None)
  /\ (~ 0 <= midi_value <= 127 -> _get_note_name midi_value = None).
Proof.
  split; [|split].
  - intros H. destruct (get_note_name_Some midi_value ltac:(lia)) as [name Hn].
    exists name. split; [exact Hn|]. rewrite (round_trip _ _ Hn).
    destruct (Z.leb_spec 12 midi_value); [reflexivity | lia].
  - intros H. destruct (get_note_name_Some midi_value ltac:(lia)) as [name Hn].
    exists name. split; [exact Hn|]. rewrite (round_trip _ _ Hn).
    destruct (Z.leb_spec 12 midi_value); [lia | reflexivity].
  - apply get_note_name_None.
Qed.

(** X10.  [_get_midi_value] does not tell upper case from lower case in a
    note name; every value it returns lies between 12 and 131 (octave digit
    0 to 9, so names above "G9" give values over 127); and a name of fewer
    than two characters is rejected. *)
Theorem midi_value_of_name (note_name : string) :
  _get_midi_value (PyStr.upper note_name) = _get_midi_value note_name
  /\ (forall m, _get_midi_value note_name = Some m -> 12 <= m <= 131)
  /\ ((String.length note_name < 2)%nat -> _get_midi_value note_name = None).
Proof.
  split; [apply get_midi_value_upper|]. split; [apply get_midi_value_range|].
  intros H. unfold _get_midi_value.
  destruct (Nat.ltb_spec (String.length note_name) 2); [reflexivity | lia].
Qed.

(** X11.  A flat is read as the note before its letter: for a letter other
    than C and an octave digit, the name with "b" (or "B") after the letter
    has the value of the plain name minus one.  "Cb" wraps around inside
    the octave: it has the value of "C" plus eleven, the B of the same
    octave number. *)
Theorem flat_names (letter : string) (octave : Z) :
  letter ∈ ["C"; "D"; "E"; "F"; "G"; "A"; "B"]%string ->
  0 <= octave <= 9 ->
  exists m,
    _get_midi_value (letter +:+ pretty octave) = Some m
    /\ _get_midi_value (letter +:+ "b" +:+ pretty octave)
       = Some (if bool_decide (letter = "C"%string) then m + 11 else m - 1)
    /\ _get_midi_value (letter +:+ "B" +:+ pretty octave)
       = _get_midi_value (letter +:+ "b" +:+ pretty octave).
Proof.
  intros Hl Ho.
  assert (Hz : octave = Z.of_nat (Z.to_nat octave)) by lia.
  assert (Hn : (Z.to_nat octave < 10)%nat) by lia.
  rewrite Hz. clear Hz Ho. generalize dependent (Z.to_nat octave). intros k Hk.
  repeat (apply elem_of_cons in Hl as [->|Hl]);
    [| | | | | | | now apply elem_of_nil in Hl];
    do 10 (destruct k as [|k];
           [eexists; split; [vm_compute; reflexivity|];
            split; vm_compute; reflexivity|]);
    lia.
Qed.

End NoteNames.

Lemma flat_names_witness :
  "D"%string ∈ ["C"; "D"; "E"; "F"; "G"; "A"; "B"]%string
  /\ 0 <= 4 <= 9
  /\ exists m,
       LayoutGenerator._get_midi_value "D4" = Some m
       /\ LayoutGenerator._get_midi_value "Db4" = Some (m - 1).
Proof.
  assert (H1 : "D"%string ∈ ["C"; "D"; "E"; "F"; "G"; "A"; "B"]%string)
    by (apply elem_of_cons; right; apply elem_of_cons; left; reflexivity).
  assert (H2 : 0 <= 4 <= 9) by lia.
  split; [exact H1|]. split; [exact H2|].
  destruct (flat_names "D" 4 H1 H2) as (m & Hm & Hb & _).
  exists m. split; [exact Hm | exact Hb].
Defined.

Section NotesOnDisplay.
Import LayoutGenerator.

Abbreviation in_midi m := ((0 <=? m) && (m <=? 127)).

Lemma in_midi_spec m : in_midi m = true <-> 0 <= m <= 127.
Proof. rewrite andb_true_iff, Z.leb_le, Z.leb_le. tauto. Qed.

Lemma chromatic_values_list start_midi (l : list nat) :
  let notes :=
    flat_map
      (fun i : nat =>
         if in_midi (start_midi + Z.of_nat i) then
           match _get_note_name (start_midi + Z.of_nat i) with
           | Some note_name => [(note_name, start_midi + Z.of_nat i)]
           | None => []
           end
         else [])
      l in
  map snd notes = List.filter (fun m => in_midi m) (map (fun i => start_midi + Z.of_nat i) l)
  /\ Forall (fun nm => _get_note_name (snd nm) = Some (fst nm)
                       /\ exists i, In i l /\ snd nm = start_midi + Z.of_nat i) notes.
Proof.
  cbv zeta.
  induction l as [|i l [IH1 IH2]]; [split; [reflexivity | constructor]|].
  cbn [flat_map map List.filter].
  destruct (in_midi (start_midi + Z.of_nat i)) eqn:E.
  - apply in_midi_spec in E. destruct (get_note_name_Some _ E) as [nm Hnm]. rewrite Hnm.
    cbn [app map snd]. split; [now rewrite IH1|].
    constructor; [split; [exact Hnm | exists i; split; [now left | reflexivity]]|].
    eapply List.Forall_impl; [|exact IH2].
    intros [nm' m'] [H1 (k & Hk & H2)]. split; [exact H1|]. exists k. split; [now right | exact H2].
  - cbn [app]. split; [exact IH1|].
    eapply List.Forall_impl; [|exact IH2].
    intros [nm' m'] [H1 (k & Hk & H2)]. split; [exact H1|]. exists k. split; [now right | exact H2].
Qed.

Lemma chromatic_notes_values start_midi num_notes :
  let notes := _generate_chromatic_notes start_midi num_notes in
  map snd notes
  = List.filter (fun m => in_midi m)
      (map (fun i => start_midi + Z.of_nat i) (seq 0 num_notes))
  /\ Forall (fun nm => _get_note_name (snd nm) = Some (fst nm)
                       /\ exists i, In i (seq 0 num_notes)
                                    /\ snd nm = start_midi + Z.of_nat i) notes.
Proof. exact (chromatic_values_list start_midi (seq 0 num_notes)). Qed.

Lemma filter_length_all {A} (p : A -> bool) l :
  (forall x, In x l -> p x = true) -> length (List.filter p l) = length l.
Proof.
  induction l as [|a l IH]; intros H; [reflexivity|]. cbn.
  rewrite (H a) by now left. cbn. f_equal. apply IH. intros x Hx. apply H. now right.
Qed.

Lemma filter_length_all_inv {A} (p : A -> bool) l :
  length (List.filter p l) = length l -> forall x, In x l -> p x = true.
Proof.
  induction l as [|a l IH]; intros H x Hx; [destruct Hx|].
  cbn in H. pose proof (List.filter_length_le p l) as Hle.
  destruct (p a) eqn:E; cbn in H; [|lia].
  destruct Hx as [<-|Hx]; [exact E|]. apply IH; [lia | exact Hx].
Qed.

(** X12.  [_generate_chromatic_notes] gives the MIDI values
    [start_midi, start_midi + 1, ...] of the [num_notes] requested that lie
    in 0 to 127, in increasing order, each with the name [_get_note_name]
    gives it; values outside 0 to 127 are left out without a warning, so
    the list is shorter than requested exactly when the run leaves that
    range. *)
Theorem chromatic_notes_spec (start_midi : Z) (num_notes : nat) :
  let notes := _generate_chromatic_notes start_midi num_notes in
  map snd notes
  = List.filter (fun m => (0 <=? m) && (m <=? 127))
      (map (fun i => start_midi + Z.of_nat i) (seq 0 num_notes))
  /\ Forall (fun nm => _get_note_name (snd nm) = Some (fst nm)
                       /\ 0 <= snd nm <= 127
                       /\ start_midi <= snd nm < start_midi + Z.of_nat num_notes) notes
  /\ (length notes <= num_notes)%nat
  /\ (length notes = num_notes
      <-> num_notes = 0%nat \/ (0 <= start_midi /\ start_midi + Z.of_nat num_notes <= 128)).
Proof.
  intros notes.
  destruct (chromatic_notes_values start_midi num_notes) as [H1 H2].
  fold notes in H1, H2.
  assert (Hlen : length notes
                 = length (List.filter (fun m => in_midi m)
                             (map (fun i => start_midi + Z.of_nat i) (seq 0 num_notes)))).
  { rewrite <- H1. now rewrite length_map. }
  split; [exact H1|]. split; [|split].
  - eapply List.Forall_impl; [|exact H2].
    intros [nm m] [Hn (i & Hi & Hm)]. cbn [fst snd] in *. split; [exact Hn|].
    apply in_seq in Hi. split; [|lia].
    destruct (decide (0 <= m <= 127)) as [H|H]; [exact H|].
    rewrite get_note_name_None in Hn by exact H. discriminate.
  - rewrite Hlen. etransitivity; [apply List.filter_length_le|].
    now rewrite length_map, length_seq.
  - rewrite Hlen. split.
    + intros E. destruct num_notes as [|k]; [now left|]. right.
      pose proof (filter_length_all_inv (fun m => in_midi m) _
                    ltac:(rewrite E, length_map, length_seq; reflexivity)) as Hall.
      cbv beta in Hall.
      assert (H0 : in_midi (start_midi + Z.of_nat 0) = true).
      { apply Hall, in_map_iff. exists 0%nat. split; [reflexivity|]. apply in_seq. lia. }
      assert (Hk : in_midi (start_midi + Z.of_nat k) = true).
      { apply Hall, in_map_iff. exists k. split; [reflexivity|]. apply in_seq. lia. }
      apply in_midi_spec in H0, Hk. lia.
    + intros [->|[Hlo Hhi]]; [reflexivity|].
      rewrite filter_length_all; [now rewrite length_map, length_seq|].
      intros x Hx. apply in_map_iff in Hx as (i & <- & Hi). apply in_seq in Hi.
      apply in_midi_spec. lia.
Qed.

Lemma chromatic_notes_agree start_midi num_notes :
  12 <= start_midi ->
  Forall (fun nm => _get_midi_value (fst nm) = Some (snd nm) /\ 12 <= snd nm <= 127)
         (_generate_chromatic_notes start_midi num_notes).
Proof.
  intros Hs.
  destruct (chromatic_notes_values start_midi num_notes) as [_ H].
  eapply List.Forall_impl; [|exact H].
  intros [nm m] [Hn (i & Hi & Hm)]. cbn [fst snd] in *.
  assert (Hr : 0 <= m <= 127).
  { destruct (decide (0 <= m <= 127)) as [Hd|Hd]; [exact Hd|].
    rewrite get_note_name_None in Hn by exact Hd. discriminate. }
  rewrite (round_trip _ _ Hn).
  destruct (Z.leb_spec 12 m); [split; [reflexivity | lia] | lia].
Qed.

Lemma scale_notes_agree scale_notes_raw :
  Forall (fun nm => _get_midi_value (fst nm) = Some (snd nm) /\ 12 <= snd nm <= 131)
         (scale_notes_to_display scale_notes_raw)
  /\ forall nm, In nm (scale_notes_to_display scale_notes_raw) -> In (fst nm) scale_notes_raw.
Proof.
  unfold scale_notes_to_display.
  induction scale_notes_raw as [|s l [IH1 IH2]]; [split; [constructor | intros ? []]|].
  cbn [flat_map]. destruct (_get_midi_value s) as [m|] eqn:E; cbn [app].
  - split.
    + constructor; [|exact IH1]. cbn. split; [exact E | exact (get_midi_value_range _ _ E)].
    + intros nm [<-|H]; [now left | right; now apply IH2].
  - split; [exact IH1|]. intros nm H. right. now apply IH2.
Qed.

Lemma scale_notes_none scale_notes_raw :
  Forall (fun s => _get_midi_value s = None) scale_notes_raw ->
  scale_notes_to_display scale_notes_raw = [].
Proof.
  unfold scale_notes_to_display. induction 1 as [|s l Hs _ IH]; [reflexivity|].
  cbn [flat_map]. now rewrite Hs, IH.
Qed.

Lemma choose_notes_cases (starting_note_name : string) (num_octaves : Z)
    (active_scale_name : option string) (preset_scales : list Scale) :
  let chosen := choose_notes starting_note_name num_octaves active_scale_name preset_scales in
  (_get_midi_value starting_note_name = None -> chosen = None)
  /\ forall start_midi,
       _get_midi_value starting_note_name = Some start_midi ->
       let chromatic :=
         _generate_chromatic_notes start_midi (Z.to_nat (num_octaves * 12)) in
       exists notes_to_display,
         chosen = Some notes_to_display
         /\ Forall (fun nm => _get_midi_value (fst nm) = Some (snd nm)
                              /\ 12 <= snd nm <= 131) notes_to_display
         /\ (notes_to_display = chromatic
             \/ exists scale,
                  In scale preset_scales
                  /\ scale_name scale = active_scale_name
                  /\ notes_to_display = scale_notes_to_display (scale_notes scale)
                  /\ notes_to_display <> [])
         /\ (active_scale_name = None \/ active_scale_name = Some EmptyString
             \/ (forall scale, In scale preset_scales ->
                               scale_name scale <> active_scale_name)
             \/ (forall scale, In scale preset_scales ->
                               Forall (fun s => _get_midi_value s = None)
                                      (scale_notes scale)) ->
             notes_to_display = chromatic).
Proof.
  intros chosen. subst chosen. unfold choose_notes. split.
  - intros ->. reflexivity.
  - intros start_midi Hs. cbv zeta. rewrite Hs. cbn [mbind option_bind].
    set (chromatic := _generate_chromatic_notes start_midi (Z.to_nat (num_octaves * 12))).
    assert (Hchrom : Forall (fun nm => _get_midi_value (fst nm) = Some (snd nm)
                                       /\ 12 <= snd nm <= 131) chromatic).
    { eapply List.Forall_impl;
        [|apply chromatic_notes_agree, (get_midi_value_range _ _ Hs)].
      intros nm [H1 H2]. split; [exact H1 | lia]. }
    destruct (scale_requested active_scale_name) eqn:Er;
      [destruct (List.find _ preset_scales) as [scale|] eqn:Ef;
         [destruct (scale_notes_to_display (scale_notes scale)) as [|nm rest] eqn:En|]|];
      try (exists chromatic; split; [reflexivity|]; split; [exact Hchrom|];
           split; [now left|]; intros _; reflexivity).
    apply find_some in Ef as [Hin Hname]. apply bool_decide_eq_true in Hname.
    exists (nm :: rest). split; [reflexivity|]. split; [|split].
    + rewrite <- En. apply scale_notes_agree.
    + right. exists scale. rewrite En. repeat split; [exact Hin | exact Hname | discriminate].
    + intros [H|[H|[H|H]]]; exfalso.
      * rewrite H in Er. discriminate.
      * rewrite H in Er. discriminate.
      * exact (H scale Hin Hname).
      * rewrite (scale_notes_none _ (H scale Hin)) in En. discriminate.
Qed.

Lemma find_first {A} (p : A -> bool) (before : list A) (x : A) (after : list A) :
  (forall y, In y before -> p y = false) -> p x = true ->
  List.find p (before ++ x :: after) = Some x.
Proof.
  intros Hb Hx. induction before as [|y before IH]; cbn [app List.find].
  - now rewrite Hx.
  - rewrite (Hb y) by now left. apply IH. intros z Hz. apply Hb. now right.
Qed.

Lemma find_none_all {A} (p : A -> bool) (l : list A) :
  (forall y, In y l -> p y = false) -> List.find p l = None.
Proof.
  intros H. induction l as [|y l IH]; [reflexivity|]. cbn [List.find].
  rewrite (H y) by now left. apply IH. intros z Hz. apply H. now right.
Qed.

Lemma scale_notes_names scale_notes_raw :
  map fst (scale_notes_to_display scale_notes_raw)
  = List.filter (fun s => bool_decide (is_Some (_get_midi_value s))) scale_notes_raw.
Proof.
  unfold scale_notes_to_display.
  induction scale_notes_raw as [|s l IH]; [reflexivity|].
  cbn [flat_map List.filter]. destruct (_get_midi_value s) as [m|] eqn:E.
  - rewrite bool_decide_eq_true_2 by eauto. cbn. now rewrite IH.
  - rewrite bool_decide_eq_false_2 by (intros [? ?]; discriminate). exact IH.
Qed.

(** X13.  The notes [generate_layout] puts on display.  A starting note
    that is not understood makes it raise, even when a scale is active and
    the starting note is not used.  Otherwise the notes are: the chromatic
    run from the starting note, of [12 * num_octaves] notes cut off at 127,
    when no scale is active or when no preset scale has the active name;
    and else, for the first preset scale of that name, its understood
    notes, that is its note names that [_get_midi_value] understands, in
    their order, each with the value [_get_midi_value] gives it (from 12
    up, not checked against 127), or again the chromatic run when none of
    its names is understood.  Later presets of the same name are never
    used. *)
Theorem choose_notes_spec (starting_note_name : string) (num_octaves : Z)
    (active_scale_name : option string) (preset_scales : list Scale) :
  let chosen := choose_notes starting_note_name num_octaves active_scale_name preset_scales in
  (_get_midi_value starting_note_name = None -> chosen = None)
  /\ forall start_midi,
       _get_midi_value starting_note_name = Some start_midi ->
       let chromatic :=
         _generate_chromatic_notes start_midi (Z.to_nat (num_octaves * 12)) in
       (active_scale_name = None \/ active_scale_name = Some EmptyString ->
        chosen = Some chromatic)
       /\ ((forall scale, In scale preset_scales ->
                          scale_name scale <> active_scale_name) ->
           chosen = Some chromatic)
       /\ (forall name before scale after,
             active_scale_name = Some name -> name <> EmptyString ->
             preset_scales = before ++ scale :: after ->
             (forall earlier, In earlier before -> scale_name earlier <> Some name) ->
             scale_name scale = Some name ->
             let understood :=
               List.filter (fun s => bool_decide (is_Some (_get_midi_value s)))
                           (scale_notes scale) in
             let notes := scale_notes_to_display (scale_notes scale) in
             map fst notes = understood
             /\ Forall (fun nm => _get_midi_value (fst nm) = Some (snd nm)
                                  /\ 12 <= snd nm <= 131) notes
             /\ chosen = Some (match understood with [] => chromatic | _ => notes end)).
Proof.
  intros chosen. subst chosen. unfold choose_notes. split.
  - intros ->. reflexivity.
  - intros start_midi Hs. cbv zeta. rewrite Hs. cbn [mbind option_bind].
    split; [|split].
    + intros [->| ->]; reflexivity.
    + intros Hnone. destruct (scale_requested active_scale_name); [|reflexivity].
      rewrite find_none_all; [reflexivity|].
      intros scale Hin. apply bool_decide_eq_false. now apply Hnone.
    + intros name before scale after -> Hname -> Hbefore Hscale.
      assert (Hreq : scale_requested (Some name) = true)
        by (destruct name; [contradiction | reflexivity]).
      rewrite Hreq, (find_first _ before scale after).
      * split; [apply scale_notes_names|]. split; [apply scale_notes_agree|].
        rewrite <- scale_notes_names.
        now destruct (scale_notes_to_display (scale_notes scale)).
      * intros earlier Hin. apply bool_decide_eq_false. now apply Hbefore.
      * now apply bool_decide_eq_true.
Qed.

End NotesOnDisplay.

Section LayoutFromSettings.
Import LayoutGenerator.

(** X14.  [generate_layout] as a whole, from the settings: it raises
    exactly when the starting note is not understood; otherwise every zone
    it makes carries a note whose MIDI value is the one [_get_midi_value]
    gives the zone's note name, between 12 and 131, is labelled with that
    name, and starts free; and when no scale is active the zones are those
    of the chromatic run, one per note. *)
Theorem layout_zone_notes_agree (starting_note_name : string) (num_octaves : Z)
    (active_scale_name : option string) (preset_scales : list Scale)
    (screen_width screen_height padding : Z) (zone_labels : bool) :
  let made :=
    generate_layout_from_settings starting_note_name num_octaves active_scale_name
      preset_scales screen_width screen_height padding zone_labels in
  (made = None <-> _get_midi_value starting_note_name = None)
  /\ (forall zones, made = Some zones ->
        Forall (fun z => _get_midi_value (note_name z) = Some (note_midi_value z)
                         /\ 12 <= note_midi_value z <= 131
                         /\ label z = note_name z
                         /\ is_active z = false) zones)
  /\ (forall start_midi zones,
        _get_midi_value starting_note_name = Some start_midi ->
        active_scale_name = None ->
        made = Some zones ->
        map (fun z => (note_name z, note_midi_value z)) zones
        = _generate_chromatic_notes start_midi (Z.to_nat (num_octaves * 12))).
Proof.
  intros made. subst made. unfold generate_layout_from_settings.
  destruct (choose_notes_cases starting_note_name num_octaves active_scale_name
              preset_scales) as [Hnone Hsome].
  cbv zeta in Hnone, Hsome.
  destruct (_get_midi_value starting_note_name) as [start_midi|] eqn:Es.
  - destruct (Hsome start_midi eq_refl) as (notes & -> & Hall & _ & Hchrom).
    cbn [mbind option_bind].
    assert (Hz : forall i z,
               generate_layout notes screen_width screen_height padding zone_labels !! i
               = Some z ->
               notes !! i = Some (note_name z, note_midi_value z)
               /\ label z = note_name z /\ is_active z = false).
    { intros i z Hi. rewrite generate_layout_closed in Hi. unfold zone_of_note in Hi.
      destruct (notes !! i) as [[nm mv]|]; [|discriminate].
      cbn zeta in Hi. injection Hi as <-. cbn. destruct zone_labels; auto. }
    split; [split; discriminate|]. split.
    + intros zones [= <-]. apply List.Forall_forall. intros z Hin.
      apply list_elem_of_In, list_elem_of_lookup in Hin as [i Hi].
      destruct (Hz i z Hi) as (Hn & Hl & Ha).
      rewrite List.Forall_forall in Hall.
      assert (Hnm : In (note_name z, note_midi_value z) notes)
        by (apply list_elem_of_In, list_elem_of_lookup; eauto).
      destruct (Hall _ Hnm) as [H1 H2]. cbn [fst snd] in H1, H2. auto.
    + intros start_midi' zones [= <-] Hscale [= <-].
      rewrite <- Hchrom by (left; exact Hscale).
      apply list_eq. intros i. rewrite list_lookup_fmap.
      destruct (generate_layout notes screen_width screen_height padding zone_labels !! i)
        as [z|] eqn:Ez.
      * cbn. symmetry. apply (Hz i z Ez).
      * cbn. symmetry. apply lookup_ge_None. apply lookup_ge_None in Ez.
        pose proof (generate_layout_placed notes screen_width screen_height padding
                      zone_labels) as [Hlen _].
        cbv zeta in Hlen. lia.
  - rewrite (Hnone eq_refl). cbn. split; [tauto|]. split; [discriminate|].
    intros ? ? [=].
Qed.

End LayoutFromSettings.

(** ** The MIDI handler: all five send methods, opening and closing *)

Section MidiMore.
Import Midi.

Variable pick : MidiHandler -> Z.

Lemma pool_invariant_send lo hi self s :
  pool_invariant lo hi self -> pool_invariant lo hi (send pick self s).
Proof.
  intros H. destruct s; cbn [send];
    auto using pool_invariant_send_note_on, pool_invariant_send_note_off;
    unfold send_pitch_bend, send_channel_pressure, send_control_change;
    destruct (port_not_open self); try assumption;
    destruct (active_note_channels self !! finger_id); try assumption;
    now apply pool_invariant_port_send.
Qed.

Lemma pool_invariant_sends lo hi calls self :
  pool_invariant lo hi self -> pool_invariant lo hi (foldl (send pick) self calls).
Proof.
  revert self. induction calls as [|c calls IH]; intros self H; [exact H|].
  cbn [foldl]. apply IH, pool_invariant_send, H.
Qed.

Lemma held_in_range lo hi self f c :
  pool_invariant lo hi self -> active_note_channels self !! f = Some c -> lo <= c <= hi.
Proof.
  intros (_ & Hall & _) Hf. apply Hall, elem_of_union. right.
  apply elem_of_map_img. eauto.
Qed.

Lemma available_in_range lo hi self c :
  pool_invariant lo hi self -> c ∈ available_channels self -> lo <= c <= hi.
Proof. intros (_ & Hall & _) Hc. apply Hall, elem_of_union. now left. Qed.

(** What one call adds to the messages the port was given. *)
Lemma send_appends lo hi self s :
  pool_invariant lo hi self ->
  exists msgs,
    sent_messages (send pick self s) = sent_messages self ++ msgs
    /\ Forall (on_member_channel lo hi) msgs.
Proof.
  intros Hinv.
  assert (Hnil : exists msgs, sent_messages self = sent_messages self ++ msgs
                              /\ Forall (on_member_channel lo hi) msgs)
    by (exists []; split; [now rewrite app_nil_r | constructor]).
  assert (Hone : forall msg c,
             port_not_open self = false -> lo <= c <= hi -> Mido.channel msg = c - 1 ->
             forall avail active,
             exists msgs,
               sent_messages (port_send (set_channels self avail active) msg)
               = sent_messages self ++ msgs
               /\ Forall (on_member_channel lo hi) msgs).
  { intros msg c Hp Hc Hm avail active. exists [msg]. split.
    - rewrite sent_messages_port_send by exact Hp. reflexivity.
    - repeat constructor; unfold on_member_channel; lia. }
  assert (Hsame : forall msg c,
             port_not_open self = false -> lo <= c <= hi -> Mido.channel msg = c - 1 ->
             exists msgs,
               sent_messages (port_send self msg) = sent_messages self ++ msgs
               /\ Forall (on_member_channel lo hi) msgs).
  { intros msg c Hp Hc Hm. exists [msg]. split.
    - now apply sent_messages_port_send.
    - repeat constructor; unfold on_member_channel; lia. }
  destruct s; cbn [send];
    unfold send_note_on, send_note_off, send_pitch_bend, send_channel_pressure,
      send_control_change;
    destruct (port_not_open self) eqn:Hp; try exact Hnil;
    destruct (active_note_channels self !! finger_id) as [c|] eqn:Ef;
    try exact Hnil;
    try (eapply Hsame; [reflexivity | eapply held_in_range; eassumption | reflexivity]);
    try (eapply Hone; [reflexivity | eapply held_in_range; eassumption | reflexivity]).
  - destruct (set_pop (pick self) (available_channels self)) as [[c rest]|] eqn:Ep.
    + apply set_pop_Some in Ep as [Hc _].
      eapply Hone; [reflexivity | eapply available_in_range; eassumption | reflexivity].
    + exact Hnil.
Qed.

Lemma channel_set_size lo hi : size (channel_set lo hi) = Z.to_nat (hi + 1 - lo).
Proof.
  unfold channel_set. rewrite size_list_to_set.
  - now rewrite length_map, length_seq.
  - apply NoDup_fmap_2; [intros i j; lia | apply NoDup_seq].
Qed.

Lemma count_send lo hi self s :
  pool_invariant lo hi self ->
  (size (active_note_channels (send pick self s))
   + size (available_channels (send pick self s))
   = size (active_note_channels self) + size (available_channels self))%nat.
Proof.
  intros (Hdisj & _ & _).
  destruct s; cbn [send];
    unfold send_note_on, send_note_off, send_pitch_bend, send_channel_pressure,
      send_control_change;
    destruct (port_not_open self); try reflexivity;
    destruct (active_note_channels self !! finger_id) as [c|] eqn:Ef;
    try reflexivity.
  - destruct (set_pop (pick self) (available_channels self)) as [[c rest]|] eqn:Ep;
      [|reflexivity].
    apply set_pop_Some in Ep as [Hc ->]. cbn.
    rewrite map_size_insert_None by exact Ef.
    rewrite size_difference by (now apply singleton_subseteq_l).
    rewrite size_singleton.
    assert (size (available_channels self) <> 0%nat).
    { intros E. apply size_empty_inv in E. apply (not_elem_of_empty (C:=gset Z) c).
      now apply E. }
    lia.
  - cbn. rewrite map_size_delete_Some by eauto.
    rewrite size_union, size_singleton.
    + assert (size (active_note_channels self) <> 0%nat).
      { intros E. apply map_size_empty_inv in E. rewrite E in Ef.
        now rewrite lookup_empty in Ef. }
      lia.
    + intros c' H1 H2. apply elem_of_singleton in H1 as ->.
      apply (Hdisj c H2). apply elem_of_map_img. eauto.
Qed.

Lemma sends_append lo hi calls self :
  pool_invariant lo hi self ->
  exists msgs,
    sent_messages (foldl (send pick) self calls) = sent_messages self ++ msgs
    /\ Forall (on_member_channel lo hi) msgs.
Proof.
  intros Hinv. induction calls as [|c calls IH] using rev_ind.
  - exists []. split; [now rewrite app_nil_r | constructor].
  - rewrite foldl_app. cbn [foldl].
    destruct IH as (msgs & E & Hall).
    destruct (send_appends lo hi (foldl (send pick) self calls) c
                (pool_invariant_sends lo hi calls self Hinv)) as (more & E' & Hmore).
    exists (msgs ++ more). split.
    + rewrite E', E. now rewrite app_assoc.
    + apply Forall_app. split; assumption.
Qed.

Lemma master_channel_sends calls self :
  master_channel (foldl (send pick) self calls) = master_channel self.
Proof.
  revert self. induction calls as [|c calls IH]; intros self; [reflexivity|].
  cbn [foldl]. rewrite IH.
  destruct c; cbn [send];
    unfold send_note_on, send_note_off, send_pitch_bend, send_channel_pressure,
      send_control_change;
    destruct (port_not_open self); try reflexivity;
    destruct (active_note_channels self !! finger_id); try reflexivity.
  destruct (set_pop _ _) as [[? ?]|]; reflexivity.
Qed.

Lemma effective_range_bounds mpe_ch_range :
  1 <= fst (effective_range mpe_ch_range) <= snd (effective_range mpe_ch_range)
  /\ snd (effective_range mpe_ch_range) <= 16.
Proof.
  unfold effective_range, valid_range.
  destruct mpe_ch_range as [[|lo [|hi [|? ?]]]|]; cbn; try lia.
  destruct (Z.leb_spec 1 lo), (Z.leb_spec lo 16), (Z.leb_spec 1 hi), (Z.leb_spec hi 16),
    (Z.leb_spec lo hi); cbn; lia.
Qed.

(** X15.  The pool invariant holds through any calls of all five send
    methods (not only the two note methods), and channels are conserved:
    at every moment the number of fingers that hold a channel plus the
    number of available channels is the size of the range the pool was
    built from, which is at most 16.  So never more fingers sound than
    there are member channels. *)
Theorem channels_are_conserved (mpe_ch_range : option (list Z))
    (opened : option Mido.OutputPort) (calls : list Send) :
  let self := foldl (send pick) (init mpe_ch_range opened) calls in
  let lo := fst (effective_range mpe_ch_range) in
  let hi := snd (effective_range mpe_ch_range) in
  pool_invariant lo hi self
  /\ (size (active_note_channels self) + size (available_channels self)
      = Z.to_nat (hi - lo + 1))%nat
  /\ 1 <= lo <= hi /\ hi <= 16.
Proof.
  intros self lo hi.
  assert (Hinit : pool_invariant lo hi (init mpe_ch_range opened))
    by apply pool_invariant_init.
  split; [now apply pool_invariant_sends|]. split.
  - subst self. revert Hinit.
    assert (H0 : (size (active_note_channels (init mpe_ch_range opened))
                  + size (available_channels (init mpe_ch_range opened))
                  = Z.to_nat (hi - lo + 1))%nat).
    { subst lo hi. unfold init. destruct (effective_range mpe_ch_range) as [lo hi].
      cbn. rewrite map_size_empty, channel_set_size. f_equal. lia. }
    revert H0. generalize (init mpe_ch_range opened).
    induction calls as [|c calls IH]; intros self H0 Hinv; [exact H0|].
    cbn [foldl]. apply IH.
    + rewrite (count_send lo hi) by exact Hinv. exact H0.
    + now apply pool_invariant_send.
  - apply effective_range_bounds.
Qed.

(** X16.  Every message the handler sends goes out on a member channel:
    whatever calls are made, the messages added to the port carry a channel
    between [lo - 1] and [hi - 1] in the numbering of the wire, where
    [lo, hi] is the range the pool was built from.  With the default range
    [2, 16] (and any range with [lo >= 2]) nothing is ever sent on the
    master channel, wire channel 0. *)
Theorem messages_on_member_channels (mpe_ch_range : option (list Z))
    (opened : option Mido.OutputPort) (calls : list Send) :
  let self := foldl (send pick) (init mpe_ch_range opened) calls in
  let lo := fst (effective_range mpe_ch_range) in
  let hi := snd (effective_range mpe_ch_range) in
  exists msgs,
    sent_messages self = sent_messages (init mpe_ch_range opened) ++ msgs
    /\ Forall (on_member_channel lo hi) msgs
    /\ Forall (fun msg => 0 <= Mido.channel msg <= 15) msgs
    /\ (2 <= lo -> Forall (fun msg => Mido.channel msg <> master_channel self - 1) msgs).
Proof.
  intros self lo hi.
  assert (Hinit : pool_invariant lo hi (init mpe_ch_range opened))
    by apply pool_invariant_init.
  pose proof (effective_range_bounds mpe_ch_range) as Hrange. fold lo hi in Hrange.
  assert (Hmaster : master_channel self = 1).
  { subst self. rewrite master_channel_sends. unfold init.
    now destruct (effective_range mpe_ch_range). }
  destruct (sends_append lo hi calls _ Hinit) as (msgs & E & Hall). exists msgs.
  split; [exact E|]. split; [exact Hall|]. split.
  - eapply List.Forall_impl; [|exact Hall]. unfold on_member_channel. intros msg. cbv beta. lia.
  - intros Hlo. rewrite Hmaster.
    eapply List.Forall_impl; [|exact Hall]. unfold on_member_channel. intros msg. cbv beta. lia.
Qed.

End MidiMore.

Section MidiPort.
Import Midi.

Variable pick : MidiHandler -> Z.

Lemma send_not_open self s : port_not_open self = true -> send pick self s = self.
Proof.
  intros Hp. destruct s; cbn [send];
    unfold send_note_on, send_note_off, send_pitch_bend, send_channel_pressure,
      send_control_change; now rewrite Hp.
Qed.

Lemma sends_not_open self calls :
  port_not_open self = true -> foldl (send pick) self calls = self.
Proof.
  intros Hp. induction calls as [|c calls IH]; [reflexivity|].
  cbn [foldl]. now rewrite send_not_open.
Qed.

Lemma close_port_not_open self : port_not_open (close_port self) = true.
Proof.
  unfold port_not_open, close_port. cbn.
  destruct (port self) as [p|]; [|reflexivity].
  destruct (Mido.closed p) eqn:E; [exact E | reflexivity].
Qed.

Lemma close_port_pool lo hi self :
  pool_invariant lo hi self ->
  available_channels (close_port self) = channel_set lo hi
  /\ pool_invariant lo hi (close_port self).
Proof.
  intros (Hdisj & Hall & Hinj).
  assert (E : available_channels (close_port self) = channel_set lo hi).
  { apply set_eq. intros c. rewrite elem_of_channel_set. apply Hall. }
  split; [exact E|].
  unfold pool_invariant, held, one_finger_per_channel. rewrite E. cbn.
  rewrite map_img_empty_L. split; [|split].
  - apply disjoint_empty_r.
  - intros c. rewrite union_empty_r_L. apply elem_of_channel_set.
  - intros f1 f2 c Hc. now rewrite lookup_empty in Hc.
Qed.

(** X17.  [close_port] gives every held channel back: on a handler whose
    pool is sound for the range [lo, hi], it leaves all channels of the
    range available and no finger holding one, with the pool sound again.
    Afterwards the port is not open, so any further calls of the send
    methods change nothing; and closing twice is the same as closing
    once. *)
Theorem close_port_reclaims (lo hi : Z) (self : MidiHandler) (calls : list Send) :
  pool_invariant lo hi self ->
  let closed := close_port self in
  available_channels closed = channel_set lo hi
  /\ active_note_channels closed = ∅
  /\ pool_invariant lo hi closed
  /\ port_not_open closed = true
  /\ foldl (send pick) closed calls = closed
  /\ close_port closed = closed.
Proof.
  intros Hinv closed. subst closed.
  destruct (close_port_pool lo hi self Hinv) as [E Hinv'].
  split; [exact E|]. split; [reflexivity|]. split; [exact Hinv'|]. split; [|split].
  - apply close_port_not_open.
  - apply sends_not_open, close_port_not_open.
  - unfold close_port at 1. cbn [active_note_channels available_channels port
      master_channel console close_port].
    rewrite map_img_empty_L, union_empty_r_L.
    unfold close_port. f_equal.
    destruct (port self) as [p|]; [|reflexivity].
    destruct (Mido.closed p) eqn:Ec; [now rewrite Ec | reflexivity].
Qed.

(** X18.  A note-on followed by the note-off of the same finger, for a
    finger that held no channel, with a MIDI note and a MIDI velocity (0 to
    127) on a handler whose channels are MIDI channels (1 to 16), leaves
    the pool as it was: the same channels are available and the same
    fingers hold the same channels.  When the port is open and a channel
    is available, exactly two messages go out, both accepted by [mido], on
    one channel, which was available before; the note-off carries velocity
    0. *)
Theorem note_on_off_round_trip (note velocity : Z) (finger_id : FingerId)
    (self : MidiHandler) :
  active_note_channels self !! finger_id = None ->
  0 <= note <= 127 -> 0 <= velocity <= 127 ->
  channels_on_wire self ->
  let self' := send_note_off note finger_id (send_note_on pick note velocity finger_id self) in
  available_channels self' = available_channels self
  /\ active_note_channels self' = active_note_channels self
  /\ (port_not_open self = false -> available_channels self <> ∅ ->
      exists channel,
        channel ∈ available_channels self
        /\ 1 <= channel <= 16
        /\ active_note_channels (send_note_on pick note velocity finger_id self)
             !! finger_id = Some channel
        /\ sent_messages self'
           = sent_messages self
             ++ [Mido.note_on note velocity (channel - 1);
                 Mido.note_off note 0 (channel - 1)]
        /\ Mido.valid (Mido.note_on note velocity (channel - 1)) = true
        /\ Mido.valid (Mido.note_off note 0 (channel - 1)) = true).
Proof.
  intros Hf Hnote Hvel Hwire self'. subst self'. unfold send_note_on.
  destruct (port_not_open self) eqn:Hp.
  { unfold send_note_off. rewrite Hp. repeat split. discriminate. }
  rewrite Hf.
  destruct (set_pop (pick self) (available_channels self)) as [[c rest]|] eqn:Ep.
  - apply set_pop_Some in Ep as [Hc ->].
    set (s1 := port_send (set_channels self (available_channels self ∖ {[c]})
                            (<[finger_id:=c]> (active_note_channels self)))
                 (Mido.note_on note velocity (c - 1))).
    assert (Hp1 : port_not_open s1 = false)
      by (unfold s1; rewrite port_not_open_port_send; exact Hp).
    assert (Hf1 : active_note_channels s1 !! finger_id = Some c) by apply lookup_insert_eq.
    unfold send_note_off. rewrite Hp1, Hf1.
    cbn [active_note_channels port_send set_channels available_channels s1].
    rewrite delete_insert_id by exact Hf.
    rewrite <- union_difference_singleton_L by exact Hc.
    split; [reflexivity|]. split; [reflexivity|].
    assert (Hrange : 1 <= c <= 16) by (apply Hwire, elem_of_union; now left).
    intros _ _. exists c. split; [exact Hc|]. split; [exact Hrange|].
    split; [reflexivity|]. split.
    + unfold sent_messages, port_not_open in *. cbn.
      destruct (port self) as [p|]; [|discriminate]. cbn. now rewrite <- app_assoc.
    + cbn [Mido.valid]. unfold Mido.data_byte.
      rewrite !andb_true_iff, !Z.leb_le. lia.
  - apply set_pop_None in Ep.
    assert (Hp1 : port_not_open (print self WarnRanOutOfChannels) = false) by exact Hp.
    assert (Hf1 : active_note_channels (print self WarnRanOutOfChannels) !! finger_id = None)
      by exact Hf.
    unfold send_note_off. rewrite Hp1, Hf1. cbn.
    split; [reflexivity|]. split; [reflexivity|]. intros _ Hne. contradiction.
Qed.

(** X19.  [open_port] with a configured port name that is not among the
    available ports opens nothing: it does not fall back on another port.
    The handler is left without a port, its channels untouched, and every
    send call returns it unchanged.  On a handler whose port is open,
    [open_port] does nothing at all. *)
Theorem open_port_unknown_name (midi_output_port_name : string)
    (available_ports : list string)
    (open_output : option string -> option Mido.OutputPort)
    (self : MidiHandler) (calls : list Send) :
  midi_output_port_name <> EmptyString ->
  midi_output_port_name ∉ available_ports ->
  let opened := open_port (Some midi_output_port_name) available_ports open_output self in
  (port_not_open self = true ->
   port opened = None
   /\ available_channels opened = available_channels self
   /\ active_note_channels opened = active_note_channels self
   /\ foldl (send pick) opened calls = opened)
  /\ (port_not_open self = false -> opened = self).
Proof.
  intros Hne Hnot opened. subst opened. unfold open_port. split.
  - intros Hp. rewrite Hp. cbn [negb].
    assert (E : port
                  {| available_channels := available_channels self;
                     master_channel := master_channel self;
                     active_note_channels := active_note_channels self;
                     port :=
                       match midi_output_port_name with
                       | EmptyString => open_output None
                       | String _ _ =>
                           if bool_decide (midi_output_port_name ∈ available_ports)
                           then open_output (Some midi_output_port_name)
                           else None
                       end;
                     console := console self |} = None).
    { cbn. destruct midi_output_port_name; [contradiction|].
      now rewrite bool_decide_eq_false_2. }
    split; [exact E|]. split; [reflexivity|]. split; [reflexivity|].
    apply sends_not_open. unfold port_not_open. now rewrite E.
  - intros Hp. now rewrite Hp.
Qed.

End MidiPort.

Section AudioShutdown.
Context {S : Type}.
Variable synth : Audio.SynthOps S.
Variable pick : MidiHandler -> Z.

Lemma midi_dispatch_not_open mh c :
  Midi.port_not_open mh = true -> Audio.midi_dispatch pick mh c = mh.
Proof.
  intros Hp. destruct c; cbn [Audio.midi_dispatch];
    unfold Midi.send_note_on, Midi.send_note_off, Midi.send_pitch_bend,
      Midi.send_channel_pressure; now rewrite Hp.
Qed.

(** X20.  After [shutdown] the engine's MIDI handler is the one
    [close_port] leaves: all channels of the range are available again
    and no finger holds one.  Commands issued after the shutdown never
    reach the port and leave the handler as it is. *)
Theorem shutdown_silences_midi (close : S -> S) (self : Audio.AudioEngine S)
    (mh : MidiHandler) (lo hi : Z) (commands : list AudioCall) :
  Audio.midi_handler self = Some mh ->
  Midi.pool_invariant lo hi mh ->
  let after := foldl (Audio.dispatch synth pick) (Audio.shutdown close self) commands in
  Audio.midi_handler after = Some (Midi.close_port mh)
  /\ available_channels (Midi.close_port mh) = Midi.channel_set lo hi
  /\ active_note_channels (Midi.close_port mh) = ∅
  /\ Midi.port_not_open (Midi.close_port mh) = true.
Proof.
  intros Hmh Hinv after. subst after.
  split; [|split; [apply (close_port_pool lo hi mh Hinv)
                  |split; [reflexivity | apply close_port_not_open]]].
  rewrite midi_handler_fold. unfold Audio.shutdown. cbn. rewrite Hmh. cbn. f_equal.
  induction commands as [|c cs IH]; [reflexivity|].
  cbn [foldl]. rewrite midi_dispatch_not_open by apply close_port_not_open. exact IH.
Qed.

End AudioShutdown.

(** ** The interaction manager: what a frame keeps and what it issues *)

Section InteractionMore.
Import Interaction.
Context {S : Type}.
Variable synth : Audio.SynthOps S.
Variable pick : MidiHandler -> Z.
Variable target_fingers : gset Z.

Abbreviation process_hands_data := (Interaction.process_hands_data synth pick target_fingers).
Abbreviation release_pass := (Interaction.release_pass synth pick).
Abbreviation claim_reach := (Interaction.claim_reach synth pick target_fingers).
Abbreviation claim_step := (Interaction.claim_step synth pick).
Abbreviation run_frames := (Interaction.run_frames synth pick target_fingers).
Abbreviation cleanup_stale_notes := (Interaction.cleanup_stale_notes synth pick).
Abbreviation dispatch := (Audio.dispatch synth pick).

Lemma releases_zone_true store hands items r :
  releases_zone store hands items r = true
  <-> exists g nd, In (g, nd) items /\ is_sustained store hands (g, nd) = false
                   /\ zone nd = r.
Proof.
  unfold releases_zone. rewrite existsb_exists. split.
  - intros ([g nd] & Hin & H). apply andb_true_iff in H as [H1 H2].
    apply negb_true_iff in H1. apply bool_decide_eq_true in H2. eauto.
  - intros (g & nd & Hin & H1 & H2). exists (g, nd). split; [exact Hin|].
    rewrite H1. cbn. now apply bool_decide_eq_true.
Qed.

Lemma release_pass_consistent hands (w : World S) :
  consistent w -> consistent (fst (release_pass hands w)).
Proof.
  intros (Hnd & Hent & Hact).
  destruct (release_pass_spec synth pick hands w)
    as (_ & _ & Hstore & _ & remove & Hnotes & Hremove).
  cbv zeta in Hstore, Hnotes, Hremove.
  assert (Hin : forall g nd,
             In (g, nd) (active_notes (fst (release_pass hands w)))
             <-> In (g, nd) (active_notes w)
                 /\ is_sustained (zone_store w) hands (g, nd) = true).
  { intros g nd. rewrite Hnotes, filter_In. cbn [fst]. split.
    - intros [H1 H2]. split; [exact H1|].
      apply negb_true_iff, bool_decide_eq_false in H2.
      destruct (is_sustained (zone_store w) hands (g, nd)) eqn:E; [reflexivity|].
      exfalso. apply H2, Hremove. eauto.
    - intros [H1 H2]. split; [exact H1|].
      apply negb_true_iff, bool_decide_eq_false. intros Hr.
      apply Hremove in Hr as (nd' & H3 & H4).
      rewrite (keys_unique_value _ _ _ _ Hnd H1 H3) in H2. congruence. }
  assert (Hkeep : forall g nd,
             In (g, nd) (active_notes w) ->
             is_sustained (zone_store w) hands (g, nd) = true ->
             releases_zone (zone_store w) hands (active_notes w) (zone nd) = false).
  { intros g nd H1 H2.
    destruct (releases_zone _ _ _ _) eqn:E; [|reflexivity]. exfalso.
    apply releases_zone_true in E as (g' & nd' & H3 & H4 & H5).
    destruct (Hent g nd H1) as (_ & Ho & _).
    destruct (Hent g' nd' H3) as (_ & Ho' & _).
    rewrite H5, Ho in Ho'. injection Ho' as <-.
    rewrite (keys_unique_value _ _ _ _ Hnd H1 H3) in H2. congruence. }
  split; [|split].
  - rewrite Hnotes. apply keys_unique_filter, Hnd.
  - intros f nd Hf. apply Hin in Hf as [H1 H2].
    rewrite Hstore, (Hkeep f nd H1 H2). apply Hent, H1.
  - intros r Hr. rewrite Hstore in Hr.
    destruct (releases_zone (zone_store w) hands (active_notes w) r) eqn:E;
      [discriminate Hr|].
    destruct (Hact r Hr) as (f & nd & H1 & H2).
    exists f, nd. split; [|exact H2]. apply Hin. split; [exact H1|].
    destruct (is_sustained (zone_store w) hands (f, nd)) eqn:E'; [reflexivity|].
    exfalso. assert (releases_zone (zone_store w) hands (active_notes w) r = true)
      by (apply releases_zone_true; eauto). congruence.
Qed.

Lemma dict_set_absent {V} (d : list (FingerId * V)) k v :
  dict_get d k = None -> dict_set d k v = d ++ [(k, v)].
Proof.
  unfold dict_get. induction d as [|[k' v'] d IH]; intros H; [reflexivity|].
  cbn [dict_set List.find] in *. cbn [fst] in H.
  destruct (bool_decide (k' = k)); [discriminate|]. cbn [app]. f_equal. apply IH, H.
Qed.

Lemma claim_step_consistent f y r (w : World S) processed :
  dict_in (active_notes w) f = false ->
  is_active (zone_store w r) = false ->
  consistent w -> consistent (fst (claim_step f y r (w, processed))).
Proof.
  intros Hf Hr (Hnd & Hent & Hact). apply dict_in_false in Hf.
  unfold Interaction.claim_step, consistent.
  cbn [fst set_active_notes set_zone emit active_notes zone_store].
  rewrite (dict_set_absent _ _ _ Hf).
  split; [|split].
  - rewrite map_app. apply list.NoDup_app.
    split; [exact Hnd|]. split; [|apply NoDup_singleton].
    intros k Hk Hk'. apply list_elem_of_singleton in Hk' as ->.
    now apply (dict_get_None_keys _ _ Hf).
  - intros g nd Hin. apply in_app_or in Hin as [Hin|[[= <- <-]|[]]].
    + destruct (Hent g nd Hin) as (H1 & H2 & H3).
      rewrite fn_lookup_insert_ne by (intros ->; congruence). auto.
    + cbn [zone midi_note]. rewrite fn_lookup_insert. auto.
  - intros r' Hr'. destruct (decide (r = r')) as [<-|N].
    + do 2 eexists. split; [apply in_or_app; right; now left | reflexivity].
    + rewrite fn_lookup_insert_ne in Hr' by exact N.
      destruct (Hact r' Hr') as (g & nd & H1 & H2).
      exists g, nd. split; [apply in_or_app; now left | exact H2].
Qed.

Lemma claim_reach_consistent hands zones a b :
  claim_reach hands zones a b -> consistent (fst a) -> consistent (fst b).
Proof.
  induction 1 as [|[w processed] f x y r Hab IH Hproc Hin Hshown Hcand Hact]; [exact id|].
  intros Ha. cbn [fst snd] in *. apply claim_step_consistent; auto.
Qed.

Lemma process_hands_data_consistent hands zones (w : World S) :
  consistent w -> consistent (process_hands_data hands zones w).
Proof.
  intros H. unfold Interaction.process_hands_data.
  apply (claim_reach_consistent hands zones (release_pass hands w)).
  - apply claim_pass_reach.
  - apply release_pass_consistent, H.
Qed.

Lemma run_frames_consistent frames (w : World S) :
  consistent w -> consistent (run_frames frames w).
Proof.
  unfold Interaction.run_frames. revert w.
  induction frames as [|fr frames IH]; intros w H; [exact H|].
  cbn [foldl]. apply IH, process_hands_data_consistent, H.
Qed.

Lemma consistent_distinct_zones (w : World S) f1 f2 nd1 nd2 :
  consistent w ->
  dict_get (active_notes w) f1 = Some nd1 ->
  dict_get (active_notes w) f2 = Some nd2 ->
  f1 <> f2 -> zone nd1 <> zone nd2.
Proof.
  intros (_ & Hent & _) H1 H2 Hne E.
  apply dict_get_In in H1, H2.
  destruct (Hent _ _ H1) as (_ & Ho1 & _). destruct (Hent _ _ H2) as (_ & Ho2 & _).
  rewrite E in Ho1. congruence.
Qed.

(** X21.  The table of sounding notes and the zones stay in step, frame
    after frame.  From a state in which they agree (no finger bound twice;
    the zone of every binding active, owned by the binding's finger and
    holding the binding's note; every active zone the zone of a binding),
    any number of frames leads to a state in which they agree again.  So
    two different fingers never hold the same zone, and a zone is shown
    active exactly while a finger is bound to it. *)
Theorem bindings_and_zones_agree (frames : list (list Hand * list ZoneRef)) (w : World S) :
  consistent w ->
  let w' := run_frames frames w in
  consistent w'
  /\ (forall f1 f2 nd1 nd2,
        dict_get (active_notes w') f1 = Some nd1 ->
        dict_get (active_notes w') f2 = Some nd2 ->
        f1 <> f2 -> zone nd1 <> zone nd2)
  /\ (forall r, is_active (zone_store w' r) = true
                <-> exists f nd, dict_get (active_notes w') f = Some nd /\ zone nd = r)
  /\ (forall f nd, dict_get (active_notes w') f = Some nd ->
                   active_finger_id (zone_store w' (zone nd)) = Some f
                   /\ midi_note nd = note_midi_value (zone_store w' (zone nd))).
Proof.
  intros H w'. pose proof (run_frames_consistent frames w H) as H'. fold w' in H'.
  split; [exact H'|]. split; [|split].
  - intros f1 f2 nd1 nd2. now apply consistent_distinct_zones.
  - intros r. destruct H' as (Hnd & Hent & Hact). split.
    + intros Hr. destruct (Hact r Hr) as (f & nd & Hin & Hz).
      exists f, nd. split; [|exact Hz].
      destruct (dict_get (active_notes w') f) as [nd'|] eqn:E.
      * apply dict_get_In in E. now rewrite (keys_unique_value _ _ _ _ Hnd Hin E).
      * apply dict_get_None_keys in E. exfalso. apply E.
        apply list_elem_of_In, in_map_iff. exists (f, nd). auto.
    + intros (f & nd & Hg & <-). apply dict_get_In in Hg. apply (Hent f nd Hg).
  - intros f nd Hg. apply dict_get_In in Hg. destruct H' as (_ & Hent & _).
    destruct (Hent f nd Hg) as (_ & H1 & H2). auto.
Qed.

End InteractionMore.

Section FrameCommands.
Import Interaction.
Context {S : Type}.
Variable synth : Audio.SynthOps S.
Variable pick : MidiHandler -> Z.
Variable target_fingers : gset Z.

Abbreviation process_hands_data := (Interaction.process_hands_data synth pick target_fingers).
Abbreviation release_pass := (Interaction.release_pass synth pick).
Abbreviation claim_reach := (Interaction.claim_reach synth pick target_fingers).
Abbreviation run_frames := (Interaction.run_frames synth pick target_fingers).
Abbreviation dispatch := (Audio.dispatch synth pick).
Abbreviation midi_dispatch := (Audio.midi_dispatch pick).

(** X22.  The commands of one frame.  [process_hands_data] issues first
    the commands of the notes that were sounding (pitch bends, intensity
    updates and note-offs; no note-on), then the note-ons of the new notes
    and nothing else: every release comes before every new note.  Every
    velocity and pressure it issues lies in [0, 127] and every bend in
    [-8191, 8191]; no finger gets more than one note-on in a frame; and the
    audio engine has received exactly these commands, in this order. *)
Theorem frame_commands (hands_data : list Hand) (zones : list ZoneRef) (w : World S) :
  let w2 := process_hands_data hands_data zones w in
  exists releases claims,
    issued w2 = issued w ++ releases ++ claims
    /\ forallb (fun c => negb (is_note_on c)) releases = true
    /\ forallb is_note_on claims = true
    /\ forallb in_midi_range (releases ++ claims) = true
    /\ (forall g, (length (List.filter (about g) claims) <= 1)%nat)
    /\ audio_engine w2 = foldl dispatch (audio_engine w) (releases ++ claims).
Proof.
  intros w2. subst w2.
  destruct (release_pass_spec synth pick hands_data w) as (R1 & R2 & _).
  cbv zeta in R1, R2.
  pose proof (frame_split synth pick target_fingers hands_data zones w) as Hreach.
  cbv zeta in Hreach.
  destruct (claim_reach_inv synth pick target_fingers _ _ _ _ Hreach)
    as (_ & _ & _ & I4 & new & N1 & N2 & N3 & N4 & N5 & _).
  destruct (claim_reach_in_range synth pick target_fingers _ _ _ _ Hreach) as (new' & N1' & Hrange).
  cbn [fst snd] in *.
  assert (new' = new) as -> by (rewrite N1 in N1'; now apply app_inv_head in N1').
  exists (flat_map (calls_of (zone_store w) hands_data) (active_notes w)), new.
  split; [now rewrite N1, R1, app_assoc|].
  split; [apply pass1_calls_quiet|]. split; [exact N3|].
  split; [now rewrite forallb_app, pass1_calls_in_range, Hrange|]. split.
  - intros g.
    destruct (dict_in (active_notes (fst (release_pass hands_data w))) g) eqn:Eg.
    + assert (Hb : blocked target_fingers hands_data zones (release_pass hands_data w) g)
        by (right; left; exact Eg).
      rewrite (proj1 (N4 g Hb)). cbn. lia.
    + rewrite (N5 g Eg).
      match goal with |- context [if ?b then _ else _] => destruct b end; lia.
  - now rewrite N2, R2, foldl_app.
Qed.

(** *** Channels and bindings *)

Lemma port_open_dispatch mh c :
  Midi.port_not_open (midi_dispatch mh c) = Midi.port_not_open mh.
Proof.
  destruct c as [n v f|n f|b f|p f n]; cbn [Audio.midi_dispatch];
    unfold Midi.send_note_on, Midi.send_note_off, Midi.send_pitch_bend,
      Midi.send_channel_pressure;
    destruct (Midi.port_not_open mh) eqn:Hp; try exact Hp;
    destruct (active_note_channels mh !! f); try exact Hp;
    try (rewrite port_not_open_port_send; exact Hp).
  destruct (Midi.set_pop _ _) as [[c rest]|]; [|exact Hp].
  rewrite port_not_open_port_send. exact Hp.
Qed.

Lemma port_open_fold cs mh :
  Midi.port_not_open (foldl midi_dispatch mh cs) = Midi.port_not_open mh.
Proof.
  revert mh. induction cs as [|c cs IH]; intros mh; [reflexivity|].
  cbn [foldl]. now rewrite IH, port_open_dispatch.
Qed.

Lemma quiet_fold cs mh g ch :
  forallb (fun c => negb (is_note_on c)) cs = true ->
  active_note_channels (foldl midi_dispatch mh cs) !! g = Some ch ->
  active_note_channels mh !! g = Some ch.
Proof.
  revert mh. induction cs as [|c cs IH]; intros mh Hq H; [exact H|].
  cbn [forallb foldl] in *. apply andb_true_iff in Hq as [Hc Hq].
  apply negb_true_iff in Hc.
  apply (proj2 (proj2 (quiet_step pick mh c Hc))). now apply IH.
Qed.

Lemma frame_keys_unique hands zones (w : World S) :
  NoDup (map fst (active_notes w)) ->
  NoDup (map fst (active_notes (process_hands_data hands zones w))).
Proof.
  intros Hnd.
  destruct (release_pass_spec synth pick hands w) as (_ & _ & _ & _ & remove & Hnotes & _).
  cbv zeta in Hnotes.
  pose proof (frame_split synth pick target_fingers hands zones w) as Hreach.
  cbv zeta in Hreach.
  destruct (claim_reach_inv synth pick target_fingers _ _ _ _ Hreach)
    as (_ & _ & _ & _ & new & _ & _ & _ & _ & _ & _ & N7).
  apply N7. cbn [fst]. rewrite Hnotes. now apply keys_unique_filter.
Qed.

Lemma frame_channels_bound hands zones (w : World S) mh :
  NoDup (map fst (active_notes w)) ->
  Audio.midi_handler (audio_engine w) = Some mh ->
  Midi.port_not_open mh = false ->
  (forall g, is_Some (active_note_channels mh !! g) -> dict_in (active_notes w) g = true) ->
  exists mh',
    Audio.midi_handler (audio_engine (process_hands_data hands zones w)) = Some mh'
    /\ Midi.port_not_open mh' = false
    /\ forall g, is_Some (active_note_channels mh' !! g) ->
                 dict_in (active_notes (process_hands_data hands zones w)) g = true.
Proof.
  intros Hnd Hmh Hopen Hbound.
  destruct (release_pass_spec synth pick hands w) as (_ & R2 & _ & _ & remove & Hnotes & Hremove).
  cbv zeta in R2, Hnotes, Hremove.
  pose proof (frame_split synth pick target_fingers hands zones w) as Hreach.
  cbv zeta in Hreach.
  destruct (claim_reach_inv synth pick target_fingers _ _ _ _ Hreach)
    as (_ & _ & _ & I4 & new & _ & N2 & N3 & _ & N5 & _).
  cbn [fst snd] in *.
  set (calls1 := flat_map (calls_of (zone_store w) hands) (active_notes w)) in *.
  set (w1 := fst (release_pass hands w)) in *.
  set (w2 := process_hands_data hands zones w) in *.
  exists (foldl midi_dispatch (foldl midi_dispatch mh calls1) new).
  split; [|split].
  - rewrite N2, R2, !midi_handler_fold, Hmh. reflexivity.
  - now rewrite !port_open_fold.
  - intros g [ch Hch].
    destruct (dict_in (active_notes w2) g) eqn:E2; [reflexivity|]. exfalso.
    assert (E1 : dict_in (active_notes w1) g = false).
    { destruct (dict_in (active_notes w1) g) eqn:E1; [|reflexivity].
      pose proof (I4 g E1) as Hsame. apply dict_in_true in E1 as [v Hv].
      apply dict_in_false in E2. congruence. }
    pose proof (N5 g E1) as Hlen. rewrite E2 in Hlen.
    apply length_zero_iff_nil in Hlen.
    rewrite (dispatch_others pick new _ g Hlen) in Hch.
    pose proof (quiet_fold calls1 mh g ch (pass1_calls_quiet _ _ _) Hch) as Hch0.
    pose proof (Hbound g (ex_intro _ ch Hch0)) as Hin.
    apply dict_in_true in Hin as [nd Hget].
    assert (Hrem : g ∈ remove).
    { destruct (decide (g ∈ remove)) as [Hr|Hr]; [exact Hr|]. exfalso.
      apply dict_in_false in E1. rewrite Hnotes in E1.
      pose proof (dict_get_filter_keep (active_notes w)
                    (fun k => negb (bool_decide (k ∈ remove))) g) as Hk.
      cbn beta in Hk. rewrite Hk in E1 by (now rewrite bool_decide_eq_false_2).
      congruence. }
    apply Hremove in Hrem as (nd' & Hin' & Hns).
    destruct (channel_returned pick calls1 mh g ch) as [_ Hnone].
    + apply pass1_calls_quiet.
    + exists (midi_note nd'). unfold calls1. apply in_flat_map.
      exists (g, nd'). split; [exact Hin'|].
      rewrite calls_of_released by exact Hns. now left.
    + exact Hopen.
    + exact Hch0.
    + congruence.
Qed.

(** X23.  No channel is left behind.  Take a world whose notes and
    channels [mido] accepts (every zone and every sounding note carries a
    MIDI note, 0 to 127, and the channels of the handler are MIDI channels,
    1 to 16), with the MIDI port open.  If every finger that holds a MIDI
    channel is bound in the table of sounding notes, then the same is true
    after any number of frames: a finger whose note ends gives its channel
    back in the same frame, so the channels in use are never more than the
    notes sounding.  Every message these frames give to the port is one
    [mido] accepts, and the notes and channels stay such. *)
Theorem channels_follow_bindings (frames : list (list Hand * list ZoneRef))
    (w : World S) (mh : MidiHandler) :
  NoDup (map fst (active_notes w)) ->
  Audio.midi_handler (audio_engine w) = Some mh ->
  Midi.port_not_open mh = false ->
  mido_accepts w ->
  (forall g, is_Some (active_note_channels mh !! g) -> dict_in (active_notes w) g = true) ->
  let w' := run_frames frames w in
  exists mh' msgs,
    Audio.midi_handler (audio_engine w') = Some mh'
    /\ Midi.port_not_open mh' = false
    /\ (forall g, is_Some (active_note_channels mh' !! g) ->
                  dict_in (active_notes w') g = true)
    /\ NoDup (map fst (active_notes w'))
    /\ Midi.sent_messages mh' = Midi.sent_messages mh ++ msgs
    /\ forallb Mido.valid msgs = true
    /\ mido_accepts w'.
Proof.
  intros Hnd Hmh Hopen Hok Hbound w'. subst w'. unfold Interaction.run_frames.
  revert w mh Hnd Hmh Hopen Hok Hbound.
  induction frames as [|[hands zones] frames IH]; intros w mh Hnd Hmh Hopen Hok Hbound.
  - exists mh, []. rewrite app_nil_r. cbn [foldl]. auto 10.
  - cbn [foldl fst snd].
    destruct (frame_channels_bound hands zones w mh Hnd Hmh Hopen Hbound)
      as (mh1 & H1 & H2 & H3).
    destruct (frame_accepted synth pick target_fingers hands zones w Hok) as [Hok1 Hmsgs].
    destruct (Hmsgs mh Hmh) as (mh1' & msgs1 & H1' & Hsent1 & Hvalid1).
    rewrite H1 in H1'. injection H1' as <-.
    destruct (IH _ mh1 (frame_keys_unique hands zones w Hnd) H1 H2 Hok1 H3)
      as (mh' & msgs & A & B & C & D & E & F & G).
    exists mh', (msgs1 ++ msgs).
    rewrite E, Hsent1, <- app_assoc, forallb_app, Hvalid1, F. auto 10.
Qed.

End FrameCommands.

Section QuietFrames.
Import Interaction.
Context {S : Type}.
Variable synth : Audio.SynthOps S.
Variable pick : MidiHandler -> Z.
Variable target_fingers : gset Z.

Abbreviation process_hands_data := (Interaction.process_hands_data synth pick target_fingers).
Abbreviation release_pass := (Interaction.release_pass synth pick).
Abbreviation claim_reach := (Interaction.claim_reach synth pick target_fingers).
Abbreviation run_frames := (Interaction.run_frames synth pick target_fingers).
Abbreviation cleanup_stale_notes := (Interaction.cleanup_stale_notes synth pick).
Abbreviation dispatch := (Audio.dispatch synth pick).

(** The note-offs of all entries, and the zones they free. *)
Abbreviation note_offs items :=
  (map (fun item : FingerId * NoteData => NoteOff (midi_note (snd item)) (fst item)) items).
Abbreviation holds_zone items r :=
  (existsb (fun item : FingerId * NoteData => bool_decide (zone (snd item) = r)) items).

Lemma tip_not_there (hand_landmarks : list (Z * Z * Z * Q)) tip :
  (length hand_landmarks <= 4)%nat -> 4 <= tip ->
  _get_finger_tip_coordinate hand_landmarks tip = None.
Proof.
  intros Hl Ht. unfold _get_finger_tip_coordinate.
  destruct (Z.ltb_spec tip (Z.of_nat (length hand_landmarks))); [lia | reflexivity].
Qed.

Lemma finger_tip_entry entry : In entry FINGER_TIP_LANDMARKS -> 4 <= snd entry.
Proof.
  unfold FINGER_TIP_LANDMARKS. intros H.
  repeat (destruct H as [<-|H]; [cbn [snd]; lia|]). destruct H.
Qed.

Lemma finger_name_tip tip name : LANDMARK_ID_TO_FINGER_NAME tip = Some name -> 4 <= tip.
Proof.
  unfold LANDMARK_ID_TO_FINGER_NAME.
  destruct (List.find _ FINGER_TIP_LANDMARKS) as [entry|] eqn:E; [|discriminate].
  intros _. apply find_some in E as [Hin Heq]. apply Z.eqb_eq in Heq. subst tip.
  now apply finger_tip_entry.
Qed.

Lemma filter_nothing {A} (p : A -> bool) l :
  (forall x, In x l -> p x = false) -> List.filter p l = [].
Proof.
  induction l as [|a l IH]; intros H; [reflexivity|]. cbn.
  rewrite (H a) by now left. apply IH. intros x Hx. apply H. now right.
Qed.

Section Short.
Variable hands_data : list Hand.
Hypothesis short : Forall (fun hand => (length (landmarks hand) <= 4)%nat) hands_data.

Lemma short_not_sustained store f nd : sustained store hands_data f nd = None.
Proof.
  unfold sustained. destruct (matching_hand f hands_data) as [hand|] eqn:E; [|reflexivity].
  apply find_some in E as [Hin _].
  destruct (LANDMARK_ID_TO_FINGER_NAME (snd f)) as [name|] eqn:En; [|reflexivity].
  destruct (extended hand name); [|reflexivity].
  rewrite tip_not_there; [reflexivity | | now apply finger_name_tip in En].
  rewrite List.Forall_forall in short. now apply short.
Qed.

Lemma short_not_shown f : shown_at target_fingers hands_data f = [].
Proof.
  unfold shown_at.
  assert (Hnil : forall {A B} (g : A -> list B) l,
             (forall x, In x l -> g x = []) -> flat_map g l = []).
  { intros A B g l H. induction l as [|a l IH]; [reflexivity|]. cbn.
    rewrite (H a) by now left. apply IH. intros x Hx. apply H. now right. }
  apply Hnil. intros [i hand] Hin. apply Hnil. intros entry He. cbn [fst snd].
  destruct (_ && _); [|reflexivity].
  rewrite tip_not_there; [reflexivity | | now apply finger_tip_entry].
  rewrite List.Forall_forall in short. apply short.
  unfold enumerate in Hin. apply list_elem_of_In, elem_of_lookup_imap in Hin
    as (j & y & [= _ <-] & Hy).
  apply list_elem_of_In, list_elem_of_lookup. eauto.
Qed.

Lemma short_no_claims zones a b : claim_reach hands_data zones a b -> b = a.
Proof.
  induction 1 as [|b f x y r _ _ _ _ Hshown]; [reflexivity|].
  rewrite short_not_shown in Hshown. destruct Hshown.
Qed.

Lemma short_calls store items :
  flat_map (calls_of store hands_data) items = note_offs items.
Proof.
  induction items as [|[f nd] items IH]; [reflexivity|].
  cbn [flat_map map]. rewrite IH. unfold calls_of. cbn [fst snd].
  now rewrite short_not_sustained.
Qed.

Lemma short_releases store items r :
  releases_zone store hands_data items r = holds_zone items r.
Proof.
  unfold releases_zone, is_sustained. induction items as [|[f nd] items IH]; [reflexivity|].
  cbn [existsb fst snd]. now rewrite IH, short_not_sustained.
Qed.

End Short.

Lemma cleanup_fold items :
  let step :=
    fun (w : World S) (item : FingerId * NoteData) =>
      let w := Interaction.emit synth pick (NoteOff (midi_note (snd item)) (fst item)) w in
      set_zone (zone (snd item)) (Zone.deactivate (zone_store w (zone (snd item)))) w in
  forall w : World S,
    active_notes (foldl step w items) = active_notes w
    /\ issued (foldl step w items) = issued w ++ note_offs items
    /\ audio_engine (foldl step w items)
       = foldl dispatch (audio_engine w) (note_offs items)
    /\ forall r, zone_store (foldl step w items) r
                 = if holds_zone items r then Zone.deactivate (zone_store w r)
                   else zone_store w r.
Proof.
  intros step. induction items as [|[f nd] items IH]; intros w.
  - cbn. rewrite app_nil_r. auto.
  - cbn [foldl map existsb fst snd].
    destruct (IH (step w (f, nd))) as (H1 & H2 & H3 & H4).
    rewrite H1, H2, H3. unfold step at 1 2 3.
    cbn [active_notes issued audio_engine set_zone Interaction.emit zone_store fst snd].
    split; [reflexivity|]. split; [now rewrite <- app_assoc|]. split; [reflexivity|].
    intros r. rewrite H4. unfold step.
    cbn [zone_store set_zone Interaction.emit fst snd].
    destruct (decide (zone nd = r)) as [<-|N].
    + rewrite bool_decide_eq_true_2 by reflexivity. cbn [orb].
      rewrite fn_lookup_insert. destruct (holds_zone items (zone nd)); [|reflexivity].
      apply deactivate_idem.
    + rewrite bool_decide_eq_false_2 by exact N. cbn [orb].
      now rewrite fn_lookup_insert_ne.
Qed.

(** X24.  A frame without fingertips ends every note.  When no hand is
    seen, or every hand seen has at most four landmarks (the fingertip
    landmarks have the ids 4 to 20, and a landmark is looked up only when
    its id is below the length of the list), [process_hands_data] issues
    the note-off of every sounding note, in the order of the table, and
    nothing else; it empties the table and frees the zones of the notes.
    That is what [cleanup_stale_notes] does: the two leave the same state. *)
Theorem frame_without_fingertips (hands_data : list Hand) (zones : list ZoneRef)
    (w : World S) :
  Forall (fun hand => (length (landmarks hand) <= 4)%nat) hands_data ->
  let w2 := process_hands_data hands_data zones w in
  let w' := cleanup_stale_notes w in
  active_notes w2 = []
  /\ issued w2 = issued w ++ note_offs (active_notes w)
  /\ audio_engine w2 = foldl dispatch (audio_engine w) (note_offs (active_notes w))
  /\ (forall r, zone_store w2 r
                = if holds_zone (active_notes w) r then Zone.deactivate (zone_store w r)
                  else zone_store w r)
  /\ active_notes w' = active_notes w2
  /\ issued w' = issued w2
  /\ audio_engine w' = audio_engine w2
  /\ (forall r, zone_store w' r = zone_store w2 r).
Proof.
  intros Hshort w2 w'.
  assert (E2 : w2 = fst (release_pass hands_data w)).
  { subst w2. pose proof (frame_split synth pick target_fingers hands_data zones w) as H.
    cbv zeta in H. apply (short_no_claims hands_data Hshort) in H.
    now rewrite <- H. }
  destruct (release_pass_spec synth pick hands_data w)
    as (R1 & R2 & R3 & _ & remove & Hnotes & Hremove).
  cbv zeta in R1, R2, R3, Hnotes, Hremove. rewrite <- E2 in R1, R2, R3, Hnotes.
  rewrite (short_calls hands_data Hshort) in R1, R2.
  assert (A2 : active_notes w2 = []).
  { rewrite Hnotes. apply filter_nothing. intros [g nd] Hin. cbn [fst].
    apply negb_false_iff, bool_decide_eq_true, Hremove. exists nd. split; [exact Hin|].
    unfold is_sustained. cbn [fst snd].
    now rewrite (short_not_sustained hands_data Hshort). }
  assert (Z2 : forall r, zone_store w2 r
                         = if holds_zone (active_notes w) r
                           then Zone.deactivate (zone_store w r) else zone_store w r).
  { intros r. now rewrite R3, (short_releases hands_data Hshort). }
  split; [exact A2|]. split; [exact R1|]. split; [exact R2|]. split; [exact Z2|].
  subst w'. unfold Interaction.cleanup_stale_notes.
  destruct (bool_decide (active_notes w = [])) eqn:E.
  - apply bool_decide_eq_true in E. rewrite A2, R1, R2.
    split; [exact E|]. rewrite E. cbn. rewrite app_nil_r.
    split; [reflexivity|]. split; [reflexivity|].
    intros r. rewrite Z2, E. reflexivity.
  - destruct (cleanup_fold (active_notes w) w) as (_ & C2 & C3 & C4).
    cbn [active_notes issued audio_engine zone_store set_active_notes].
    cbv zeta in C2, C3, C4 |- *.
    rewrite A2, R1, R2, C2, C3. split; [reflexivity|]. split; [reflexivity|].
    split; [reflexivity|]. intros r. now rewrite C4, Z2.
Qed.

End QuietFrames.

Section TargetFingers.
Import Interaction.

Lemma finger_tip_landmark_known finger_name id :
  finger_tip_landmark finger_name = Some id -> id ∈ all_finger_tips.
Proof.
  unfold finger_tip_landmark, all_finger_tips.
  destruct (List.find _ FINGER_TIP_LANDMARKS) as [entry|] eqn:E; [|discriminate].
  cbn [fmap option_fmap option_map]. intros [= <-]. apply find_some in E as [Hin _].
  apply elem_of_list_to_set, list_elem_of_In, in_map, Hin.
Qed.

Lemma target_fingers_fold (names : list string) (acc : gset Z) id :
  id ∈ foldl (fun (target_fingers : gset Z) name =>
                match finger_tip_landmark (PyStr.upper name) with
                | Some id => {[id]} ∪ target_fingers
                | None => target_fingers
                end) acc names
  <-> id ∈ acc
      \/ exists name, In name names /\ finger_tip_landmark (PyStr.upper name) = Some id.
Proof.
  revert acc. induction names as [|name names IH]; intros acc.
  - cbn. split; [now left | intros [H|(? & [] & _)]; exact H].
  - cbn [foldl]. rewrite IH. split.
    + intros [H|(nm & H1 & H2)].
      * destruct (finger_tip_landmark (PyStr.upper name)) as [id'|] eqn:E; [|now left].
        apply elem_of_union in H as [H|H]; [|now left].
        apply elem_of_singleton in H as ->. right. exists name. split; [now left | exact E].
      * right. exists nm. split; [now right | exact H2].
    + intros [H|(nm & [<-|H1] & H2)].
      * left. destruct (finger_tip_landmark (PyStr.upper name)); [|exact H].
        apply elem_of_union. now right.
      * left. rewrite H2. apply elem_of_union. left. now apply elem_of_singleton.
      * right. eauto.
Qed.

Lemma some_finger_or_none (names : list string) :
  (exists name i, In name names /\ finger_tip_landmark (PyStr.upper name) = Some i)
  \/ (forall name, In name names -> finger_tip_landmark (PyStr.upper name) = None).
Proof.
  induction names as [|name names [(nm & i & Hn & Hi)|IH]].
  - right. intros ? [].
  - left. exists nm, i. split; [now right | exact Hi].
  - destruct (finger_tip_landmark (PyStr.upper name)) as [i|] eqn:E.
    + left. exists name, i. split; [now left | exact E].
    + right. intros nm [<-|Hn]; [exact E | now apply IH].
Qed.

(** X25.  The set of fingers the manager listens to is never empty and
    holds only fingertip landmarks (4, 8, 12, 16, 20).  With
    [use_all_fingers] it is all five.  Without it, it holds the fingertip
    of every allowed name that is a finger name, in upper or lower case,
    names that are no finger names being passed over; and when no allowed
    name is a finger name, the index fingertip alone. *)
Theorem target_fingers_never_empty (use_all_fingers : bool)
    (allowed_finger_names : list string) :
  let target_fingers := init_target_fingers use_all_fingers allowed_finger_names in
  target_fingers <> ∅
  /\ target_fingers ⊆ all_finger_tips
  /\ (use_all_fingers = true -> target_fingers = all_finger_tips)
  /\ (use_all_fingers = false ->
      forall id,
        id ∈ target_fingers
        <-> (exists name, In name allowed_finger_names
                          /\ finger_tip_landmark (PyStr.upper name) = Some id)
            \/ (id = 8
                /\ forall name, In name allowed_finger_names ->
                                finger_tip_landmark (PyStr.upper name) = None)).
Proof.
  intros target_fingers.
  assert (H8 : 8 ∈ all_finger_tips).
  { unfold all_finger_tips. apply elem_of_list_to_set, list_elem_of_In.
    unfold FINGER_TIP_LANDMARKS. cbn [map snd]. right. now left. }
  destruct use_all_fingers.
  { subst target_fingers. unfold init_target_fingers. cbn [negb].
    split; [intros E; rewrite E in H8; now apply not_elem_of_empty in H8|].
    split; [reflexivity|]. split; [reflexivity | discriminate]. }
  assert (Hspec : forall id,
             id ∈ target_fingers
             <-> (exists name, In name allowed_finger_names
                               /\ finger_tip_landmark (PyStr.upper name) = Some id)
                 \/ (id = 8
                     /\ forall name, In name allowed_finger_names ->
                                     finger_tip_landmark (PyStr.upper name) = None)).
  { intros id. subst target_fingers. unfold init_target_fingers. cbn [negb].
    match goal with
    | |- context [bool_decide (?t = ∅)] => set (found := t)
    end.
    assert (Hf : forall i, i ∈ found
                           <-> exists name, In name allowed_finger_names
                                            /\ finger_tip_landmark (PyStr.upper name) = Some i).
    { intros i. unfold found. rewrite target_fingers_fold. split; [|now right].
      intros [H|H]; [now apply not_elem_of_empty in H | exact H]. }
    destruct (bool_decide (found = ∅)) eqn:E.
    - apply bool_decide_eq_true in E. rewrite E, union_empty_r_L, elem_of_singleton.
      split.
      + intros ->. right. split; [reflexivity|]. intros name Hn.
        destruct (finger_tip_landmark (PyStr.upper name)) as [i|] eqn:Ei; [|reflexivity].
        exfalso. apply (not_elem_of_empty (C:=gset Z) i). rewrite <- E. apply Hf. eauto.
      + intros [(name & Hn & Hi)|[-> _]]; [|reflexivity].
        exfalso. apply (not_elem_of_empty (C:=gset Z) id). rewrite <- E. apply Hf. eauto.
    - apply bool_decide_eq_false in E. rewrite Hf. split; [now left|].
      intros [H|[-> Hnone]]; [exact H|]. exfalso. apply E.
      apply set_eq. intros i. rewrite Hf. split.
      + intros (name & Hn & Hi). rewrite (Hnone name Hn) in Hi. discriminate.
      + intros Hi. now apply not_elem_of_empty in Hi. }
  split; [|split; [|split; [discriminate | intros _; exact Hspec]]].
  - intros E.
    destruct (some_finger_or_none allowed_finger_names) as [(name & i & Hn & Hi)|Hnone].
    + apply (not_elem_of_empty (C:=gset Z) i). rewrite <- E. apply Hspec. left. eauto.
    + apply (not_elem_of_empty (C:=gset Z) 8). rewrite <- E. apply Hspec. right. auto.
  - intros id Hid. apply Hspec in Hid as [(name & _ & Hi)|[-> _]]; [|exact H8].
    now apply finger_tip_landmark_known in Hi.
Qed.

End TargetFingers.

Section HeldNotes.
Import Interaction.
Context {S : Type}.
Variable synth : Audio.SynthOps S.
Variable pick : MidiHandler -> Z.
Variable target_fingers : gset Z.

Abbreviation process_hands_data := (Interaction.process_hands_data synth pick target_fingers).
Abbreviation run_frames := (Interaction.run_frames synth pick target_fingers).

Lemma found_in_zone_sustained store hands f nd hand finger_name x y depth :
  matching_hand f hands = Some hand ->
  LANDMARK_ID_TO_FINGER_NAME (snd f) = Some finger_name ->
  extended hand finger_name = true ->
  _get_finger_tip_coordinate (landmarks hand) (snd f) = Some (x, y, depth) ->
  Zone.is_point_inside (store (zone nd)) x y = true ->
  sustained store hands f nd = Some (x, y).
Proof. intros H1 H2 H3 H4 H5. unfold sustained. now rewrite H1, H2, H3, H4, H5. Qed.

(** X26.  A frame in which the first pass finds the finger of a sounding
    note where it sounds.  The first pass looks for the hand by its
    handedness label: take the first hand of the frame whose handedness
    equals the hand id of the binding, and let it have that finger
    extended, with its fingertip landmark present and inside the zone of
    the note.  Then the commands about that finger are exactly two, a
    pitch bend computed from the fingertip's x and an intensity update
    computed from its y, in this order; there is no note-on and no
    note-off for it, and its binding is what it was.  (A binding made for
    a hand of unknown handedness carries the hand id [hand_<index>]; the
    first pass compares that id with the handedness labels, finds no hand
    labelled so, and the statement does not apply: see C4.) *)
Theorem sustained_note_commands (hands_data : list Hand) (zones : list ZoneRef)
    (w : World S) (f : FingerId) (nd : NoteData)
    (hand : Hand) (finger_name : string) (x y : Z) (depth : Q) :
  NoDup (map fst (active_notes w)) ->
  dict_get (active_notes w) f = Some nd ->
  matching_hand f hands_data = Some hand ->
  LANDMARK_ID_TO_FINGER_NAME (snd f) = Some finger_name ->
  extended hand finger_name = true ->
  _get_finger_tip_coordinate (landmarks hand) (snd f) = Some (x, y, depth) ->
  Zone.is_point_inside (zone_store w (zone nd)) x y = true ->
  let w2 := process_hands_data hands_data zones w in
  handedness hand = fst f
  /\ (exists new,
        issued w2 = issued w ++ new
        /\ List.filter (about f) new
           = [PitchBend
                (PitchBendProcessor.calculate_pitch_bend (inject_Z x)
                   (rect (zone_store w (zone nd)))) f;
              IntensityUpdate
                (VelocityIntensityProcessor.calculate_continuous_intensity (inject_Z y)
                   (rect (zone_store w (zone nd)))) f (midi_note nd)])
  /\ dict_get (active_notes w2) f = Some nd
  /\ same_rects (zone_store w2) (zone_store w)
  /\ NoDup (map fst (active_notes w2)).
Proof.
  intros Hnd Hget Hhand Hname Hext Hcoord Hin w2. split.
  - unfold matching_hand in Hhand. apply find_some in Hhand as [_ Hh].
    now apply bool_decide_eq_true in Hh.
  - apply sustain_frame; [exact Hnd | exact Hget|].
    exact (found_in_zone_sustained _ _ _ _ _ _ _ _ _ Hhand Hname Hext Hcoord Hin).
Qed.

(** X27.  While the first pass finds the finger of a sounding note where
    it sounds, frame after frame, the note is never triggered again and
    never released: all commands about the finger are pitch bends and
    intensity updates, two in every frame, and the binding stays as it
    is.  "Finds" is as in X26: in every frame the first hand whose
    handedness equals the hand id of the binding has the finger extended,
    with its fingertip inside the zone of the note.  For a binding whose
    hand id is [hand_<index>] (a hand of unknown handedness) a frame of
    hands labelled Left, Right or Unknown is never such, and the note is
    released and triggered again (C4). *)
Theorem held_note_only_modulates (frames : list (list Hand * list ZoneRef))
    (w : World S) (f : FingerId) (nd : NoteData) :
  NoDup (map fst (active_notes w)) ->
  dict_get (active_notes w) f = Some nd ->
  Forall (fun fr =>
            exists hand finger_name x y depth,
              matching_hand f (fst fr) = Some hand
              /\ LANDMARK_ID_TO_FINGER_NAME (snd f) = Some finger_name
              /\ extended hand finger_name = true
              /\ _get_finger_tip_coordinate (landmarks hand) (snd f) = Some (x, y, depth)
              /\ Zone.is_point_inside (zone_store w (zone nd)) x y = true) frames ->
  let w' := run_frames frames w in
  exists new,
    issued w' = issued w ++ new
    /\ forallb only_modulates (List.filter (about f) new) = true
    /\ length (List.filter (about f) new) = (2 * length frames)%nat
    /\ dict_get (active_notes w') f = Some nd.
Proof.
  intros Hnd Hget Hall. apply sustained_frames_only_modulate; [exact Hnd | exact Hget|].
  eapply List.Forall_impl; [|exact Hall].
  intros fr (hand & finger_name & x & y & depth & H1 & H2 & H3 & H4 & H5).
  unfold is_sustained. cbn [fst snd].
  now rewrite (found_in_zone_sustained _ _ _ _ _ _ _ _ _ H1 H2 H3 H4 H5).
Qed.

End HeldNotes.

(** ** utils/math_utils.py *)

Section MathUtilsFacts.
Local Open Scope Q_scope.

Lemma py_lt_true a b : Py.lt a b = true <-> a < b.
Proof.
  unfold Py.lt. destruct (Qcompare_spec a b) as [E|E|E]; split; intros H;
    try reflexivity; try discriminate; try assumption; exfalso; lra.
Qed.

Lemma py_lt_false a b : Py.lt a b = false <-> b <= a.
Proof.
  destruct (Py.lt a b) eqn:E.
  - apply py_lt_true in E. split; [discriminate | intros; exfalso; lra].
  - split; [|reflexivity]. intros _.
    destruct (Qlt_le_dec a b) as [H|H]; [|exact H].
    apply py_lt_true in H. congruence.
Qed.

(** X28.  [clamp] raises exactly when [min_val] is greater than [max_val].
    Otherwise its result lies between the two bounds, equals the value when
    the value lies between them, and is not changed by clamping it
    again. *)
Theorem clamp_spec (value min_val max_val : Q) :
  (MathUtils.clamp value min_val max_val = None <-> max_val < min_val)
  /\ forall r,
       MathUtils.clamp value min_val max_val = Some r ->
       min_val <= r <= max_val
       /\ (min_val <= value <= max_val -> r == value)
       /\ MathUtils.clamp r min_val max_val = Some r.
Proof.
  unfold MathUtils.clamp. split.
  - destruct (Py.lt max_val min_val) eqn:E.
    + apply py_lt_true in E. tauto.
    + apply py_lt_false in E. split; [discriminate | intros; exfalso; lra].
  - intros r. destruct (Py.lt max_val min_val) eqn:E; [discriminate|].
    apply py_lt_false in E. intros [= <-].
    destruct (py_min_cases value max_val) as [[H1 E1]|[H1 E1]]; rewrite E1;
      match goal with
      | |- context [Py.max min_val ?t] =>
          destruct (py_max_cases min_val t) as [[H2 E2]|[H2 E2]]; rewrite E2
      end;
      (split; [lra|]); (split; [intros; lra|]); f_equal.
    + rewrite (py_min_ge max_val max_val) by lra. now apply py_max_gt.
    + rewrite (py_min_ge min_val max_val) by lra. apply py_max_le. lra.
    + rewrite (py_min_ge value max_val) by lra. now apply py_max_gt.
    + rewrite (py_min_ge min_val max_val) by lra. apply py_max_le. lra.
Qed.

(** X29.  [map_value] with [clamp_output] returns a value between the
    smaller and the larger of [to_low] and [to_high], whichever way round
    they are and also for a collapsed input range.  Without clamping it is
    the linear interpolation [lerp] at the relative position of the value,
    and [from_low] goes to [to_low]; a collapsed input range ([from_low]
    equal to [from_high]) gives [to_low]. *)
Theorem map_value_spec (value from_low from_high to_low to_high : Q) :
  (Py.min to_low to_high
   <= MathUtils.map_value value from_low from_high to_low to_high true
   <= Py.max to_low to_high)
  /\ (from_low == from_high ->
      MathUtils.map_value value from_low from_high to_low to_high false = to_low)
  /\ (~ from_low == from_high ->
      MathUtils.map_value value from_low from_high to_low to_high false
      == MathUtils.lerp to_low to_high ((value - from_low) / (from_high - from_low))
      /\ MathUtils.map_value from_low from_low from_high to_low to_high false == to_low).
Proof.
  unfold MathUtils.map_value, MathUtils.lerp. split; [|split].
  - cbv zeta.
    set (m := if Qeq_bool from_low from_high then to_low
              else to_low + (value - from_low) / (from_high - from_low) * (to_high - to_low)).
    assert (Hle : Py.min to_low to_high <= Py.max to_low to_high).
    { destruct (py_min_cases to_low to_high) as [[? ->]|[? ->]];
        destruct (py_max_cases to_low to_high) as [[? ->]|[? ->]]; lra. }
    destruct (Py.lt m (Py.min to_low to_high)) eqn:E1; [lra|].
    apply py_lt_false in E1.
    destruct (Py.lt (Py.max to_low to_high) m) eqn:E2; [lra|].
    apply py_lt_false in E2. lra.
  - intros E. apply Qeq_bool_iff in E. now rewrite E.
  - intros N.
    assert (E : Qeq_bool from_low from_high = false).
    { destruct (Qeq_bool from_low from_high) eqn:E; [|reflexivity].
      apply Qeq_bool_iff in E. contradiction. }
    rewrite E. split; [reflexivity|]. field. lra.
Qed.

End MathUtilsFacts.

(** ** The theorems above at sample inputs *)

Lemma layout_zones_disjoint_witness :
  0 <= 10 /\ 0%nat <> 1%nat
  /\ LayoutGenerator.generate_layout Sample.three_notes 1280 720 10 true !! 0%nat
     = Some (Zone.init 10 10 630 350 "C4" 60 (Some "C4"%string))
  /\ LayoutGenerator.generate_layout Sample.three_notes 1280 720 10 true !! 1%nat
     = Some (Zone.init 640 10 630 350 "C#4" 61 (Some "C#4"%string))
  /\ Zone.is_point_inside (Zone.init 10 10 630 350 "C4" 60 (Some "C4"%string)) 100 100 = true
  /\ Zone.is_point_inside (Zone.init 640 10 630 350 "C#4" 61 (Some "C#4"%string)) 100 100
     = false.
Proof.
  assert (H1 : 0 <= 10) by lia.
  assert (H2 : 0%nat <> 1%nat) by lia.
  assert (H3 : LayoutGenerator.generate_layout Sample.three_notes 1280 720 10 true !! 0%nat
               = Some (Zone.init 10 10 630 350 "C4" 60 (Some "C4"%string)))
    by (vm_compute; reflexivity).
  assert (H4 : LayoutGenerator.generate_layout Sample.three_notes 1280 720 10 true !! 1%nat
               = Some (Zone.init 640 10 630 350 "C#4" 61 (Some "C#4"%string)))
    by (vm_compute; reflexivity).
  assert (H5 : Zone.is_point_inside (Zone.init 10 10 630 350 "C4" 60 (Some "C4"%string))
                 100 100 = true) by reflexivity.
  exact (conj H1 (conj H2 (conj H3 (conj H4 (conj H5
          (layout_zones_disjoint Sample.three_notes 1280 720 10 true 0 1 _ _ 100 100
             H1 H2 H3 H4 H5)))))).
Defined.

Lemma layout_zones_inside_screen_witness :
  0 <= 10 /\ 2 * 10 <= 1280 /\ 2 * 10 <= 720
  /\ LayoutGenerator.generate_layout Sample.three_notes 1280 720 10 true !! 2%nat
     = Some (Zone.init 10 360 1260 350 "D4" 62 (Some "D4"%string))
  /\ 10 <= LayoutGenerator.zone_x (Zone.init 10 360 1260 350 "D4" 62 (Some "D4"%string))
  /\ LayoutGenerator.zone_x (Zone.init 10 360 1260 350 "D4" 62 (Some "D4"%string))
     + LayoutGenerator.zone_width (Zone.init 10 360 1260 350 "D4" 62 (Some "D4"%string))
     <= 1280 - 10.
Proof.
  assert (H1 : 0 <= 10) by lia.
  assert (H2 : 2 * 10 <= 1280) by lia.
  assert (H3 : 2 * 10 <= 720) by lia.
  assert (H4 : LayoutGenerator.generate_layout Sample.three_notes 1280 720 10 true !! 2%nat
               = Some (Zone.init 10 360 1260 350 "D4" 62 (Some "D4"%string)))
    by (vm_compute; reflexivity).
  destruct (layout_zones_inside_screen Sample.three_notes 1280 720 10 true 2 _ H1 H2 H3 H4)
    as (A & _ & B & _).
  exact (conj H1 (conj H2 (conj H3 (conj H4 (conj A B))))).
Defined.

Lemma close_port_reclaims_witness :
  Midi.pool_invariant 2 3 Sample.handler1
  /\ available_channels (Midi.close_port Sample.handler1) = Midi.channel_set 2 3
  /\ active_note_channels (Midi.close_port Sample.handler1) = ∅
  /\ Midi.send_note_on Sample.lowest 60 64 Sample.right_index (Midi.close_port Sample.handler1)
     = Midi.close_port Sample.handler1.
Proof.
  assert (H1 : Midi.pool_invariant 2 3 Sample.handler1).
  { apply pool_invariant_send_note_on.
    exact (pool_invariant_init (Some [2; 3]) (Some Sample.port0)). }
  destruct (close_port_reclaims Sample.lowest 2 3 Sample.handler1
              [Midi.SendNoteOn 60 64 Sample.right_index] H1) as (A & B & _ & _ & C & _).
  exact (conj H1 (conj A (conj B C))).
Defined.

Lemma note_on_off_round_trip_witness :
  active_note_channels Sample.handler0 !! Sample.right_index = None
  /\ 0 <= 60 <= 127 /\ 0 <= 64 <= 127
  /\ Midi.channels_on_wire Sample.handler0
  /\ Midi.port_not_open Sample.handler0 = false
  /\ available_channels Sample.handler0 <> ∅
  /\ let self' :=
       Midi.send_note_off 60 Sample.right_index
         (Midi.send_note_on Sample.lowest 60 64 Sample.right_index Sample.handler0) in
     available_channels self' = available_channels Sample.handler0
     /\ active_note_channels self' = active_note_channels Sample.handler0
     /\ exists channel,
          1 <= channel <= 16
          /\ Midi.sent_messages self'
             = Midi.sent_messages Sample.handler0
               ++ [Mido.note_on 60 64 (channel - 1); Mido.note_off 60 0 (channel - 1)].
Proof.
  assert (H1 : active_note_channels Sample.handler0 !! Sample.right_index = None)
    by reflexivity.
  assert (H2 : 0 <= 60 <= 127) by lia.
  assert (H3 : 0 <= 64 <= 127) by lia.
  assert (H4 : Midi.channels_on_wire Sample.handler0).
  { apply (pool_invariant_on_wire 2 3); [|lia|lia].
    exact (pool_invariant_init (Some [2; 3]) (Some Sample.port0)). }
  assert (H5 : Midi.port_not_open Sample.handler0 = false) by reflexivity.
  assert (H6 : available_channels Sample.handler0 <> ∅).
  { intros E. apply (not_elem_of_empty (C:=gset Z) 2). rewrite <- E.
    apply (elem_of_channel_set 2 3). lia. }
  destruct (note_on_off_round_trip Sample.lowest 60 64 Sample.right_index Sample.handler0
              H1 H2 H3 H4) as (A & B & C).
  destruct (C H5 H6) as (channel & _ & C1 & _ & C2 & _).
  split; [exact H1|]. split; [exact H2|]. split; [exact H3|]. split; [exact H4|].
  split; [exact H5|]. split; [exact H6|].
  split; [exact A|]. split; [exact B|]. exists channel. exact (conj C1 C2).
Defined.

Lemma open_port_unknown_name_witness :
  "synth"%string <> EmptyString
  /\ ("synth"%string ∉ ["loop"%string])
  /\ Midi.port_not_open (Midi.init None None) = true
  /\ port (Midi.open_port (Some "synth"%string) ["loop"%string]
             (fun _ => Some Sample.port0) (Midi.init None None)) = None.
Proof.
  assert (H1 : "synth"%string <> EmptyString) by discriminate.
  assert (H2 : "synth"%string ∉ ["loop"%string]).
  { intros H. apply list_elem_of_singleton in H. discriminate H. }
  assert (H3 : Midi.port_not_open (Midi.init None None) = true) by reflexivity.
  destruct (open_port_unknown_name Sample.lowest "synth" ["loop"%string]
              (fun _ => Some Sample.port0) (Midi.init None None) [] H1 H2) as [A _].
  exact (conj H1 (conj H2 (conj H3 (proj1 (A H3))))).
Defined.

Lemma shutdown_silences_midi_witness :
  Audio.midi_handler Sample.engine1 = Some Sample.handler1
  /\ Midi.pool_invariant 2 3 Sample.handler1
  /\ Audio.midi_handler
       (foldl (Audio.dispatch Sample.no_synth Sample.lowest)
          (Audio.shutdown (fun s => s) Sample.engine1) [NoteOn 60 64 Sample.right_index])
     = Some (Midi.close_port Sample.handler1)
  /\ available_channels (Midi.close_port Sample.handler1) = Midi.channel_set 2 3.
Proof.
  assert (H1 : Audio.midi_handler Sample.engine1 = Some Sample.handler1) by reflexivity.
  assert (H2 : Midi.pool_invariant 2 3 Sample.handler1).
  { apply pool_invariant_send_note_on.
    exact (pool_invariant_init (Some [2; 3]) (Some Sample.port0)). }
  destruct (shutdown_silences_midi Sample.no_synth Sample.lowest (fun s => s) Sample.engine1
              Sample.handler1 2 3 [NoteOn 60 64 Sample.right_index] H1 H2) as (A & B & _).
  exact (conj H1 (conj H2 (conj A B))).
Defined.

Lemma bindings_and_zones_agree_witness :
  Interaction.consistent Sample.world0
  /\ Interaction.consistent
       (Interaction.run_frames Sample.no_synth Sample.lowest Interaction.all_finger_tips
          [(Sample.frame_join, Sample.zones01)] Sample.world0).
Proof.
  assert (H1 : Interaction.consistent Sample.world0).
  { split; [apply NoDup_nil_2|]. split; [intros f nd []|].
    intros r Hr. destruct r as [|r]; discriminate Hr. }
  exact (conj H1
          (proj1 (bindings_and_zones_agree Sample.no_synth Sample.lowest
                    Interaction.all_finger_tips [(Sample.frame_join, Sample.zones01)]
                    Sample.world0 H1))).
Defined.

Lemma channels_follow_bindings_witness :
  NoDup (map fst (active_notes Sample.world1))
  /\ Audio.midi_handler (audio_engine Sample.world1) = Some Sample.handler1
  /\ Midi.port_not_open Sample.handler1 = false
  /\ Interaction.mido_accepts Sample.world1
  /\ (forall g, is_Some (active_note_channels Sample.handler1 !! g) ->
                Interaction.dict_in (active_notes Sample.world1) g = true)
  /\ exists mh' msgs,
       Audio.midi_handler
         (audio_engine
            (Interaction.run_frames Sample.no_synth Sample.lowest Interaction.all_finger_tips
               [(Sample.frame_slide, Sample.zones01)] Sample.world1)) = Some mh'
       /\ (forall g, is_Some (active_note_channels mh' !! g) ->
             Interaction.dict_in
               (active_notes
                  (Interaction.run_frames Sample.no_synth Sample.lowest
                     Interaction.all_finger_tips
                     [(Sample.frame_slide, Sample.zones01)] Sample.world1)) g = true)
       /\ Midi.sent_messages mh' = Midi.sent_messages Sample.handler1 ++ msgs
       /\ forallb Mido.valid msgs = true.
Proof.
  assert (H1 : NoDup (map fst (active_notes Sample.world1))) by apply NoDup_singleton.
  assert (H2 : Audio.midi_handler (audio_engine Sample.world1) = Some Sample.handler1)
    by reflexivity.
  assert (H3 : Midi.port_not_open Sample.handler1 = false) by reflexivity.
  assert (H4 : forall g, is_Some (active_note_channels Sample.handler1 !! g) ->
                         Interaction.dict_in (active_notes Sample.world1) g = true).
  { assert (E : active_note_channels Sample.handler1 = {[Sample.right_index := 2]})
      by (vm_compute; reflexivity).
    intros g [c Hc]. rewrite E in Hc. apply lookup_singleton_Some in Hc as [<- _].
    reflexivity. }
  destruct (channels_follow_bindings Sample.no_synth Sample.lowest Interaction.all_finger_tips
              [(Sample.frame_slide, Sample.zones01)] Sample.world1 Sample.handler1
              H1 H2 H3 world1_accepted H4) as (mh' & msgs & A & _ & B & _ & C & D & _).
  split; [exact H1|]. split; [exact H2|]. split; [exact H3|].
  split; [exact world1_accepted|]. split; [exact H4|].
  exists mh', msgs. exact (conj A (conj B (conj C D))).
Defined.

Lemma frame_without_fingertips_witness :
  Forall (fun hand => (length (landmarks hand) <= 4)%nat) Sample.frame_one_landmark
  /\ active_notes (Sample.step Sample.frame_one_landmark Sample.zones01 Sample.world1) = []
  /\ issued (Sample.step Sample.frame_one_landmark Sample.zones01 Sample.world1)
     = issued Sample.world1 ++ [NoteOff 60 Sample.right_index].
Proof.
  assert (H1 : Forall (fun hand => (length (landmarks hand) <= 4)%nat)
                 Sample.frame_one_landmark).
  { repeat constructor. }
  destruct (frame_without_fingertips Sample.no_synth Sample.lowest Interaction.all_finger_tips
              Sample.frame_one_landmark Sample.zones01 Sample.world1 H1) as (A & B & _).
  exact (conj H1 (conj A B)).
Defined.

Lemma sustained_note_commands_witness :
  NoDup (map fst (active_notes Sample.world1))
  /\ Interaction.dict_get (active_notes Sample.world1) Sample.right_index = Some Sample.note0
  /\ (exists hand,
        Interaction.matching_hand Sample.right_index Sample.frame_join = Some hand
        /\ handedness hand = "Right"%string
        /\ Interaction.extended hand "INDEX" = true
        /\ Interaction._get_finger_tip_coordinate (landmarks hand) 8 = Some (50, 50, 0%Q))
  /\ Interaction.LANDMARK_ID_TO_FINGER_NAME 8 = Some "INDEX"%string
  /\ Zone.is_point_inside (zone_store Sample.world1 0%nat) 50 50 = true
  /\ exists new,
       issued (Sample.step Sample.frame_join Sample.zones01 Sample.world1)
       = issued Sample.world1 ++ new
       /\ List.filter (Interaction.about Sample.right_index) new
          = [PitchBend 0 Sample.right_index; IntensityUpdate 64 Sample.right_index 60].
Proof.
  assert (H1 : NoDup (map fst (active_notes Sample.world1))) by apply NoDup_singleton.
  assert (H2 : Interaction.dict_get (active_notes Sample.world1) Sample.right_index
               = Some Sample.note0) by reflexivity.
  destruct (Interaction.matching_hand Sample.right_index Sample.frame_join) as [hand|] eqn:H3;
    [|discriminate H3].
  assert (E : hand = Sample.hand "Right" ["INDEX"; "MIDDLE"]%string
                       [(8, (50, 50)); (12, (60, 60))]) by (injection H3 as <-; reflexivity).
  assert (H4 : Interaction.LANDMARK_ID_TO_FINGER_NAME (snd Sample.right_index)
               = Some "INDEX"%string) by reflexivity.
  assert (H5 : Interaction.extended hand "INDEX" = true) by (rewrite E; vm_compute; reflexivity).
  assert (H6 : Interaction._get_finger_tip_coordinate (landmarks hand) (snd Sample.right_index)
               = Some (50, 50, 0%Q)) by (rewrite E; vm_compute; reflexivity).
  assert (H7 : Zone.is_point_inside (zone_store Sample.world1 (zone Sample.note0)) 50 50 = true)
    by reflexivity.
  destruct (sustained_note_commands Sample.no_synth Sample.lowest Interaction.all_finger_tips
              Sample.frame_join Sample.zones01 Sample.world1 Sample.right_index Sample.note0
              hand "INDEX" 50 50 0%Q H1 H2 H3 H4 H5 H6 H7) as (A & (new & B & C) & _).
  split; [exact H1|]. split; [exact H2|].
  split; [exists hand; exact (conj eq_refl (conj A (conj H5 H6)))|].
  split; [exact H4|]. split; [exact H7|].
  exists new. split; [exact B|]. rewrite C. reflexivity.
Defined.

Lemma held_note_only_modulates_witness :
  NoDup (map fst (active_notes Sample.world1))
  /\ Interaction.dict_get (active_notes Sample.world1) Sample.right_index = Some Sample.note0
  /\ Interaction.matching_hand Sample.right_index Sample.frame_join
     = Some (Sample.hand "Right" ["INDEX"; "MIDDLE"]%string [(8, (50, 50)); (12, (60, 60))])
  /\ exists new,
       issued (Interaction.run_frames Sample.no_synth Sample.lowest Interaction.all_finger_tips
                 [(Sample.frame_join, Sample.zones01); (Sample.frame_join, Sample.zones01)]
                 Sample.world1)
       = issued Sample.world1 ++ new
       /\ length (List.filter (Interaction.about Sample.right_index) new) = 4%nat.
Proof.
  assert (H1 : NoDup (map fst (active_notes Sample.world1))) by apply NoDup_singleton.
  assert (H2 : Interaction.dict_get (active_notes Sample.world1) Sample.right_index
               = Some Sample.note0) by reflexivity.
  assert (H3 : Interaction.matching_hand Sample.right_index Sample.frame_join
               = Some (Sample.hand "Right" ["INDEX"; "MIDDLE"]%string
                         [(8, (50, 50)); (12, (60, 60))])) by reflexivity.
  assert (H4 : forall zones : list ZoneRef,
             exists hand finger_name x y depth,
               Interaction.matching_hand Sample.right_index (fst (Sample.frame_join, zones))
               = Some hand
               /\ Interaction.LANDMARK_ID_TO_FINGER_NAME (snd Sample.right_index)
                  = Some finger_name
               /\ Interaction.extended hand finger_name = true
               /\ Interaction._get_finger_tip_coordinate (landmarks hand)
                    (snd Sample.right_index) = Some (x, y, depth)
               /\ Zone.is_point_inside (zone_store Sample.world1 (zone Sample.note0)) x y
                  = true).
  { intros zones. eexists _, "INDEX"%string, 50, 50, 0%Q.
    split; [exact H3|]. split; [reflexivity|].
    split; [vm_compute; reflexivity|]. split; [vm_compute; reflexivity | reflexivity]. }
  destruct (held_note_only_modulates Sample.no_synth Sample.lowest Interaction.all_finger_tips
              [(Sample.frame_join, Sample.zones01); (Sample.frame_join, Sample.zones01)]
              Sample.world1 Sample.right_index Sample.note0 H1 H2
              (Forall_cons _ _ _ (H4 Sample.zones01)
                 (Forall_cons _ _ _ (H4 Sample.zones01) (Forall_nil _))))
    as (new & A & _ & B & _).
  split; [exact H1|]. split; [exact H2|]. split; [exact H3|].
  exists new. exact (conj A B).
Defined.

Lemma layout_closed_form_witness :
  LayoutGenerator.generate_layout Sample.three_notes 1280 720 10 false !! 2%nat
  = Some (Zone.init 10 360 1260 350 "D4" 62 None)
  /\ length (LayoutGenerator.generate_layout Sample.three_notes 1280 720 10 false) = 3%nat
  /\ Zone.zone_y (Zone.init 10 360 1260 350 "D4" 62 None) = 360
  /\ LayoutGenerator.zone_width (Zone.init 10 360 1260 350 "D4" 62 None) = 1260
  /\ LayoutGenerator.zone_height (Zone.init 10 360 1260 350 "D4" 62 None) = 350
  /\ label (Zone.init 10 360 1260 350 "D4" 62 None) = "D4"%string.
Proof.
  assert (H1 : LayoutGenerator.generate_layout Sample.three_notes 1280 720 10 false !! 2%nat
               = Some (Zone.init 10 360 1260 350 "D4" 62 None))
    by (vm_compute; reflexivity).
  destruct (layout_closed_form Sample.three_notes 1280 720 10 false 2) as [A B].
  destruct (B _ H1) as (_ & _ & B1 & B2 & B3 & B4 & _).
  split; [exact H1|]. split; [exact A|].
  split; [rewrite B1; vm_compute; reflexivity|].
  split; [rewrite B2; vm_compute; reflexivity|].
  split; [rewrite B3; vm_compute; reflexivity | exact B4].
Defined.

Lemma choose_notes_spec_witness :
  LayoutGenerator._get_midi_value "C4" = Some 60
  /\ LayoutGenerator._get_midi_value "H4" = None
  /\ LayoutGenerator.choose_notes "C4" 2 (Some "major"%string)
       [LayoutGenerator.mkScale (Some "minor"%string) ["A4"%string];
        LayoutGenerator.mkScale (Some "major"%string) ["C4"; "H4"; "E4"]%string;
        LayoutGenerator.mkScale (Some "major"%string) ["D4"%string]]
     = Some [("C4", 60); ("E4", 64)]%string.
Proof.
  assert (H1 : LayoutGenerator._get_midi_value "C4" = Some 60) by (vm_compute; reflexivity).
  assert (H2 : LayoutGenerator._get_midi_value "H4" = None) by (vm_compute; reflexivity).
  split; [exact H1|]. split; [exact H2|].
  destruct (choose_notes_spec "C4" 2 (Some "major"%string)
              [LayoutGenerator.mkScale (Some "minor"%string) ["A4"%string];
               LayoutGenerator.mkScale (Some "major"%string) ["C4"; "H4"; "E4"]%string;
               LayoutGenerator.mkScale (Some "major"%string) ["D4"%string]]) as [_ H].
  destruct (H 60 H1) as (_ & _ & H3).
  assert (Hearlier : forall earlier,
             In earlier [LayoutGenerator.mkScale (Some "minor"%string) ["A4"%string]] ->
             LayoutGenerator.scale_name earlier <> Some "major"%string).
  { intros earlier [<-|[]]. discriminate. }
  destruct (H3 "major"%string
              [LayoutGenerator.mkScale (Some "minor"%string) ["A4"%string]]
              (LayoutGenerator.mkScale (Some "major"%string) ["C4"; "H4"; "E4"]%string)
              [LayoutGenerator.mkScale (Some "major"%string) ["D4"%string]]
              eq_refl ltac:(discriminate) eq_refl Hearlier eq_refl) as (_ & _ & E).
  rewrite E. vm_compute. reflexivity.
Defined.
